(** * QSP: lattice threshold signatures, CRT secret sharing, Arnold scrambling

    A shallow embedding of the algorithmic core of the QSP repository
    (src/src/crypto_lattice, src/src/secret_sharing) and the properties
    its specification states about it.

    Conventions of the embedding
    - Python integers are [Z]; [//] and [%] are [Z.div] and [Z.modulo]
      (both floor, as in Python).
    - Python lists are [list]; an index that Python would reject raises
      [IndexError] in the model.
    - A Python function that may raise returns [res A]; [None] results are
      [option] values inside [Ok].
    - [hashlib.shake_256] and the random sources are inputs of the model. *)

From Stdlib Require Import ZArith QArith Qcanon Lia List Bool Znumtheory.
From Stdlib.Strings Require Import Byte.
From stdpp Require Import base tactics option list numbers sorting strings gmap.
From Equations Require Import Equations.
Import ListNotations.

Local Open Scope Z_scope.

(** ** Python results *)

Inductive exn : Type :=
  | ValueError
  | TypeError
  | IndexError
  | KeyError
  | OverflowError
  | EOFError
  | ZeroDivisionError
  | Exception.

Inductive res (A : Type) : Type :=
  | Ok (a : A)
  | Raise (e : exn).
Arguments Ok {A} a.
Arguments Raise {A} e.

#[global] Instance res_ret : MRet res := fun A a => Ok a.
#[global] Instance res_bind : MBind res := fun A B k m =>
  match m with
  | Ok a => k a
  | Raise e => Raise e
  end.

(** [lst[i]] for a non-negative index. *)
Definition getitem {A} (l : list A) (i : nat) : res A :=
  match l !! i with
  | Some x => Ok x
  | None => Raise IndexError
  end.

(** [for x in l: acc = f(acc, x)] where the body may raise. *)
Fixpoint rfold {A S} (f : S -> A -> res S) (l : list A) (s : S) : res S :=
  match l with
  | [] => Ok s
  | x :: l' => s' ← f s x; rfold f l' s'
  end.

(** [[f(x) for x in l]] where [f] may raise. *)
Fixpoint rmap {A B} (f : A -> res B) (l : list A) : res (list B) :=
  match l with
  | [] => Ok []
  | x :: l' => y ← f x; ys ← rmap f l'; Ok (y :: ys)
  end.

(** [functools.reduce(lambda x, y: x * y, l)] without initial value. *)
Definition reduce_mul (l : list Z) : res Z :=
  match l with
  | [] => Raise TypeError
  | x :: l' => Ok (fold_left Z.mul l' x)
  end.

Definition byte_val (b : byte) : Z := Z.of_N (Byte.to_N b).

(** ** src/src/config.py *)

Module Config.
Definition Q : Z := 8380417.
Definition N : nat := 256.
Definition K : nat := 2.
Definition L : nat := 2.
Definition ETA : Z := 2.
Definition BETA : Z := 250.
Definition GAMMA2 : Z := (Q - 1) / 8.
Definition GAMMA1 : Z := (Q - 1) / 2.
Definition TAU : Z := 39.
Definition MODULI : list Z := [257; 263; 269; 271; 277].
Definition T_THRESHOLD : nat := 3.
Definition N_PARTICIPANTS : nat := 5.
Definition LARGE_PRIME_Q : Z := 257.
End Config.

(** ** src/src/crypto_lattice/utils.py: LatticeUtils *)

Module LatticeUtils.

(** [center_mod(x, q)] on integers, for [q <> 0]: at [q = 0] the source
    raises [ZeroDivisionError] on [x % q]. *)
Definition center_mod (x q : Z) : Z :=
  let r := x mod q in
  if r >? q / 2 then r - q else r.

Definition decompose (r alpha q : Z) : Z * Z :=
  let r_centered := center_mod r q in
  let r0 := r_centered mod alpha in
  let r0 := if r0 >? alpha / 2 then r0 - alpha else r0 in
  let r1 := (r_centered - r0) / alpha in
  (r1, r0).

Definition high_bits (r alpha q : Z) : Z := fst (decompose r alpha q).
Definition low_bits (r alpha q : Z) : Z := snd (decompose r alpha q).

(** [[(c1 + c2) % q for c1, c2 in zip(p1, p2)]] *)
Definition poly_add (p1 p2 : list Z) (q : Z) : list Z :=
  zip_with (fun c1 c2 => (c1 + c2) mod q) p1 p2.

Definition poly_sub (p1 p2 : list Z) (q : Z) : list Z :=
  zip_with (fun c1 c2 => (c1 - c2) mod q) p1 p2.

(** [max([abs(c) for c in poly])]; [max] of an empty list raises
    [ValueError]. *)
Definition max_abs (poly : list Z) : res Z :=
  match poly with
  | [] => Raise ValueError
  | c :: cs => Ok (fold_left (fun m x => if Z.abs x >? m then Z.abs x else m)
                             cs (Z.abs c))
  end.

Definition vec_infinity_norm (vec : list (list Z)) : res Z :=
  rfold (fun max_norm poly =>
           poly_max ← max_abs poly;
           Ok (if poly_max >? max_norm then poly_max else max_norm))
        vec 0.

(** [power2round(r, d)]: [1 << d] raises [ValueError] for a negative
    [d]. *)
Definition power2round (r d : Z) : res (Z * Z) :=
  if d <? 0 then Raise ValueError
  else
    let q := Config.Q in
    let r := r mod q in
    let r0 := center_mod r (Z.shiftl 1 d) in
    let r1 := Z.shiftr (r - r0) d in
    Ok (r1 mod q, r0).

(** [infinity_norm(poly)]: [max([abs(c) for c in poly])]. *)
Definition infinity_norm (poly : list Z) : res Z := max_abs poly.

End LatticeUtils.


(** ** Python's [int.to_bytes] (little endian) *)

Definition byte_of_Z (v : Z) : byte :=
  match Byte.of_N (Z.to_N v) with
  | Some b => b
  | None => x00
  end.

Fixpoint le_bytes (len : nat) (x : Z) : list byte :=
  match len with
  | O => []
  | S len' => byte_of_Z (x mod 256) :: le_bytes len' (x / 256)
  end.

(** [int(x).to_bytes(len, 'little', signed=signed)]: [OverflowError] when
    [x] does not fit. *)
Definition to_bytes_le (len : nat) (signed : bool) (x : Z) : res (list byte) :=
  let bits := 8 * Z.of_nat len in
  if signed then
    if (- 2 ^ (bits - 1) <=? x) && (x <? 2 ^ (bits - 1))
    then Ok (le_bytes len (x mod 2 ^ bits))
    else Raise OverflowError
  else
    if (0 <=? x) && (x <? 2 ^ bits)
    then Ok (le_bytes len x)
    else Raise OverflowError.

(** ** src/src/crypto_lattice/ntt.py: schoolbook multiplication *)

(** One step of the double loop of [polymul_rq]: the pair [(i, j)]. *)
Definition polymul_step (poly_a poly_b : list Z) (i : nat)
    (result : list Z) (j : nat) : res (list Z) :=
  let n := Config.N in
  let q := Config.Q in
  a0 ← getitem poly_a i;
  b0 ← getitem poly_b j;
  let a := a0 mod q in
  let b := b0 mod q in
  let val := (a * b) mod q in
  if (i + j <? n)%nat then
    r ← getitem result (i + j);
    Ok (<[(i + j)%nat := (r + val) mod q]> result)
  else
    r ← getitem result (i + j - n);
    Ok (<[(i + j - n)%nat := (r - val) mod q]> result).

Definition polymul_rq (poly_a poly_b : list Z) : res (list Z) :=
  let n := Config.N in
  let q := Config.Q in
  result ← rfold (fun result i =>
                    rfold (polymul_step poly_a poly_b i) (seq 0 n) result)
                 (seq 0 n) (replicate n 0);
  Ok (map (fun x => (x + q) mod q) result).

(** [_matrix_vec_mul] of ThresholdSigner and SignatureAggregator (the two
    methods have the same body): rows are accumulated without reduction. *)
Definition _matrix_vec_mul (matrix : list (list (list Z)))
    (vec : list (list Z)) : res (list (list Z)) :=
  row0 ← getitem matrix 0;
  let l := length row0 in
  rmap (fun row =>
          rfold (fun row_sum j =>
                   mij ← getitem row j;
                   vj ← getitem vec j;
                   prod ← polymul_rq mij vj;
                   Ok (zip_with Z.add row_sum prod))
                (seq 0 l) (replicate Config.N 0))
       matrix.

(** ** src/src/crypto_lattice/signer.py *)

(** The loop of [_derive_challenge] / [derive_challenge] over the digest:
    [for i in range(len(digest)): if weight >= TAU: break ...]. *)
Fixpoint challenge_scan (digest : list byte) (c : list Z) (weight : Z)
    : list Z :=
  match digest with
  | [] => c
  | d :: rest =>
      if weight >=? Config.TAU then c
      else
        let b := byte_val d in
        let idx := Z.to_nat (b mod Z.of_nat Config.N) in
        match c !! idx with
        | Some 0 =>
            challenge_scan rest
              (<[idx := if Z.land b 1 =? 0 then -1 else 1]> c) (weight + 1)
        | _ => challenge_scan rest c weight
        end
  end.

(** The bytes that are hashed: message, the high bits (4 bytes each, little
    endian, signed) and the timestamp (8 bytes, little endian, unsigned). *)
Definition challenge_input (message : list byte) (W_HighBits : list (list Z))
    (timestamp : Z) : res (list byte) :=
  w_bytes ← rfold (fun acc poly =>
                     rfold (fun acc coeff =>
                              bs ← to_bytes_le 4 true coeff; Ok (acc ++ bs))
                           poly acc)
                  W_HighBits [];
  t_bytes ← to_bytes_le 8 false timestamp;
  Ok (message ++ w_bytes ++ t_bytes).

Section Signer.

(** [hashlib.shake_256(data).digest(n)] *)
Variable shake_256 : list byte -> nat -> list byte.

(** ThresholdSigner._derive_challenge *)
Definition _derive_challenge (message : list byte)
    (W_HighBits : list (list Z)) (timestamp : Z) : res (list Z) :=
  input_data ← challenge_input message W_HighBits timestamp;
  let digest := shake_256 input_data (Config.N / 2) in
  Ok (challenge_scan digest (replicate Config.N 0) 0).

(** SignatureAggregator.derive_challenge *)
Definition derive_challenge (message : list byte)
    (W_HighBits : list (list Z)) (timestamp : Z) : res (list Z) :=
  input_data ← challenge_input message W_HighBits timestamp;
  let digest := shake_256 input_data (Config.N / 2) in
  Ok (challenge_scan digest (replicate Config.N 0) 0).

(** A party's key share [{'rho', 's1', 's2'}]. *)
Record sk_share := {
  rho : list byte;
  s1 : list (list Z);
  s2 : list (list Z)
}.

(** The attributes of a ThresholdSigner. [A] is [expand_a(rho)], a draw of
    numpy's generator; [y] is [None] before phase 1. *)
Record ThresholdSigner := {
  sk : sk_share;
  index : nat;
  A : list (list (list Z));
  y : option (list (list Z));
  w_share : option (list (list Z));
  timestamp : option Z
}.

Definition center_poly (poly : list Z) : list Z :=
  map (fun c => LatticeUtils.center_mod c Config.Q) poly.

(** [phase1_commitment(timestamp)]. [now] is [int(time.time())] and
    [y_sample] the [L] polynomials drawn by [np.random.randint(-bound,
    bound + 1, N)]. A timestamp of [None] or [0] is replaced by [now]. *)
Definition phase1_commitment (self : ThresholdSigner) (ts : option Z)
    (now : Z) (y_sample : list (list Z))
    : res (ThresholdSigner * list (list Z)) :=
  let ts' := match ts with
             | Some t => if t =? 0 then now else t
             | None => now
             end in
  Ay ← _matrix_vec_mul (A self) y_sample;
  let centered_Ay := map center_poly Ay in
  Ok ({| sk := sk self; index := index self; A := A self;
         y := Some y_sample; w_share := Some centered_Ay;
         timestamp := Some ts' |}, centered_Ay).

Definition y_bound : Z := Z.shiftr Config.GAMMA1 3.

(** What [np.random.randint(-bound, bound + 1, N)] can return, [L] times. *)
Definition sampled_y (ys : list (list Z)) : Prop :=
  length ys = Config.L /\
  Forall (fun p => length p = Config.N /\
                   Forall (fun c => - y_bound <= c <= y_bound) p) ys.

Definition high_bits_vec (alpha : Z) (W : list (list Z)) : list (list Z) :=
  map (map (fun c => LatticeUtils.high_bits c alpha Config.Q)) W.

(** The low-bits loop of [phase2_response]. *)
Definition max_low_norm_of (alpha : Z) (R : list (list Z)) : res Z :=
  rfold (fun max_low_norm poly =>
           let centered := center_poly poly in
           let low := map (fun c => LatticeUtils.low_bits c alpha Config.Q)
                          centered in
           m ← LatticeUtils.max_abs low;
           Ok (if m >? max_low_norm then m else max_low_norm))
        R 0.

(** [phase2_response(global_Ay_sum, message_bytes)]: [Ok None] is a
    rejection, [Ok (Some z)] the response. *)
Definition phase2_response (self : ThresholdSigner)
    (global_Ay_sum : list (list Z)) (message_bytes : list byte)
    : res (option (list (list Z))) :=
  match y self with
  | None => Raise ValueError
  | Some ys =>
      let alpha := 2 * Config.GAMMA2 in
      let W_true := high_bits_vec alpha global_Ay_sum in
      ts ← match timestamp self with Some t => Ok t | None => Raise TypeError end;
      c_poly ← _derive_challenge message_bytes W_true ts;
      cs ← rmap (fun s_poly => polymul_rq c_poly s_poly) (s1 (sk self));
      z_share ← rmap (fun j =>
                        yj ← getitem ys j;
                        csj ← getitem cs j;
                        Ok (LatticeUtils.poly_add yj csj Config.Q))
                     (seq 0 Config.L);
      let centered_z_share := map center_poly z_share in
      max_norm ← LatticeUtils.vec_infinity_norm centered_z_share;
      let norm_bound := Config.GAMMA1 - Config.BETA in
      if max_norm >=? norm_bound then Ok None
      else
        Ay ← _matrix_vec_mul (A self) ys;
        Ce ← rmap (fun e_poly => polymul_rq c_poly e_poly) (s2 (sk self));
        let R := zip_with (fun p1 p2 => LatticeUtils.poly_sub p1 p2 Config.Q)
                          Ay Ce in
        max_low_norm ← max_low_norm_of alpha R;
        let low_bound := Config.GAMMA2 - Config.BETA in
        if max_low_norm >=? low_bound then Ok None
        else Ok (Some z_share)
  end.

(** The accumulation loop shared by [aggregate_w_shares] and
    [aggregate_responses]: [sum[k][i] += share[k][i]] for [k < K], [i < N]. *)
Definition accumulate (K N : nat) (shares : list (list (list Z)))
    : res (list (list Z)) :=
  rfold (fun acc share =>
           rmap (fun k =>
                   acc_k ← getitem acc k;
                   share_k ← getitem share k;
                   rmap (fun i =>
                           a ← getitem acc_k i;
                           s ← getitem share_k i;
                           Ok (a + s))
                        (seq 0 N))
                (seq 0 K))
        shares (replicate K (replicate N 0)).

(** SignatureAggregator.aggregate_w_shares *)
Definition aggregate_w_shares (w_shares : list (list (list Z)))
    : res (option (list (list Z))) :=
  match w_shares with
  | [] => Ok None
  | w0 :: _ =>
      let K := length w0 in
      w00 ← getitem w0 0;
      let N := length w00 in
      w_sum ← accumulate K N w_shares;
      Ok (Some (map center_poly w_sum))
  end.

(** SignatureAggregator.aggregate_responses *)
Definition aggregate_responses (z_shares : list (list (list Z)))
    : res (option (list (list Z))) :=
  match z_shares with
  | [] => Ok None
  | z0 :: _ =>
      let L := length z0 in
      z00 ← getitem z0 0;
      let N := length z00 in
      z_sum ← accumulate L N z_shares;
      Ok (Some z_sum)
  end.

(** The challenge check at the end of both branches of
    [verify_final_signature]; the debugging [print] reads [W_prime[0]] and
    [W_prime[1]]. *)
Definition hash_check (W_prime : list (list Z)) (C_poly : list Z)
    (message : list byte) (ts : Z) : res bool :=
  _ ← getitem W_prime 0;
  _ ← getitem W_prime 1;
  c_prime ← derive_challenge message W_prime ts;
  Ok (bool_decide (c_prime = C_poly)).

(** SignatureAggregator.verify_final_signature *)
Definition verify_final_signature (Z_agg : list (list Z)) (C_poly : list Z)
    (T_pub : list (list Z)) (A_matrix : list (list (list Z)))
    (message : list byte) (ts : Z) (W_sum : option (list (list Z)))
    : res bool :=
  let centered_Z := map center_poly Z_agg in
  norm ← LatticeUtils.vec_infinity_norm centered_Z;
  let bound := Config.GAMMA1 - Config.BETA in
  if norm >=? bound then Ok false
  else
    let alpha := 2 * Config.GAMMA2 in
    match W_sum with
    | Some W =>
        hash_check (high_bits_vec alpha W) C_poly message ts
    | None =>
        AZ ← _matrix_vec_mul A_matrix Z_agg;
        CT ← rmap (fun t_poly => polymul_rq C_poly t_poly) T_pub;
        let actual := zip_with (fun az_poly ct_poly =>
                                  zip_with (fun az ct => (az - ct) mod Config.Q)
                                           az_poly ct_poly)
                               AZ CT in
        let centered_actual := map center_poly actual in
        hash_check (high_bits_vec alpha centered_actual) C_poly message ts
    end.

End Signer.

(** ** src/tests/test_signature_verification.py: a signing session *)

(** [for i, key in enumerate(party_keys[:3]): ... signer.phase1_commitment(
    timestamp)]: every party runs phase 1 with the common timestamp;
    [samples] are the masks the parties draw. *)
Definition commit_all (signers : list ThresholdSigner)
    (samples : list (list (list Z))) (ts : option Z) (now : Z)
    : res (list (ThresholdSigner * list (list Z))) :=
  rmap (fun sy => phase1_commitment (fst sy) ts now (snd sy))
       (zip signers samples).

(** [for i, signer in enumerate(new_signers): response =
    signer.phase2_response(W_sum, message_bytes)]: every party answers the
    aggregated commitment. *)
Definition respond_all (shake_256 : list byte -> nat -> list byte)
    (committed : list (ThresholdSigner * list (list Z)))
    (W_sum : list (list Z)) (message : list byte)
    : res (list (option (list (list Z)))) :=
  rmap (fun sw => phase2_response shake_256 (fst sw) W_sum message) committed.

(** ** Python slices and numpy arrays *)

(** [l[:t]] *)
Definition slice_to {A} (l : list A) (t : Z) : list A :=
  if t <? 0 then take (Z.to_nat (Z.of_nat (length l) + t)) l
  else take (Z.to_nat t) l.

(** [l[s:]]; note that [l[-0:]] is [l[0:]], the whole list. *)
Definition slice_from {A} (l : list A) (s : Z) : list A :=
  if s <? 0 then drop (Z.to_nat (Z.of_nat (length l) + s)) l
  else drop (Z.to_nat s) l.

(** A three-dimensional array of integers: the shape [(h, w, c)] and the
    elements as rows of pixels of channel values. *)
Record ndarray3 := {
  nd_shape : nat * nat * nat;
  nd_rows : list (list (list Z))
}.

Definition well_shaped (img : ndarray3) : Prop :=
  let '(h, w, c) := nd_shape img in
  length (nd_rows img) = h /\
  Forall (fun row => length row = w /\ Forall (fun px => length px = c) row)
         (nd_rows img).

(** [img.flatten()] (C order). *)
Definition flatten (img : ndarray3) : list Z := concat (concat (nd_rows img)).

(** [n] consecutive pieces of length [k]. *)
Fixpoint chunk {A} (k n : nat) (l : list A) : list (list A) :=
  match n with
  | O => []
  | S n' => take k l :: chunk k n' (drop k l)
  end.

(** [flat.reshape(shape)]: [ValueError] when the sizes differ. *)
Definition reshape (flat : list Z) (shape : nat * nat * nat) : res ndarray3 :=
  let '(h, w, c) := shape in
  if (length flat =? h * w * c)%nat then
    Ok {| nd_shape := shape;
          nd_rows := map (chunk c w) (chunk (w * c) h flat) |}
  else Raise ValueError.

(** [acc += term] for one-dimensional arrays: equal lengths, or a term of
    length one that is broadcast; [ValueError] otherwise. *)
Definition np_iadd (acc term : list Z) : res (list Z) :=
  if (length term =? length acc)%nat then Ok (zip_with Z.add acc term)
  else match term with
       | [t0] => Ok (map (fun a => a + t0) acc)
       | _ => Raise ValueError
       end.

Definition astype_uint8 (v : Z) : Z := v mod 256.
Definition astype_uint16 (v : Z) : Z := v mod 65536.

(** ** src/src/secret_sharing/math_utils.py *)

Module MathUtils.

Equations? extended_gcd (a b : Z) : Z * Z * Z by wf (Z.abs_nat a) lt :=
  extended_gcd a b with Z.eq_dec a 0 => {
    | left _ => (b, 0, 1)
    | right _ =>
        let '(g, y, x) := extended_gcd (b mod a) a in
        (g, x - (b / a) * y, y)
  }.
Proof.
  destruct (Z_lt_ge_dec 0 a).
  - pose proof (Z.mod_pos_bound b a ltac:(lia)). lia.
  - pose proof (Z.mod_neg_bound b a ltac:(lia)). lia.
Qed.

Definition mod_inverse (a m : Z) : res Z :=
  let '(g, x, y) := extended_gcd a m in
  if g =? 1 then
    if m =? 0 then Raise ZeroDivisionError else Ok (x mod m)
  else Raise Exception.

(** [reduce(lambda x, y: x * y, numbers, 1)] *)
Definition get_product (numbers : list Z) : Z := fold_left Z.mul numbers 1.

(** [batch_crt_solve(shares, moduli, m0)]: [shares] are one-dimensional
    arrays. *)
Definition batch_crt_solve (shares : list (list Z)) (moduli : list Z)
    (m0 : Z) : res (list Z) :=
  let t := length moduli in
  let M_prime := get_product moduli in
  weights ← rmap (fun i =>
                    m_i ← getitem moduli i;
                    if m_i =? 0 then Raise ZeroDivisionError
                    else
                      let M_i := M_prime / m_i in
                      inv_i ← mod_inverse M_i m_i;
                      Ok (M_i * inv_i))
                 (seq 0 t);
  share0 ← getitem shares 0;
  sum_val ← rfold (fun sum_val i =>
                     share_i ← getitem shares i;
                     w_i ← getitem weights i;
                     np_iadd sum_val (map (fun a => a * w_i) share_i))
                  (seq 0 t) (map (fun _ => 0) share0);
  if (M_prime =? 0) || (m0 =? 0) then
    match sum_val with [] => Ok [] | _ => Raise ZeroDivisionError end
  else
    Ok (map (fun v => astype_uint8 ((v mod M_prime) mod m0)) sum_val).

End MathUtils.

(** ** src/src/secret_sharing/splitter.py *)

Module Splitter.

Record SharePayload := {
  sp_index : nat;
  sp_modulus : Z;
  sp_data : list Z;
  sp_shape : nat * nat * nat
}.

(** The dictionary that [SharePayload.to_bytes] pickles and that
    [pickle.loads] gives back: keys ['idx'], ['mod'], ['shape'], ['data']. *)
Record share_dict := {
  d_idx : nat;
  d_mod : Z;
  d_shape : nat * nat * nat;
  d_data : list Z
}.

Definition payload_dict (sp : SharePayload) : share_dict :=
  {| d_idx := sp_index sp; d_mod := sp_modulus sp;
     d_shape := sp_shape sp; d_data := sp_data sp |}.

Record ImageCRTSplitter := {
  n : Z;
  t : Z;
  moduli : list Z;
  reconstruction_capacity : Z
}.

(** The double loop of [_validate_moduli] on pairs [i < j]. *)
Fixpoint pairwise_coprime_check (l : list Z) : bool :=
  match l with
  | [] => true
  | m :: l' => forallb (fun m' => Z.gcd m m' =? 1) l'
               && pairwise_coprime_check l'
  end.

Definition _validate_moduli (n : Z) (moduli : list Z) : res unit :=
  if negb (Z.of_nat (length moduli) =? n) then Raise ValueError
  else if negb (pairwise_coprime_check moduli) then Raise ValueError
  else if existsb (fun m => m <=? 255) moduli then Raise ValueError
  else Ok tt.

(** [ImageCRTSplitter.__init__(n, t, moduli)] *)
Definition init (n t : Z) (moduli : list Z) : res ImageCRTSplitter :=
  let moduli := merge_sort Z.le moduli in
  _ ← _validate_moduli n moduli;
  cap ← reduce_mul (slice_to moduli t);
  Ok {| n := n; t := t; moduli := moduli; reconstruction_capacity := cap |}.

(** [split(image_array)] *)
Definition split (self : ImageCRTSplitter) (image_array : ndarray3)
    : list SharePayload :=
  let flat_pixels := flatten image_array in
  let shares_data :=
    map (fun m => map (fun p => astype_uint16 (p mod m)) flat_pixels)
        (moduli self) in
  imap (fun i data =>
          {| sp_index := i;
             sp_modulus := default 0 (moduli self !! i);
             sp_data := data;
             sp_shape := nd_shape image_array |})
       shares_data.

End Splitter.

(** ** src/src/secret_sharing/scrambler.py *)

Module Scrambler.

Record ArnoldScrambler := {
  a : Z;
  b : Z;
  iterations : Z
}.

(** A two-dimensional grid of pixels (each pixel is its channel values). *)
Abbreviation grid := (list (list (list Z))) (only parsing).

(** [img[y, x]] and [img[y, x] = v] for in-range indices. *)
Definition get2 (img : grid) (y x : nat) : list Z :=
  default [] (row ← img !! y; row !! x).

Definition set2 (img : grid) (y x : nat) (v : list Z) : grid :=
  alter (fun row => <[x := v]> row) y img.

(** [np.indices((n, n))] in C order, as pairs [(yy, xx)]. *)
Definition indices (n : nat) : list (nat * nat) :=
  y ← seq 0 n; x ← seq 0 n; [(y, x)].

(** [np.zeros((n, m, c))] *)
Definition zeros (n m c : nat) : grid := replicate n (replicate m (replicate c 0)).

(** [img_next[ynew, xnew] = img_curr[yy, xx]] with [(n, n)] index arrays on
    arrays of shape [(n, m, c)]: the assignments happen in C order, a later
    one overwriting an earlier one. *)
Definition scatter (n m c : nat) (target : nat * nat -> nat * nat)
    (img_curr : grid) : grid :=
  fold_left (fun img_next '(yy, xx) =>
               let '(ty, tx) := target (yy, xx) in
               set2 img_next ty tx (get2 img_curr yy xx))
            (indices n) (zeros n m c).

(** The index arrays of [np.indices] are int64 arrays and [a], [b] Python
    integers: every product and sum of a parameter and an index array is an
    int64 operation, whose result wraps around outside [[-2^63, 2^63)]. The
    parameters [a], [b], [a * b + 1] and [-a] are taken to fit int64. *)
Definition wrap64 (z : Z) : Z := (z + 2 ^ 63) mod 2 ^ 64 - 2 ^ 63.

(** [xx_new = (xx + b * yy) % n; yy_new = (a * xx + (a * b + 1) * yy) % n] *)
Definition forward_target (self : ArnoldScrambler) (n : nat)
    (p : nat * nat) : nat * nat :=
  let yy := Z.of_nat (fst p) in
  let xx := Z.of_nat (snd p) in
  let xx_new := wrap64 (xx + wrap64 (b self * yy)) mod Z.of_nat n in
  let yy_new :=
    wrap64 (wrap64 (a self * xx) + wrap64 ((a self * b self + 1) * yy))
    mod Z.of_nat n in
  (Z.to_nat yy_new, Z.to_nat xx_new).

(** [xx_old = ((a * b + 1) * xx - b * yy) % n; yy_old = (-a * xx + yy) % n] *)
Definition inverse_target (self : ArnoldScrambler) (n : nat)
    (p : nat * nat) : nat * nat :=
  let yy := Z.of_nat (fst p) in
  let xx := Z.of_nat (snd p) in
  let xx_old :=
    wrap64 (wrap64 ((a self * b self + 1) * xx) - wrap64 (b self * yy))
    mod Z.of_nat n in
  let yy_old := wrap64 (wrap64 (- a self * xx) + yy) mod Z.of_nat n in
  (Z.to_nat yy_old, Z.to_nat xx_old).

(** [padded_img = zeros((n, n, c)); padded_img[:h, :w, :] = image_array] *)
Definition pad (n c : nat) (rows : grid) : grid :=
  map (fun row => row ++ replicate (n - length row) (replicate c 0)) rows
  ++ replicate (n - length rows) (replicate n (replicate c 0)).

(** [img[:h, :w, :]] *)
Definition crop (h w : nat) (rows : grid) : grid := map (take w) (take h rows).

(** [scramble(image_array)]: the scrambled square image and [(h, w)]. *)
Definition scramble (self : ArnoldScrambler) (image_array : ndarray3)
    : ndarray3 * (nat * nat) :=
  let '(h, w, c) := nd_shape image_array in
  let n := Nat.max h w in
  let padded_img := pad n c (nd_rows image_array) in
  let img_curr :=
    Nat.iter (Z.to_nat (iterations self))
             (scatter n n c (forward_target self n)) padded_img in
  ({| nd_shape := (n, n, c); nd_rows := img_curr |}, (h, w)).

(** [unscramble(image_array, original_shape)]. The index arrays range over
    [(n, n)] with [n] the first dimension: on an array with fewer than [n]
    columns numpy raises [IndexError]. *)
Definition unscramble (self : ArnoldScrambler) (image_array : ndarray3)
    (original_shape : option (nat * nat)) : res ndarray3 :=
  let '(n, m, c) := nd_shape image_array in
  if (0 <? Z.to_nat (iterations self))%nat && (0 <? n)%nat && (m <? n)%nat
  then Raise IndexError
  else
    let img_curr :=
      Nat.iter (Z.to_nat (iterations self))
               (scatter n m c (inverse_target self n)) (nd_rows image_array) in
    match original_shape with
    | Some (h, w) =>
        Ok {| nd_shape := (Nat.min h n, Nat.min w m, c);
              nd_rows := crop h w img_curr |}
    | None => Ok {| nd_shape := (n, m, c); nd_rows := img_curr |}
    end.

End Scrambler.

(** ** src/src/secret_sharing/reconstructor.py *)

Module Reconstructor.

(** [_egcd] and [_modinv] repeat [extended_gcd] and [mod_inverse] of
    math_utils.py line by line. *)
Definition _egcd (a b : Z) : Z * Z * Z := MathUtils.extended_gcd a b.

Definition _modinv (a m : Z) : res Z :=
  let '(g, x, y) := _egcd a m in
  if g =? 1 then
    if m =? 0 then Raise ZeroDivisionError else Ok (x mod m)
  else Raise Exception.

Section Deserialize.

(** [pickle.loads]: a value or an exception. *)
Variable pickle_loads : list byte -> res Splitter.share_dict.

(** [deserialize_share(share_bytes)]: [try: return pickle.loads(...)
    except: return None]. *)
Definition deserialize_share (share_bytes : list byte)
    : res (option Splitter.share_dict) :=
  match pickle_loads share_bytes with
  | Ok v => Ok (Some v)
  | Raise _ => Ok None
  end.

End Deserialize.

(** [reconstruct(valid_shares)]: [Ok None] for an empty list. *)
Definition reconstruct (valid_shares : list Splitter.share_dict)
    : res (option ndarray3) :=
  match valid_shares with
  | [] => Ok None
  | share0 :: _ =>
      let moduli := map Splitter.d_mod valid_shares in
      M ← reduce_mul moduli;
      let shape := Splitter.d_shape share0 in
      let pixel_count := let '(h, w, c) := shape in (h * w * c)%nat in
      acc ← rfold (fun acc share =>
                     let mi := Splitter.d_mod share in
                     let data := Splitter.d_data share in
                     if mi =? 0 then Raise ZeroDivisionError
                     else
                       let Mi := M / mi in
                       yi ← _modinv Mi mi;
                       np_iadd acc (map (fun ai => ai * Mi * yi) data))
                  valid_shares (replicate pixel_count 0);
      let result_flat := map (fun v => astype_uint8 (v mod M)) acc in
      img ← reshape result_flat shape;
      Ok (Some img)
  end.

(** A share file written by [split_image]: the dictionary stored with
    [np.save]. *)
Record share_packet := {
  p_index : nat;
  p_modulus : Z;
  p_data : list Z;
  p_shape : nat * nat * nat;
  p_original_shape : nat * nat;
  p_signature : option (list byte)
}.

Section ReconstructImage.

(** [np.load(path, allow_pickle=True).item()] *)
Variable path : Type.
Variable np_load : path -> res share_packet.

(** The loading loop of [reconstruct_image]: a file that cannot be loaded
    is skipped, a shape that differs from the first one is an error, and
    the signature of the first share that carries one is kept. *)
Definition load_shares (share_paths : list path)
    : res (list share_packet * option (nat * nat * nat) * option (list byte)) :=
  rfold (fun '(loaded_shares, original_shape, extracted_sig) p =>
           match np_load p with
           | Raise _ => Ok (loaded_shares, original_shape, extracted_sig)
           | Ok packet =>
               original_shape ←
                 match original_shape with
                 | None => Ok (Some (p_shape packet))
                 | Some sh =>
                     if bool_decide (sh = p_shape packet)
                     then Ok original_shape
                     else Raise ValueError
                 end;
               let extracted_sig :=
                 match extracted_sig with
                 | None => p_signature packet
                 | Some _ => extracted_sig
                 end in
               Ok (loaded_shares ++ [packet], original_shape, extracted_sig)
           end)
        share_paths ([], None, None).

(** [reconstruct_image(share_paths)]: the recovered array (before
    [Image.fromarray]) and the signature of the first loaded share. *)
Definition reconstruct_image (share_paths : list path)
    : res (ndarray3 * option (list byte)) :=
  let t := Config.T_THRESHOLD in
  if (length share_paths <? t)%nat then Raise ValueError
  else
    '(loaded_shares, original_shape, extracted_sig) ← load_shares share_paths;
    let selected_shares := take t loaded_shares in
    _ ← match original_shape with Some _ => Ok tt | None => Raise TypeError end;
    let active_moduli := map p_modulus selected_shares in
    M ← reduce_mul active_moduli;
    weights ← rmap (fun m_i =>
                      if m_i =? 0 then Raise ZeroDivisionError
                      else
                        let M_i := M / m_i in
                        inv ← _modinv M_i m_i;
                        Ok (M_i * inv))
                   active_moduli;
    let ys := map p_data selected_shares in
    ys0 ← getitem ys 0;
    Y ← rmap (fun i =>
                values ← rmap (fun y => getitem y i) ys;
                let weighted_sum :=
                  fold_left Z.add (zip_with Z.mul values weights) 0 in
                Ok (weighted_sum mod M))
             (seq 0 (length ys0));
    let q := Config.LARGE_PRIME_Q in
    let S_reconstructed := map (fun v => astype_uint8 (v mod q)) Y in
    first ← getitem loaded_shares 0;
    S_reshaped ← reshape S_reconstructed (p_shape first);
    let scrambler := {| Scrambler.a := 1; Scrambler.b := 1;
                        Scrambler.iterations := 10 |} in
    unscrambled ← Scrambler.unscramble scrambler S_reshaped
                    (Some (p_original_shape first));
    let '(h_orig, w_orig) := p_original_shape first in
    let cropped := Scrambler.crop h_orig w_orig (nd_rows unscrambled) in
    let '(h', w', c') := nd_shape unscrambled in
    Ok ({| nd_shape := (Nat.min h_orig h', Nat.min w_orig w', c');
           nd_rows := cropped |}, extracted_sig).

End ReconstructImage.

End Reconstructor.

(** ** src/src/secret_sharing/moduli_gen.py *)

Module ModuliGen.

(** [while b: a, b = b, a % b] *)
Equations? gcd (a b : Z) : Z by wf (Z.abs_nat b) lt :=
  gcd a b with Z.eq_dec b 0 => {
    | left _ => a
    | right _ => gcd b (a mod b)
  }.
Proof.
  destruct (Z_lt_ge_dec 0 b).
  - pose proof (Z.mod_pos_bound a b ltac:(lia)). lia.
  - pose proof (Z.mod_neg_bound a b ltac:(lia)). lia.
Qed.

Definition is_coprime (num : Z) (existing_list : list Z) : bool :=
  forallb (fun x => gcd num x =? 1) existing_list.

(** The inner loop of [generate_secure_moduli]:
    [while len(moduli) < n: ...; if candidate - current_start > 2000: break].
    The loop leaves after at most 2001 rounds; [rounds] counts them down. *)
Fixpoint greedy (rounds : nat) (n : Z) (current_start candidate : Z)
    (moduli : list Z) : list Z :=
  match rounds with
  | O => moduli
  | S rounds' =>
      if Z.of_nat (length moduli) <? n then
        let moduli := if is_coprime candidate moduli
                      then moduli ++ [candidate] else moduli in
        let candidate := candidate + 1 in
        if candidate - current_start >? 2000 then moduli
        else greedy rounds' n current_start candidate moduli
      else moduli
  end.

(** One round of the outer [while True]: [inl start'] to go round again
    from a new search floor, [inr r] to leave with a result or an
    exception. *)
Definition outer_round (n t q_pixel current_start : Z)
    : Z + res (list Z) :=
  let moduli := greedy 2001 n current_start current_start [] in
  if Z.of_nat (length moduli) <? n then inl (current_start + 10)
  else
    let moduli := merge_sort Z.le moduli in
    match reduce_mul (slice_to moduli t) with
    | Raise e => inr (Raise e)
    | Ok min_prod_t =>
        match reduce_mul (slice_from moduli (- (t - 1))) with
        | Raise e => inr (Raise e)
        | Ok max_prod_t_minus_1 =>
            let security_bound := q_pixel * max_prod_t_minus_1 in
            if min_prod_t >? security_bound then inr (Ok moduli)
            else inl (current_start + 13)
        end
    end.

(** The outer loop run for at most [fuel] rounds: [None] when it has not
    left by then. *)
Fixpoint outer_loop (fuel : nat) (n t q_pixel current_start : Z)
    : option (res (list Z)) :=
  match fuel with
  | O => None
  | S fuel' =>
      match outer_round n t q_pixel current_start with
      | inr r => Some r
      | inl start' => outer_loop fuel' n t q_pixel start'
      end
  end.

(** [generate_secure_moduli(n, t, q_pixel=255)] *)
Definition generate_secure_moduli (fuel : nat) (n t : Z)
    : option (res (list Z)) :=
  outer_loop fuel n t 255 257.

End ModuliGen.

(** ** src/src/crypto_lattice/signer.py: LatticeSigner.verify *)

Module LatticeSigner.

(** The values found in a signature or key dictionary. *)
Inductive pyval : Type :=
  | PyMatrix (m : list (list Z))
  | PyStr (s : string).

Definition dict := gmap string pyval.

(** [d[key]] *)
Definition dict_get (d : gmap string pyval) (key : string) : res pyval :=
  match d !! key with
  | Some v => Ok v
  | None => Raise KeyError
  end.

(** [np.array(v)] read as a list of polynomials: iterating over an array
    made from a string raises [TypeError]. *)
Definition as_matrix (v : pyval) : res (list (list Z)) :=
  match v with
  | PyMatrix m => Ok m
  | PyStr _ => Raise TypeError
  end.

Section Verify.

(** [hashlib.sha256(data).digest().hex()] *)
Variable sha256_hex : list byte -> string.
(** [json.dumps([p.tolist() for p in w]).encode()] *)
Variable json_dumps : list (list Z) -> list byte.
(** Check 2 of [verify] (lines 451 to 483): the matrix from the public
    seed, the challenge polynomial from the hash, [Az - ct] and its distance
    to [w * alpha], all with numpy; it returns the verdict or raises. *)
Variable lattice_check :
  gmap string pyval -> list (list Z) -> list (list Z) -> list byte -> res bool.

(** The body of the [try] block of [verify]. *)
Definition verify_try (pk : gmap string pyval) (message_bytes : list byte)
    (signature : gmap string pyval) : res bool :=
  z_val ← dict_get signature "z";
  w_val ← dict_get signature "w";
  c_hash_hex ← dict_get signature "c_hash";
  w ← as_matrix w_val;
  let w_json := json_dumps w in
  let recomputed_hash := sha256_hex (message_bytes ++ w_json) in
  let same_hash := match c_hash_hex with
                   | PyStr h => bool_decide (recomputed_hash = h)
                   | PyMatrix _ => false
                   end in
  if negb same_hash then Ok false
  else
    z ← as_matrix z_val;
    lattice_check pk z w (message_bytes ++ w_json).

(** [verify(pk, message_bytes, signature)]: [except Exception as e:
    print(...); return False]. *)
Definition verify (pk : gmap string pyval) (message_bytes : list byte)
    (signature : gmap string pyval) : res bool :=
  match verify_try pk message_bytes signature with
  | Ok b => Ok b
  | Raise _ => Ok false
  end.

End Verify.

End LatticeSigner.

(** ** src/src/image_stego/utils.py *)

Module ShareSerializer.

Section Serializer.

(** The share dictionaries and the two libraries: [pickle.dumps],
    [pickle.loads], [zlib.compress(_, level=9)] and [zlib.decompress]. *)
Variable share : Type.
Variable pickle_dumps : share -> res (list byte).
Variable pickle_loads : list byte -> res share.
Variable zlib_compress : list byte -> res (list byte).
Variable zlib_decompress : list byte -> res (list byte).

(** [serialize(share_dict)]: a failure of [pickle.dumps] is raised again as
    [ValueError]; [zlib.compress] is called after the [try] block, so what
    it raises is passed on as it is. *)
Definition serialize (share_dict : share) : res (list byte) :=
  match pickle_dumps share_dict with
  | Raise _ => Raise ValueError
  | Ok raw_bytes => zlib_compress raw_bytes
  end.

(** [deserialize(compressed_bytes)]: any failure inside the [try] block is
    raised again as [ValueError]. *)
Definition deserialize (compressed_bytes : list byte) : res share :=
  match (raw_bytes ← zlib_decompress compressed_bytes;
         pickle_loads raw_bytes) with
  | Ok share_dict => Ok share_dict
  | Raise _ => Raise ValueError
  end.

End Serializer.

End ShareSerializer.

Module ZigZagUtils.

(** The table of [_generate_zigzag_map] for blocks of size 8. *)
Definition zigzag_order : list (nat * nat) :=
  [(0, 0); (0, 1); (1, 0); (2, 0); (1, 1); (0, 2); (0, 3); (1, 2);
   (2, 1); (3, 0); (4, 0); (3, 1); (2, 2); (1, 3); (0, 4); (0, 5);
   (1, 4); (2, 3); (3, 2); (4, 1); (5, 0); (6, 0); (5, 1); (4, 2);
   (3, 3); (2, 4); (1, 5); (0, 6); (0, 7); (1, 6); (2, 5); (3, 4);
   (4, 3); (5, 2); (6, 1); (7, 0); (7, 1); (6, 2); (5, 3); (4, 4);
   (3, 5); (2, 6); (1, 7); (2, 7); (3, 6); (4, 5); (5, 4); (6, 3);
   (7, 2); (7, 3); (6, 4); (5, 5); (4, 6); (3, 7); (4, 7); (5, 6);
   (6, 5); (7, 4); (7, 5); (6, 6); (5, 7); (6, 7); (7, 6); (7, 7)]%nat.

(** [for y in range(bs): for x in range(bs): lines[y + x].append((y, x))]
    on [2 * bs - 1] empty lines; [y + x] is always a valid index. *)
Definition diagonals (block_size : nat) : list (list (nat * nat)) :=
  fold_left (fun lines yx => alter (fun line => line ++ [yx])
                                   (fst yx + snd yx)%nat lines)
            (y ← seq 0 block_size; x ← seq 0 block_size; [(y, x)])
            (replicate (2 * block_size - 1) []).

(** [_generate_zigzag_map()]: the table for [block_size == 8], else the
    diagonals, the even ones reversed. *)
Definition _generate_zigzag_map (block_size : nat) : list (nat * nat) :=
  if (block_size =? 8)%nat then zigzag_order
  else
    concat (imap (fun i line => if Nat.even i then reverse line else line)
                 (diagonals block_size)).

(** [get_coordinates(index)] *)
Definition get_coordinates (block_size : nat) (index : Z) : res (nat * nat) :=
  let zigzag_map := _generate_zigzag_map block_size in
  if (0 <=? index) && (index <? Z.of_nat (length zigzag_map)) then
    getitem zigzag_map (Z.to_nat index)
  else Raise ValueError.

End ZigZagUtils.

Module BitStreamUtils.

(** [bytes_to_bits(data_bytes)]: the bits of every byte, highest first. *)
Definition bytes_to_bits (data_bytes : list byte) : list Z :=
  b ← data_bytes;
  map (fun i => Z.land (Z.shiftr (byte_val b) i) 1) [7; 6; 5; 4; 3; 2; 1; 0].

(** [range(0, n, 8)] *)
Definition range8 (n : nat) : list nat :=
  map (fun k => (8 * k)%nat) (seq 0 ((n + 7) / 8)).

(** The loop of [bits_to_bytes] over the chunk starts: a chunk shorter than
    8 ends the loop, and [bytearray.append] raises [ValueError] for a value
    outside [range(256)]. *)
Fixpoint bits_to_bytes_loop (starts : list nat) (bits : list Z)
    (byte_array : list byte) : res (list byte) :=
  match starts with
  | [] => Ok byte_array
  | i :: starts' =>
      let byte_chunk := take 8 (drop i bits) in
      if (length byte_chunk <? 8)%nat then Ok byte_array
      else
        let val := fold_left (fun val bit => Z.lor (Z.shiftl val 1) bit)
                             byte_chunk 0 in
        if (0 <=? val) && (val <? 256)
        then bits_to_bytes_loop starts' bits (byte_array ++ [byte_of_Z val])
        else Raise ValueError
  end.

(** [bits_to_bytes(bits)] *)
Definition bits_to_bytes (bits : list Z) : res (list byte) :=
  bits_to_bytes_loop (range8 (length bits)) bits [].

(** [int_to_bytes(number, size=4)]: [number.to_bytes(size, byteorder='big')]. *)
Definition int_to_bytes (number : Z) (size : nat) : res (list byte) :=
  bs ← to_bytes_le size false number; Ok (reverse bs).

(** [bytes_to_int(byte_data)]: [int.from_bytes(byte_data, byteorder='big')]. *)
Definition bytes_to_int (byte_data : list byte) : Z :=
  fold_left (fun acc b => acc * 256 + byte_val b) byte_data 0.

End BitStreamUtils.

(** ** src/src/image_stego/dct_embed.py *)

Module DCTEmbedder.

(** [_preprocess_carrier(image)] on the flattened pixels:
    [img_safe[img_safe == 0] = 1; img_safe[img_safe == 255] = 254]. *)
Definition _preprocess_carrier (image : list Z) : list Z :=
  let img_safe := map (fun p => if p =? 0 then 1 else p) image in
  map (fun p => if p =? 255 then 254 else p) img_safe.

(** [self.k = getattr(self.config, 'EMBEDDING_STRENGTH', 25)]: [Config]
    defines no attribute of that name (it has [EMBEDDING_STRENGTH_K], which
    is not read), so the strength is the default, 25. *)
Definition k : Qc := Q2Qc (inject_Z 25).

(** The coefficient that [_embed_bit_in_block] writes at the target
    position. The block holds float32 values: a finite one is a rational, and
    [25] and [-25] are float32 values themselves, so the comparisons and the
    store into the block are exact. *)
Definition modified_coeff (coeff : Qc) (bit : Z) : Qc :=
  if bit =? 1 then
    if decide (coeff <= 0)%Qc then k
    else if decide (coeff < k)%Qc then k
    else coeff
  else if bit =? 0 then
    if decide (0 <= coeff)%Qc then (- k)%Qc
    else if decide (- k < coeff)%Qc then (- k)%Qc
    else coeff
  else coeff.

(** [_embed_bit_in_block(dct_block, bit)]: [dct_block[u, v]] is read and
    written; [IndexError] outside the block. *)
Definition _embed_bit_in_block (target_uv : nat * nat)
    (dct_block : list (list Qc)) (bit : Z) : res (list (list Qc)) :=
  let '(u, v) := target_uv in
  row ← getitem dct_block u;
  coeff ← getitem row v;
  Ok (<[u := <[v := modified_coeff coeff bit]> row]> dct_block).

End DCTEmbedder.

(** * Properties *)

Arguments Config.N : simpl never.
Arguments Config.Q : simpl never.

(** Unfold one monadic bind of [res]. *)
Ltac rsimpl := cbn [mbind res_bind mret res_ret].
Tactic Notation "rsimpl" "in" hyp(H) := cbn [mbind res_bind mret res_ret] in H.

Lemma Ok_inj {A} (x y : A) : Ok x = Ok y -> x = y.
Proof. congruence. Qed.

(** ** Loops that cannot raise *)

Lemma rmap_ok {A B} (f : A -> res B) (g : A -> B) (l : list A) :
  (forall x, x ∈ l -> f x = Ok (g x)) -> rmap f l = Ok (map g l).
Proof.
  induction l as [|x l IH]; intros Hf; simpl; [done|].
  rewrite (Hf x) by left. simpl.
  rewrite IH by (intros; apply Hf; by right). done.
Qed.

Lemma rfold_ok {A S} (P : S -> Prop) (f : S -> A -> res S)
    (g : S -> A -> S) (l : list A) (s : S) :
  P s ->
  (forall s x, P s -> x ∈ l -> f s x = Ok (g s x) /\ P (g s x)) ->
  rfold f l s = Ok (fold_left g l s) /\ P (fold_left g l s).
Proof.
  revert s. induction l as [|x l IH]; intros s Hs Hf; simpl; [done|].
  destruct (Hf s x Hs) as [-> Hs']; [by left|]. simpl.
  apply IH; [done|]. intros s0 x0 ? ?. apply Hf; [done|by right].
Qed.

Lemma getitem_lookup {A} (l : list A) (i : nat) (x : A) :
  l !! i = Some x -> getitem l i = Ok x.
Proof. unfold getitem. by intros ->. Qed.

Lemma rmap_fmap {A B C} (f : B -> res C) (g : A -> B) (l : list A) :
  rmap f (map g l) = rmap (fun x => f (g x)) l.
Proof.
  induction l as [|x l IH]; simpl; [done|]. by rewrite IH.
Qed.

Lemma rmap_ext {A B} (f g : A -> res B) (l : list A) :
  (forall x, x ∈ l -> f x = g x) -> rmap f l = rmap g l.
Proof.
  induction l as [|x l IH]; intros Hfg; simpl; [done|].
  rewrite (Hfg x) by left. rewrite IH; [done|].
  intros; apply Hfg; by right.
Qed.

(** [[f(la[i], lb[i]) for i in range(n)]] on two lists of length [n]. *)
Lemma rmap_seq_zip_with {A B C} (f : A -> B -> res C) (g : A -> B -> C)
    (la : list A) (lb : list B) (n : nat) :
  length la = n -> length lb = n ->
  (forall i a b, la !! i = Some a -> lb !! i = Some b -> f a b = Ok (g a b)) ->
  rmap (fun i => a ← getitem la i; b ← getitem lb i; f a b) (seq 0 n)
  = Ok (zip_with g la lb).
Proof.
  revert lb n. induction la as [|x la IH]; intros [|y lb] n Ha Hb Hf;
    simpl in *; subst; try done.
  simpl. rewrite (Hf 0%nat x y) by done. rsimpl.
  rewrite <- seq_shift, rmap_fmap.
  rewrite (rmap_ext _ (fun i => a ← getitem la i; b ← getitem lb i; f a b))
    by done.
  rewrite (IH lb (length la)); [done|done|lia|].
  intros i a b Hi1 Hi2. by apply (Hf (S i)).
Qed.

(** ** The challenge polynomial *)

Lemma byte_val_range (d : byte) : 0 <= byte_val d < 256.
Proof.
  unfold byte_val. pose proof (Byte.to_N_bounded d). lia.
Qed.

Lemma land_1_even (b : Z) : (Z.land b 1 =? 0) = Z.even b.
Proof.
  change 1 with (Z.ones 1). rewrite Z.land_ones by lia.
  change (2 ^ 1) with 2. rewrite Zmod_even. by destruct (Z.even b).
Qed.

(** The sign that [challenge_scan] writes at an index is fixed by the
    parity of the index. *)
Definition sign_by_parity (c : list Z) : Prop :=
  forall (i : nat) (v : Z),
    c !! i = Some v -> v <> 0 -> v = if Z.even (Z.of_nat i) then -1 else 1.

Lemma challenge_scan_sign (digest : list byte) :
  forall (c : list Z) (weight : Z),
    sign_by_parity c -> sign_by_parity (challenge_scan digest c weight).
Proof.
  induction digest as [|d rest IH]; intros c weight Hc; simpl; [done|].
  destruct (weight >=? Config.TAU); [done|].
  pose proof (byte_val_range d) as Hd.
  change (Z.of_nat Config.N) with 256.
  rewrite Z.mod_small by lia.
  destruct (c !! Z.to_nat (byte_val d)) as [[| |]|] eqn:Hlk; try by apply IH.
  apply IH. intros i v Hi Hv.
  destruct (decide (i = Z.to_nat (byte_val d))) as [->|Hne].
  - rewrite list_lookup_insert_eq in Hi by (by eapply lookup_lt_Some).
    injection Hi as <-. rewrite Z2Nat.id by lia. by rewrite land_1_even.
  - rewrite list_lookup_insert_ne in Hi by done. by apply Hc.
Qed.

Lemma sign_by_parity_zeros (n : nat) : sign_by_parity (replicate n 0).
Proof.
  intros i v Hi Hv. apply lookup_replicate in Hi as [-> _]. done.
Qed.

Section ChallengeFacts.

Variable shake_256 : list byte -> nat -> list byte.

Lemma derive_challenge_same (message : list byte) (W : list (list Z))
    (ts : Z) :
  _derive_challenge shake_256 message W ts
  = derive_challenge shake_256 message W ts.
Proof. reflexivity. Qed.

(** C10. In the challenge returned by [_derive_challenge] and by
    [derive_challenge], for every message, high-bits vector and timestamp,
    a nonzero coefficient at an even index is -1 and one at an odd index
    is +1: the index is the digest byte and the sign its lowest bit. *)
Theorem challenge_sign_follows_index_parity (message : list byte)
    (W_HighBits : list (list Z)) (ts : Z) (c : list Z) (i : nat) (v : Z) :
  _derive_challenge shake_256 message W_HighBits ts = Ok c \/
  derive_challenge shake_256 message W_HighBits ts = Ok c ->
  c !! i = Some v ->
  v <> 0 ->
  v = if Z.even (Z.of_nat i) then -1 else 1.
Proof.
  intros Hc. rewrite derive_challenge_same in Hc.
  assert (derive_challenge shake_256 message W_HighBits ts = Ok c) as Hd
    by (by destruct Hc).
  unfold derive_challenge in Hd.
  destruct (challenge_input message W_HighBits ts) as [input|e]; [|done].
  rsimpl in Hd. apply Ok_inj in Hd. rewrite <- Hd.
  apply challenge_scan_sign, sign_by_parity_zeros.
Qed.

End ChallengeFacts.

(** A digest function to run the derivation on: the bytes 3, 4, 3, 4, ... *)
Definition sample_digest (data : list byte) (n : nat) : list byte :=
  concat (replicate (n / 2) [x03; x04]).

Lemma challenge_sign_follows_index_parity_witness :
  exists c : list Z,
    derive_challenge sample_digest [x68; x69] [[1; -1]; [0; 2]] 1700000000
    = Ok c /\
    c !! 3%nat = Some 1 /\ c !! 4%nat = Some (-1) /\
    1 = (if Z.even (Z.of_nat 3) then -1 else 1).
Proof.
  eexists. split; [vm_compute; reflexivity|].
  split; [reflexivity|]. split; [reflexivity|].
  eapply (challenge_sign_follows_index_parity sample_digest
            [x68; x69] [[1; -1]; [0; 2]] 1700000000 _ 3 1).
  - right. vm_compute. reflexivity.
  - reflexivity.
  - lia.
Defined.

(** ** Aggregation *)

(** Coefficient-wise sum of vectors of polynomials. *)
Definition vec_add (u v : list (list Z)) : list (list Z) :=
  zip_with (zip_with Z.add) u v.

Definition vec_shape (K N : nat) (v : list (list Z)) : Prop :=
  length v = K /\ Forall (fun p => length p = N) v.

Lemma vec_shape_zeros (K N : nat) : vec_shape K N (replicate K (replicate N 0)).
Proof.
  split; [by rewrite length_replicate|].
  apply Forall_replicate. by rewrite length_replicate.
Qed.

Lemma vec_shape_add (K N : nat) (u v : list (list Z)) :
  vec_shape K N u -> vec_shape K N v -> vec_shape K N (vec_add u v).
Proof.
  intros [Hu1 Hu2] [Hv1 Hv2]. split.
  - unfold vec_add. rewrite length_zip_with. lia.
  - apply Forall_forall. intros p Hp.
    apply elem_of_lookup_zip_with in Hp as (i & pu & pv & -> & Hpu & Hpv).
    rewrite length_zip_with.
    rewrite Forall_forall in Hu2, Hv2.
    rewrite (Hu2 pu), (Hv2 pv); [lia| |]; by eapply list_elem_of_lookup_2.
Qed.

Lemma accumulate_ok (K N : nat) (shares : list (list (list Z))) :
  Forall (vec_shape K N) shares ->
  accumulate K N shares
  = Ok (fold_left vec_add shares (replicate K (replicate N 0)))
  /\ vec_shape K N (fold_left vec_add shares (replicate K (replicate N 0))).
Proof.
  intros Hsh. unfold accumulate.
  apply (rfold_ok (vec_shape K N)); [apply vec_shape_zeros|].
  intros acc share [Ha1 Ha2] Hin.
  rewrite Forall_forall in Hsh. destruct (Hsh share Hin) as [Hs1 Hs2].
  split; [|by apply vec_shape_add].
  apply rmap_seq_zip_with; [done|done|].
  intros k acc_k share_k Hak Hsk.
  apply (rmap_seq_zip_with (fun a s => Ok (a + s))).
  - rewrite Forall_forall in Ha2. apply Ha2. by eapply list_elem_of_lookup_2.
  - rewrite Forall_forall in Hs2. apply Hs2. by eapply list_elem_of_lookup_2.
  - done.
Qed.

(** C5 (as amended). [aggregate_responses] has no threshold: it returns
    [None] for an empty collection only, and for any other collection of
    responses of one shape, however few, the coefficient-wise sum. *)
Theorem aggregate_responses_sums_any_number (L N : nat)
    (z_shares : list (list (list Z))) :
  (0 < L)%nat ->
  Forall (vec_shape L N) z_shares ->
  aggregate_responses z_shares
  = Ok (match z_shares with
        | [] => None
        | _ => Some (fold_left vec_add z_shares (replicate L (replicate N 0)))
        end).
Proof.
  intros HL Hsh. destruct z_shares as [|z0 rest]; [done|].
  unfold aggregate_responses.
  pose proof (Forall_inv Hsh) as [Hz0 Hz0'].
  destruct z0 as [|z00 z0']; [simpl in Hz0; lia|].
  rewrite (getitem_lookup _ 0 z00) by done. rsimpl.
  pose proof (Forall_inv Hz0') as Hz00. simpl in Hz00.
  rewrite Hz0, Hz00.
  destruct (accumulate_ok L N ((z00 :: z0') :: rest) Hsh) as [-> _].
  done.
Qed.

Lemma aggregate_responses_sums_any_number_witness :
  aggregate_responses [[[1; 2]; [3; 4]]; [[10; 20]; [30; 40]]]
  = Ok (Some [[11; 22]; [33; 44]]).
Proof.
  apply (aggregate_responses_sums_any_number 2 2
           [[[1; 2]; [3; 4]]; [[10; 20]; [30; 40]]]); [lia|].
  repeat constructor.
Defined.

(** C5, the claim as stated fails: one response, with a threshold of 3,
    is aggregated into a value without any failure. *)
Lemma aggregate_responses_below_threshold :
  (1 < Config.T_THRESHOLD)%nat /\
  aggregate_responses [replicate 2 (replicate 256 5)]
  = Ok (Some (replicate 2 (replicate 256 5))).
Proof. split; [unfold Config.T_THRESHOLD; lia|]. vm_compute. reflexivity. Qed.

(** ** Exceptions caught inside the core *)

(** C9 (as amended). [LatticeSigner.verify] and [deserialize_share] catch
    every exception of their body: [verify] never raises and answers
    [False] whenever its body raised, [deserialize_share] never raises and
    answers [None] whenever [pickle.loads] raised. *)
Theorem verify_and_deserialize_catch_everything
    (sha256_hex : list byte -> string)
    (json_dumps : list (list Z) -> list byte)
    (lattice_check : gmap string LatticeSigner.pyval -> list (list Z) ->
                     list (list Z) -> list byte -> res bool)
    (pickle_loads : list byte -> res Splitter.share_dict)
    (pk signature : gmap string LatticeSigner.pyval)
    (message share_bytes : list byte) :
  (exists b, LatticeSigner.verify sha256_hex json_dumps lattice_check
               pk message signature = Ok b) /\
  (forall e, LatticeSigner.verify_try sha256_hex json_dumps lattice_check
               pk message signature = Raise e ->
             LatticeSigner.verify sha256_hex json_dumps lattice_check
               pk message signature = Ok false) /\
  (exists r, Reconstructor.deserialize_share pickle_loads share_bytes = Ok r) /\
  (forall e, pickle_loads share_bytes = Raise e ->
             Reconstructor.deserialize_share pickle_loads share_bytes
             = Ok None).
Proof.
  unfold LatticeSigner.verify, Reconstructor.deserialize_share.
  repeat split.
  - destruct (LatticeSigner.verify_try _ _ _ _ _ _); eauto.
  - by intros e ->.
  - destruct (pickle_loads share_bytes); eauto.
  - by intros e ->.
Qed.

(** C9, the claim as stated fails: on a signature without the key ['z']
    the body of [verify] raises [KeyError], and [verify] returns a plain
    [False]; on bytes that [pickle.loads] rejects, [deserialize_share]
    returns a plain [None]. *)
Lemma verify_hides_key_error :
  ~ (forall (sha256_hex : list byte -> string)
            (json_dumps : list (list Z) -> list byte)
            (lattice_check : gmap string LatticeSigner.pyval ->
                             list (list Z) -> list (list Z) -> list byte ->
                             res bool)
            (pickle_loads : list byte -> res Splitter.share_dict)
            (pk signature : gmap string LatticeSigner.pyval)
            (message share_bytes : list byte) (e : exn),
       (LatticeSigner.verify_try sha256_hex json_dumps lattice_check
          pk message signature = Raise e ->
        LatticeSigner.verify sha256_hex json_dumps lattice_check
          pk message signature = Raise e) /\
       (pickle_loads share_bytes = Raise e ->
        Reconstructor.deserialize_share pickle_loads share_bytes = Raise e)).
Proof.
  intros H.
  destruct (H (fun _ => EmptyString) (fun _ => []) (fun _ _ _ _ => Ok true)
              (fun _ => Raise EOFError) ∅ ∅ [] [] KeyError) as [H1 _].
  specialize (H1 eq_refl). discriminate H1.
Qed.

(** ** The extended Euclidean algorithm and modular inverses *)

Lemma extended_gcd_bezout (a b : Z) :
  let '(g, x, y) := MathUtils.extended_gcd a b in a * x + b * y = g.
Proof.
  funelim (MathUtils.extended_gcd a b).
  - subst. lia.
  - destruct (MathUtils.extended_gcd (b mod a) a) as [[g y] x].
    pose proof (Z.div_mod b a ltac:(done)). nia.
Qed.

Lemma extended_gcd_gcd (a b : Z) :
  0 <= a -> 0 <= b -> fst (fst (MathUtils.extended_gcd a b)) = Z.gcd a b.
Proof.
  funelim (MathUtils.extended_gcd a b); intros Ha Hb.
  - subst. simpl. rewrite Z.gcd_0_l. lia.
  - destruct (MathUtils.extended_gcd (b mod a) a) as [[g y] x] eqn:E.
    simpl in *. rewrite H.
    + rewrite Z.gcd_mod by done. done.
    + pose proof (Z.mod_pos_bound b a ltac:(lia)). lia.
    + done.
Qed.

Lemma modinv_spec (a m : Z) :
  0 <= a -> 1 < m -> Z.gcd a m = 1 ->
  exists inv, Reconstructor._modinv a m = Ok inv /\
              MathUtils.mod_inverse a m = Ok inv /\
              inv = snd (fst (MathUtils.extended_gcd a m)) mod m /\
              (a * inv) mod m = 1.
Proof.
  intros Ha Hm Hg.
  pose proof (extended_gcd_bezout a m) as Hbez.
  pose proof (extended_gcd_gcd a m Ha ltac:(lia)) as Hgcd.
  unfold Reconstructor._modinv, Reconstructor._egcd, MathUtils.mod_inverse.
  destruct (MathUtils.extended_gcd a m) as [[g x] y]. simpl in Hgcd.
  assert (g = 1) as -> by lia.
  exists (x mod m). simpl.
  destruct (Z.eqb_spec m 0); [lia|].
  repeat split; try done.
  rewrite Z.mul_mod_idemp_r by lia.
  replace (a * x) with (1 + (- y) * m) by lia.
  rewrite Z.mod_add by lia. apply Z.mod_small. lia.
Qed.

(** ** Products of pairwise coprime moduli *)

Definition list_prod (l : list Z) : Z := foldr Z.mul 1 l.

Fixpoint pairwise_coprime (l : list Z) : Prop :=
  match l with
  | [] => True
  | m :: l' => Forall (fun m' => Z.gcd m m' = 1) l' /\ pairwise_coprime l'
  end.

Lemma fold_left_mul (l : list Z) (a : Z) :
  fold_left Z.mul l a = a * list_prod l.
Proof.
  revert a. induction l as [|x l IH]; intros a; simpl; [lia|].
  rewrite IH. lia.
Qed.

Lemma reduce_mul_prod (l : list Z) : l <> [] -> reduce_mul l = Ok (list_prod l).
Proof.
  destruct l as [|x l]; [done|]. intros _. simpl. by rewrite fold_left_mul.
Qed.

Lemma get_product_prod (l : list Z) : MathUtils.get_product l = list_prod l.
Proof. unfold MathUtils.get_product. rewrite fold_left_mul. lia. Qed.

Lemma list_prod_perm (l k : list Z) : l ≡ₚ k -> list_prod l = list_prod k.
Proof.
  induction 1; simpl; lia.
Qed.

Lemma pairwise_coprime_check_spec (l : list Z) :
  Splitter.pairwise_coprime_check l = true -> pairwise_coprime l.
Proof.
  induction l as [|m l IH]; simpl; [done|].
  intros [H1 H2]%andb_true_iff. split; [|by apply IH].
  apply Forall_forall. intros m' Hm'.
  rewrite forallb_forall in H1.
  apply Z.eqb_eq, H1. by apply list_elem_of_In.
Qed.

Lemma pairwise_coprime_submseteq (l k : list Z) :
  l ⊆+ k -> pairwise_coprime k -> pairwise_coprime l.
Proof.
  induction 1 as [|x l k Hlk IH|x y l|x l k Hlk IH|l k j Hlk IH1 Hkj IH2];
    simpl; try tauto.
  - intros [Hx Hk]. split; [|by apply IH].
    apply Forall_forall. intros m Hm. rewrite Forall_forall in Hx.
    apply Hx. by eapply elem_of_submseteq.
  - intros [Hx [Hy Hl]].
    apply Forall_cons in Hx as [Hxy Hx].
    repeat split; try done.
    constructor; [by rewrite Z.gcd_comm|done].
Qed.

Lemma list_prod_pos (l : list Z) :
  Forall (fun m => 255 < m) l -> 1 <= list_prod l.
Proof.
  induction 1 as [|m l Hm Hl IH]; simpl; [lia|]. nia.
Qed.

Lemma list_prod_large (l : list Z) :
  Forall (fun m => 255 < m) l -> l <> [] -> 255 < list_prod l.
Proof.
  intros Hl Hne. destruct l as [|m l]; [done|].
  apply Forall_cons in Hl as [Hm Hl]. simpl.
  pose proof (list_prod_pos l Hl). nia.
Qed.

Lemma coprime_list_prod (m : Z) (l : list Z) :
  Forall (fun m' => Z.gcd m m' = 1) l -> Z.gcd m (list_prod l) = 1.
Proof.
  induction 1 as [|m' l Hm' Hl IH]; simpl.
  - apply Z.gcd_1_r.
  - by apply Z.coprime_mul_r.
Qed.

Lemma coprime_divide_mul (a b d : Z) :
  Z.gcd a b = 1 -> (a | d) -> (b | d) -> (a * b | d).
Proof.
  intros Hg [k ->] Hb.
  assert (b | k) as [j ->].
  { apply Z.gauss with a; [by rewrite Z.mul_comm|by rewrite Z.gcd_comm]. }
  exists j. lia.
Qed.

Lemma divide_list_prod (l : list Z) (d : Z) :
  pairwise_coprime l -> Forall (fun m => (m | d)) l -> (list_prod l | d).
Proof.
  induction l as [|m l IH]; simpl; intros Hpc Hd.
  - apply Z.divide_1_l.
  - destruct Hpc as [Hm Hpc]. apply Forall_cons in Hd as [Hmd Hd].
    apply coprime_divide_mul; [by apply coprime_list_prod|done|by apply IH].
Qed.

(** The CRT weight of the modulus [m] in the product [M]:
    [M_i * inv_i] with [M_i = M // m] and [inv_i] its inverse modulo [m]. *)
Definition crt_weight (M m : Z) : Z :=
  (M / m) * (snd (fst (MathUtils.extended_gcd (M / m) m)) mod m).

Definition list_sum (l : list Z) : Z := foldr Z.add 0 l.

Lemma list_sum_cons (x : Z) (l : list Z) : list_sum (x :: l) = x + list_sum l.
Proof. reflexivity. Qed.

Lemma list_sum_perm (l k : list Z) : l ≡ₚ k -> list_sum l = list_sum k.
Proof. induction 1; simpl; lia. Qed.

Section Weights.

Variable ms : list Z.
Hypothesis ms_large : Forall (fun m => 255 < m) ms.
Hypothesis ms_coprime : pairwise_coprime ms.

Let M := list_prod ms.

Lemma split_modulus (m : Z) :
  m ∈ ms ->
  exists rest, ms ≡ₚ m :: rest /\ M = m * list_prod rest /\
               M / m = list_prod rest /\ Z.gcd (list_prod rest) m = 1 /\
               255 < m /\ 1 <= list_prod rest.
Proof.
  intros Hm. apply elem_of_Permutation in Hm as [rest Hperm].
  assert (255 < m /\ Forall (fun m => 255 < m) rest) as [Hm Hrest].
  { rewrite Hperm in ms_large. by apply Forall_cons in ms_large. }
  assert (pairwise_coprime (m :: rest)) as [Hc _].
  { eapply pairwise_coprime_submseteq; [|exact ms_coprime].
    by rewrite Hperm. }
  exists rest. unfold M. rewrite (list_prod_perm _ _ Hperm). simpl.
  repeat split; try done.
  - rewrite Z.mul_comm, Z.div_mul by lia. done.
  - rewrite Z.gcd_comm. by apply coprime_list_prod.
  - by apply list_prod_pos.
Qed.

Lemma modinv_weight (m : Z) :
  m ∈ ms ->
  exists inv, Reconstructor._modinv (M / m) m = Ok inv /\
              MathUtils.mod_inverse (M / m) m = Ok inv /\
              (M / m) * inv = crt_weight M m.
Proof.
  intros Hm. destruct (split_modulus m Hm) as (rest & _ & _ & Hdiv & Hg & ? & ?).
  destruct (modinv_spec (M / m) m) as (inv & H1 & H2 & H3 & _);
    [lia|lia|by rewrite Hdiv|].
  exists inv. repeat split; try done. unfold crt_weight. by rewrite H3.
Qed.

Lemma crt_weight_self (m : Z) : m ∈ ms -> (crt_weight M m) mod m = 1.
Proof.
  intros Hm. destruct (split_modulus m Hm) as (rest & _ & _ & Hdiv & Hg & ? & ?).
  destruct (modinv_spec (M / m) m) as (inv & _ & _ & H3 & H4);
    [lia|lia|by rewrite Hdiv|].
  unfold crt_weight. by rewrite <- H3.
Qed.

Lemma crt_weight_other (m m' : Z) (rest : list Z) :
  ms ≡ₚ m :: rest -> m' ∈ rest -> (m | crt_weight M m').
Proof.
  intros Hperm Hm'.
  apply elem_of_Permutation in Hm' as [rest' Hperm'].
  assert (255 < m') as Hlarge.
  { rewrite Hperm, Hperm' in ms_large.
    apply Forall_cons in ms_large as [_ H]. by apply Forall_cons in H as [H _]. }
  unfold crt_weight. apply Z.divide_mul_l.
  unfold M. rewrite (list_prod_perm _ _ Hperm). simpl.
  rewrite (list_prod_perm _ _ Hperm'). simpl.
  replace (m * (m' * list_prod rest')) with (m * list_prod rest' * m') by lia.
  rewrite Z.div_mul by lia. by apply Z.divide_mul_l.
Qed.

Lemma crt_weights_sum :
  ms <> [] -> (list_sum (map (crt_weight M) ms)) mod M = 1.
Proof.
  intros Hne.
  assert (255 < M) as HM by (by apply list_prod_large).
  transitivity (1 mod M); [|apply Z.mod_small; lia].
  apply Z.cong_iff_ex.
  destruct (divide_list_prod ms (list_sum (map (crt_weight M) ms) - 1))
    as [k Hk]; [done| |exists k; exact Hk].
  apply Forall_forall. intros m Hm.
  destruct (elem_of_Permutation ms m) as [[rest Hperm] _]; [done|].
  rewrite (list_sum_perm _ _ (fmap_Permutation _ _ _ Hperm)).
  rewrite fmap_cons, list_sum_cons.
  assert (255 < m) as Hlarge.
  { rewrite Forall_forall in ms_large. by apply ms_large. }
  assert (m | crt_weight M m - 1) as [k1 H1].
  { apply Z.mod_divide; [lia|].
    rewrite Zminus_mod, (crt_weight_self m Hm).
    rewrite (Z.mod_small 1 m) by lia. done. }
  assert (m | list_sum (crt_weight M <$> rest)) as [k2 H2].
  { assert (forall m', m' ∈ rest -> (m | crt_weight M m')) as Hrest
      by (intros; by eapply crt_weight_other).
    clear Hperm. induction rest as [|m' rest IH].
    - apply Z.divide_0_r.
    - rewrite fmap_cons, list_sum_cons.
      apply Z.divide_add_r; [apply Hrest; by left|].
      apply IH. intros; apply Hrest; by right. }
  exists (k1 + k2). lia.
Qed.

(** One pixel value recombined from equal residues. *)
Lemma crt_recombine (v : Z) :
  ms <> [] -> 0 <= v <= 255 ->
  (v * list_sum (map (crt_weight M) ms)) mod M = v.
Proof.
  intros Hne Hv.
  assert (255 < M) as HM by (by apply list_prod_large).
  rewrite <- Z.mul_mod_idemp_r by lia.
  rewrite crt_weights_sum by done.
  rewrite Z.mul_1_r. apply Z.mod_small. lia.
Qed.

End Weights.

(** ** Arrays: flatten and reshape *)

Lemma concat_concat {A} (l : list (list (list A))) :
  concat (concat l) = concat (map (@concat A) l).
Proof.
  induction l as [|x l IH]; simpl; [done|].
  by rewrite concat_app, IH.
Qed.

Lemma length_concat_uniform {A} (k : nat) (l : list (list A)) :
  Forall (fun x => length x = k) l -> length (concat l) = (length l * k)%nat.
Proof.
  induction 1 as [|x l Hx Hl IH]; simpl; [done|].
  rewrite length_app, IH, Hx. lia.
Qed.

Lemma chunk_concat {A} (k : nat) (l : list (list A)) :
  Forall (fun x => length x = k) l -> chunk k (length l) (concat l) = l.
Proof.
  induction 1 as [|x l Hx Hl IH]; simpl; [done|].
  rewrite take_app_length' by done. rewrite drop_app_length' by done.
  by rewrite IH.
Qed.

Lemma length_flatten (img : ndarray3) (h w c : nat) :
  nd_shape img = (h, w, c) -> well_shaped img ->
  length (flatten img) = (h * w * c)%nat.
Proof.
  unfold well_shaped, flatten. intros -> [Hh Hrows].
  rewrite concat_concat.
  rewrite (length_concat_uniform (w * c)).
  - rewrite length_map, Hh. lia.
  - apply Forall_fmap. eapply Forall_impl; [exact Hrows|].
    intros row [Hw Hpx]. simpl.
    rewrite (length_concat_uniform c) by done. by rewrite Hw.
Qed.

Lemma reshape_flatten (img : ndarray3) :
  well_shaped img -> reshape (flatten img) (nd_shape img) = Ok img.
Proof.
  intros Hwf. destruct img as [[[h w] c] rows].
  pose proof (length_flatten {| nd_shape := (h, w, c); nd_rows := rows |}
                h w c eq_refl Hwf) as Hlen.
  unfold reshape. simpl nd_shape. rewrite Hlen, Nat.eqb_refl.
  f_equal. f_equal.
  destruct Hwf as [Hh Hrows]. simpl in Hh, Hrows.
  unfold flatten. simpl nd_rows. rewrite concat_concat.
  replace h with (length (map (@concat Z) rows)) by (by rewrite length_map).
  rewrite chunk_concat.
  - rewrite map_map. rewrite <- (map_id rows) at 2.
    apply map_ext_Forall. eapply Forall_impl; [exact Hrows|].
    intros row [Hw Hpx]. simpl. rewrite <- Hw. by apply chunk_concat.
  - apply Forall_fmap. eapply Forall_impl; [exact Hrows|].
    intros row [Hw Hpx]. simpl.
    rewrite (length_concat_uniform c) by done. by rewrite Hw.
Qed.

(** Every element of the image is a pixel value. *)
Definition pixel_values (img : ndarray3) : Prop :=
  Forall (fun v => 0 <= v <= 255) (flatten img).

(** ** CRT split and recombination *)

Section RoundTrip.

Variable sp : Splitter.ImageCRTSplitter.
Variable n t : Z.
Variable moduli0 : list Z.
Hypothesis sp_init : Splitter.init n t moduli0 = Ok sp.

Variable img : ndarray3.
Hypothesis img_shape : well_shaped img.
Hypothesis img_pixels : pixel_values img.

Let shares : list Splitter.share_dict :=
  map Splitter.payload_dict (Splitter.split sp img).

Lemma init_moduli :
  pairwise_coprime (Splitter.moduli sp) /\
  Forall (fun m => 255 < m) (Splitter.moduli sp) /\
  Z.of_nat (length (Splitter.moduli sp)) = n.
Proof.
  unfold Splitter.init, Splitter._validate_moduli in sp_init.
  destruct (Z.eqb_spec (Z.of_nat (length (merge_sort Z.le moduli0))) n)
    as [Hn|]; [|done]. simpl negb in sp_init. cbv iota in sp_init.
  destruct (Splitter.pairwise_coprime_check (merge_sort Z.le moduli0))
    eqn:Hpc; [|done]. simpl negb in sp_init. cbv iota in sp_init.
  destruct (existsb (fun m => m <=? 255) (merge_sort Z.le moduli0))
    eqn:Hex; [done|]. rsimpl in sp_init.
  destruct (reduce_mul (slice_to (merge_sort Z.le moduli0) t)); [|done].
  rsimpl in sp_init. apply Ok_inj in sp_init. subst sp. simpl.
  repeat split; [by apply pairwise_coprime_check_spec| |done].
  apply Forall_forall. intros m Hm.
  destruct (Z.leb_spec m 255) as [Hle|]; [|lia].
  assert (existsb (fun m => m <=? 255) (merge_sort Z.le moduli0) = true)
    as Habs; [|congruence].
  apply existsb_exists. exists m. split; [by apply list_elem_of_In|].
  by apply Z.leb_le.
Qed.

Lemma split_shares :
  map Splitter.d_mod shares = Splitter.moduli sp /\
  Forall (fun s => Splitter.d_data s = flatten img /\
                   Splitter.d_shape s = nd_shape img) shares.
Proof.
  destruct init_moduli as (_ & Hlarge & _).
  unfold shares, Splitter.split. split.
  - apply list_eq. intros i.
    rewrite !list_lookup_fmap, list_lookup_imap, list_lookup_fmap.
    by destruct (_ !! i).
  - apply Forall_forall. intros s Hs.
    apply list_elem_of_fmap in Hs as (p & -> & Hp).
    apply list_elem_of_lookup in Hp as [i Hp].
    rewrite list_lookup_imap, list_lookup_fmap in Hp.
    destruct (Splitter.moduli sp !! i) as [m|] eqn:Hm; simpl in Hp; [|done].
    injection Hp as <-. simpl. split; [|done].
    rewrite <- (map_id (flatten img)) at 2.
    apply map_ext_Forall. eapply Forall_impl; [exact img_pixels|].
    intros v Hv. simpl.
    assert (255 < m) as Hm'.
    { rewrite Forall_forall in Hlarge. apply Hlarge.
      by eapply list_elem_of_lookup_2. }
    simpl in Hv. unfold astype_uint16. rewrite (Z.mod_small v m) by lia.
    apply Z.mod_small. lia.
Qed.

Variable chosen : list Splitter.share_dict.
Hypothesis chosen_shares : chosen ⊆+ shares.
Hypothesis chosen_nonempty : chosen <> [].

Let ms := map Splitter.d_mod chosen.
Let M := list_prod ms.

Lemma chosen_moduli :
  pairwise_coprime ms /\ Forall (fun m => 255 < m) ms /\ ms <> [].
Proof.
  destruct init_moduli as (Hpc & Hlarge & _).
  destruct split_shares as [Hmods _].
  assert (ms ⊆+ Splitter.moduli sp) as Hsub.
  { rewrite <- Hmods. unfold ms. by apply fmap_submseteq. }
  repeat split.
  - by eapply pairwise_coprime_submseteq.
  - apply Forall_forall. intros m Hm. rewrite Forall_forall in Hlarge.
    apply Hlarge. by eapply elem_of_submseteq.
  - unfold ms. by destruct chosen.
Qed.

Lemma chosen_data :
  Forall (fun s => Splitter.d_data s = flatten img /\
                   Splitter.d_shape s = nd_shape img) chosen.
Proof.
  destruct split_shares as [_ Hall].
  apply Forall_forall. intros s Hs. rewrite Forall_forall in Hall.
  apply Hall. by eapply elem_of_submseteq.
Qed.

End RoundTrip.

Lemma rmap_seq_getitem {A B} (f : A -> res B) (l : list A) :
  rmap (fun i => x ← getitem l i; f x) (seq 0 (length l)) = rmap f l.
Proof.
  induction l as [|x l IH]; simpl; [done|].
  rewrite <- seq_shift, rmap_fmap.
  rewrite (rmap_ext _ (fun i => x ← getitem l i; f x)) by done.
  by rewrite IH.
Qed.

Lemma rfold_fmap {A B S} (f : S -> B -> res S) (g : A -> B) (l : list A)
    (s : S) :
  rfold f (map g l) s = rfold (fun s x => f s (g x)) l s.
Proof.
  revert s. induction l as [|x l IH]; intros s; simpl; [done|].
  destruct (f s (g x)); [|done]. rsimpl. apply IH.
Qed.

Lemma rfold_ext {A S} (f g : S -> A -> res S) (l : list A) (s : S) :
  (forall s x, f s x = g s x) -> rfold f l s = rfold g l s.
Proof.
  intros Hfg. revert s. induction l as [|x l IH]; intros s; simpl; [done|].
  rewrite Hfg. destruct (g s x); [|done]. rsimpl. apply IH.
Qed.

(** [for i in range(n): s = f(s, la[i], lb[i])] on lists of length [n]. *)
Lemma rfold_seq_getitem2 {A B S} (f : S -> A -> B -> res S)
    (la : list A) (lb : list B) (n : nat) (s : S) :
  length la = n -> length lb = n ->
  rfold (fun s i => a ← getitem la i; b ← getitem lb i; f s a b) (seq 0 n) s
  = rfold (fun s ab => f s ab.1 ab.2) (zip la lb) s.
Proof.
  revert lb n s. induction la as [|x la IH]; intros [|y lb] n s Ha Hb;
    simpl in *; subst; try done.
  simpl. unfold getitem at 1 2. simpl.
  destruct (f s x y) as [s'|]; [|done]. rsimpl.
  rewrite <- seq_shift, rfold_fmap.
  rewrite <- (IH lb (length la) s'); [|done|lia].
  by apply rfold_ext.
Qed.

Lemma zip_with_add_map (f g : Z -> Z) (l : list Z) :
  zip_with Z.add (map f l) (map g l) = map (fun v => f v + g v) l.
Proof.
  induction l as [|x l IH]; simpl; [done|]. by rewrite IH.
Qed.

(** A loop that adds, for each share, the pixels times a weight. *)
Lemma weighted_fold (flat : list Z)
    (f : list Z -> Splitter.share_dict -> res (list Z))
    (wt : Splitter.share_dict -> Z) (sub : list Splitter.share_dict) :
  (forall acc s, s ∈ sub -> length acc = length flat ->
     f acc s = Ok (zip_with Z.add acc (map (fun a => a * wt s) flat))) ->
  forall W0,
    rfold f sub (map (fun v => v * W0) flat)
    = Ok (map (fun v => v * (W0 + list_sum (map wt sub))) flat).
Proof.
  induction sub as [|s sub IH]; intros Hf W0; simpl.
  - f_equal. apply map_ext. intros; f_equal; lia.
  - rewrite Hf; [|by left|by rewrite length_map]. rsimpl.
    rewrite zip_with_add_map.
    rewrite (map_ext _ (fun v => v * (W0 + wt s))) by (intros; lia).
    rewrite IH by (intros; apply Hf; [by right|done]).
    f_equal. apply map_ext. intros; f_equal; lia.
Qed.

Lemma replicate_as_map (l : list Z) :
  replicate (length l) 0 = map (fun v => v * 0) l.
Proof.
  induction l as [|x l IH]; simpl; [done|]. rewrite IH. f_equal. lia.
Qed.

Lemma reconstruct_recombines (flat : list Z) (shape : nat * nat * nat)
    (chosen : list Splitter.share_dict) :
  Forall (fun v => 0 <= v <= 255) flat ->
  chosen <> [] ->
  Forall (fun s => Splitter.d_data s = flat) chosen ->
  Forall (fun s => Splitter.d_shape s = shape) chosen ->
  pairwise_coprime (map Splitter.d_mod chosen) ->
  Forall (fun m => 255 < m) (map Splitter.d_mod chosen) ->
  length flat = (let '(h, w, c) := shape in (h * w * c)%nat) ->
  Reconstructor.reconstruct chosen
  = (img ← reshape flat shape; Ok (Some img)).
Proof.
  intros Hpix Hne Hdata Hshape Hcop Hlarge Hlen.
  set (ms := map Splitter.d_mod chosen) in *.
  set (M := list_prod ms).
  assert (ms <> []) as Hms by (unfold ms; by destruct chosen).
  assert (Reconstructor.reconstruct chosen
          = (M ← reduce_mul ms;
             acc ← rfold (fun acc share =>
                            let mi := Splitter.d_mod share in
                            let data := Splitter.d_data share in
                            if mi =? 0 then Raise ZeroDivisionError
                            else
                              let Mi := M / mi in
                              yi ← Reconstructor._modinv Mi mi;
                              np_iadd acc (map (fun ai => ai * Mi * yi) data))
                         chosen (replicate (length flat) 0);
             img ← reshape (map (fun v => astype_uint8 (v mod M)) acc) shape;
             Ok (Some img))) as ->.
  { unfold Reconstructor.reconstruct, ms.
    destruct chosen as [|share0 rest]; [done|].
    apply Forall_cons in Hshape as [-> _]. by rewrite Hlen. }
  rewrite reduce_mul_prod by done. rsimpl. fold M.
  rewrite replicate_as_map.
  rewrite (weighted_fold flat _ (fun s => crt_weight M (Splitter.d_mod s))).
  - rsimpl. rewrite <- map_map with (f := Splitter.d_mod). fold ms.
    rewrite map_map.
    replace (map (fun v => astype_uint8
                    ((v * (0 + list_sum (map (crt_weight M) ms))) mod M)) flat)
      with flat; [done|].
    rewrite <- (map_id flat) at 1.
    apply map_ext_Forall. eapply Forall_impl; [exact Hpix|].
    intros v Hv. simpl in Hv. rewrite Z.add_0_l.
    unfold M. rewrite crt_recombine by done.
    unfold astype_uint8. symmetry. apply Z.mod_small. lia.
  - intros acc s Hs Hacc.
    assert (Splitter.d_mod s ∈ ms) as Hin.
    { unfold ms. apply list_elem_of_fmap. eauto. }
    assert (255 < Splitter.d_mod s) as Hl.
    { rewrite Forall_forall in Hlarge. by apply Hlarge. }
    simpl. destruct (Z.eqb_spec (Splitter.d_mod s) 0); [lia|].
    destruct (modinv_weight ms Hlarge Hcop _ Hin) as (inv & Hinv & _ & Hw).
    fold M in Hinv, Hw. rewrite Hinv. rsimpl.
    rewrite Forall_forall in Hdata. rewrite (Hdata s Hs).
    unfold np_iadd. rewrite length_map, Hacc, Nat.eqb_refl.
    f_equal. f_equal. apply map_ext. intros a. rewrite <- Hw. lia.
Qed.

Lemma zip_map_same {A B C} (f : A -> B) (g : A -> C) (l : list A) :
  zip (map f l) (map g l) = map (fun x => (f x, g x)) l.
Proof.
  induction l as [|x l IH]; simpl; [done|]. by rewrite IH.
Qed.

Lemma batch_crt_solve_recombines (flat : list Z)
    (chosen : list Splitter.share_dict) (m0 : Z) :
  Forall (fun v => 0 <= v <= 255) flat ->
  chosen <> [] ->
  Forall (fun s => Splitter.d_data s = flat) chosen ->
  pairwise_coprime (map Splitter.d_mod chosen) ->
  Forall (fun m => 255 < m) (map Splitter.d_mod chosen) ->
  255 < m0 ->
  MathUtils.batch_crt_solve (map Splitter.d_data chosen)
    (map Splitter.d_mod chosen) m0 = Ok flat.
Proof.
  intros Hpix Hne Hdata Hcop Hlarge Hm0.
  set (ms := map Splitter.d_mod chosen) in *.
  assert (ms <> []) as Hms by (unfold ms; by destruct chosen).
  unfold MathUtils.batch_crt_solve.
  rewrite get_product_prod. set (M := list_prod ms).
  assert (255 < M) as HM by (by apply list_prod_large).
  rewrite rmap_seq_getitem.
  rewrite (rmap_ok _ (crt_weight M)).
  2:{ intros m Hin.
      assert (255 < m) as Hl by (rewrite Forall_forall in Hlarge; by apply Hlarge).
      destruct (Z.eqb_spec m 0); [lia|].
      destruct (modinv_weight ms Hlarge Hcop _ Hin) as (inv & _ & Hinv & Hw).
      fold M in Hinv, Hw. rewrite Hinv. rsimpl. by rewrite Hw. }
  rsimpl.
  assert (getitem (map Splitter.d_data chosen) 0 = Ok flat) as ->.
  { destruct chosen as [|s0 rest]; [done|].
    apply Forall_cons in Hdata as [Hd _]. simpl. unfold getitem. simpl.
    by rewrite Hd. }
  rsimpl.
  rewrite (rfold_seq_getitem2
             (fun sum_val share_i w_i =>
                np_iadd sum_val (map (fun a => a * w_i) share_i)))
    by (unfold ms; by rewrite !length_map).
  replace (zip (map Splitter.d_data chosen) (map (crt_weight M) ms))
    with (map (fun s => (Splitter.d_data s, crt_weight M (Splitter.d_mod s)))
              chosen)
    by (unfold ms; rewrite map_map; symmetry; apply zip_map_same).
  rewrite rfold_fmap.
  replace (map (fun _ : Z => 0) flat) with (map (fun v => v * 0) flat)
    by (apply map_ext; intros; lia).
  rewrite (weighted_fold flat _ (fun s => crt_weight M (Splitter.d_mod s))).
  - rsimpl. destruct (Z.eqb_spec M 0); [lia|].
    destruct (Z.eqb_spec m0 0); [lia|]. simpl.
    f_equal. rewrite map_map.
    rewrite <- (map_id flat) at 2.
    apply map_ext_Forall. eapply Forall_impl; [exact Hpix|].
    intros v Hv. simpl in Hv. rewrite Z.add_0_l.
    rewrite <- map_map with (f := Splitter.d_mod). fold ms.
    unfold M. rewrite crt_recombine by done.
    unfold astype_uint8. rewrite (Z.mod_small v m0) by lia.
    apply Z.mod_small. lia.
  - intros acc s Hs Hacc. simpl.
    rewrite Forall_forall in Hdata. rewrite (Hdata s Hs).
    unfold np_iadd. by rewrite length_map, Hacc, Nat.eqb_refl.
Qed.

(** C1. For an image with pixel values in 0..255 and a splitter that
    accepted its moduli (pairwise coprime, each above 255), recombining any
    non-empty selection of the shares made by [split], in any order and in
    particular any t of them, gives back the image exactly: with
    [reconstruct] (Y mod M), and with [batch_crt_solve] (Y mod M reduced
    modulo the secret modulus 257). *)
Theorem crt_split_reconstruct_round_trip (n t : Z) (moduli0 : list Z)
    (sp : Splitter.ImageCRTSplitter) (img : ndarray3)
    (chosen : list Splitter.share_dict) :
  Splitter.init n t moduli0 = Ok sp ->
  well_shaped img ->
  pixel_values img ->
  chosen ⊆+ map Splitter.payload_dict (Splitter.split sp img) ->
  chosen <> [] ->
  Reconstructor.reconstruct chosen = Ok (Some img) /\
  MathUtils.batch_crt_solve (map Splitter.d_data chosen)
    (map Splitter.d_mod chosen) Config.LARGE_PRIME_Q = Ok (flatten img).
Proof.
  intros Hinit Hwf Hpix Hsub Hne.
  destruct (chosen_moduli sp n t moduli0 Hinit img Hpix chosen Hsub Hne)
    as (Hcop & Hlarge & _).
  pose proof (chosen_data sp n t moduli0 Hinit img Hpix chosen Hsub) as Hdata.
  assert (Forall (fun s => Splitter.d_data s = flatten img) chosen) as Hd1
    by (eapply Forall_impl; [exact Hdata|]; by intros s [? ?]).
  assert (Forall (fun s => Splitter.d_shape s = nd_shape img) chosen) as Hd2
    by (eapply Forall_impl; [exact Hdata|]; by intros s [? ?]).
  split.
  - rewrite (reconstruct_recombines (flatten img) (nd_shape img)); try done.
    + by rewrite reshape_flatten.
    + destruct (nd_shape img) as [[h w] c] eqn:Hs.
      by apply length_flatten.
  - apply batch_crt_solve_recombines; try done.
Qed.

Definition sample_image : ndarray3 :=
  {| nd_shape := (1%nat, 2%nat, 3%nat);
     nd_rows := [[[255; 0; 7]; [128; 64; 32]]] |}.

Definition sample_splitter : Splitter.ImageCRTSplitter :=
  {| Splitter.n := 3; Splitter.t := 2; Splitter.moduli := [257; 263; 269];
     Splitter.reconstruction_capacity := 67591 |}.

Definition sample_share (i : nat) (m : Z) : Splitter.share_dict :=
  {| Splitter.d_idx := i; Splitter.d_mod := m;
     Splitter.d_shape := (1%nat, 2%nat, 3%nat);
     Splitter.d_data := [255; 0; 7; 128; 64; 32] |}.

Lemma crt_split_reconstruct_round_trip_witness :
  Reconstructor.reconstruct [sample_share 2 269; sample_share 0 257]
  = Ok (Some sample_image) /\
  MathUtils.batch_crt_solve
    (map Splitter.d_data [sample_share 2 269; sample_share 0 257])
    (map Splitter.d_mod [sample_share 2 269; sample_share 0 257])
    Config.LARGE_PRIME_Q
  = Ok (flatten sample_image).
Proof.
  apply (crt_split_reconstruct_round_trip 3 2 [263; 257; 269]
           sample_splitter sample_image
           [sample_share 2 269; sample_share 0 257]).
  - vm_compute. reflexivity.
  - split; [reflexivity|]. repeat constructor.
  - unfold pixel_values. simpl. repeat constructor; lia.
  - apply NoDup_submseteq.
    + repeat constructor; rewrite ?elem_of_cons, ?elem_of_nil;
        unfold sample_share; intuition congruence.
    + intros x Hx. vm_compute.
      apply elem_of_cons in Hx as [->|Hx]; [right; right; left|].
      apply elem_of_cons in Hx as [->|Hx]; [left|].
      by apply elem_of_nil in Hx.
  - done.
Defined.

(** ** Threshold checks of the reconstruction *)

(** C4 (as amended). [reconstruct_image] raises [ValueError] when it is
    given fewer than [T_THRESHOLD] share paths. [reconstruct] checks no
    threshold: it returns [None] for an empty list and, for any other
    number of shares of one image, the recombined array. *)
Theorem reconstruction_threshold_behaviour :
  (forall (path : Type) (np_load : path -> res Reconstructor.share_packet)
          (share_paths : list path),
     (length share_paths < Config.T_THRESHOLD)%nat ->
     Reconstructor.reconstruct_image path np_load share_paths
     = Raise ValueError) /\
  Reconstructor.reconstruct [] = Ok None /\
  (forall (flat : list Z) (shape : nat * nat * nat)
          (chosen : list Splitter.share_dict),
     Forall (fun v => 0 <= v <= 255) flat ->
     chosen <> [] ->
     Forall (fun s => Splitter.d_data s = flat) chosen ->
     Forall (fun s => Splitter.d_shape s = shape) chosen ->
     pairwise_coprime (map Splitter.d_mod chosen) ->
     Forall (fun m => 255 < m) (map Splitter.d_mod chosen) ->
     length flat = (let '(h, w, c) := shape in (h * w * c)%nat) ->
     exists img, reshape flat shape = Ok img /\
                 Reconstructor.reconstruct chosen = Ok (Some img)).
Proof.
  repeat split.
  - intros path np_load share_paths Hlt.
    unfold Reconstructor.reconstruct_image.
    destruct (Nat.ltb_spec (length share_paths) Config.T_THRESHOLD); [done|lia].
  - intros flat shape chosen Hpix Hne Hdata Hshape Hcop Hlarge Hlen.
    rewrite (reconstruct_recombines flat shape) by done.
    unfold reshape. destruct shape as [[h w] c].
    rewrite Hlen, Nat.eqb_refl. eauto.
Qed.

Lemma reconstruction_threshold_behaviour_witness :
  Reconstructor.reconstruct_image nat (fun _ => Raise EOFError) [1; 2]%nat
  = Raise ValueError /\
  exists img, Reconstructor.reconstruct [sample_share 1 263] = Ok (Some img).
Proof.
  split.
  - apply (proj1 reconstruction_threshold_behaviour). simpl.
    unfold Config.T_THRESHOLD. lia.
  - destruct (proj2 (proj2 reconstruction_threshold_behaviour)
                [255; 0; 7; 128; 64; 32] (1, 2, 3)%nat [sample_share 1 263])
      as (img & _ & Himg); eauto; repeat constructor; lia.
Defined.

(** C4, the claim as stated fails: with a threshold of 3, [reconstruct]
    answers [None] for no share at all, and recombines a single share into
    an image, without raising anything. *)
Lemma reconstruct_below_threshold :
  (1 < Config.T_THRESHOLD)%nat /\
  Reconstructor.reconstruct [] = Ok None /\
  Reconstructor.reconstruct [sample_share 1 263] = Ok (Some sample_image).
Proof.
  split; [unfold Config.T_THRESHOLD; lia|]. split; [reflexivity|].
  vm_compute. reflexivity.
Qed.

(** ** The Arnold map *)

Section Grids.

Import Scrambler.

Definition is_grid (n m : nat) (g : grid) : Prop :=
  length g = n /\ Forall (fun row => length row = m) g.

Lemma is_grid_lookup (n m : nat) (g : grid) (y x : nat) :
  is_grid n m g -> (y < n)%nat -> (x < m)%nat ->
  exists row v, g !! y = Some row /\ row !! x = Some v /\ get2 g y x = v.
Proof.
  intros [Hn Hm] Hy Hx.
  destruct (lookup_lt_is_Some_2 g y) as [row Hrow]; [lia|].
  assert (length row = m) as Hlen.
  { rewrite Forall_forall in Hm. apply Hm. by eapply list_elem_of_lookup_2. }
  destruct (lookup_lt_is_Some_2 row x) as [v Hv]; [lia|].
  exists row, v. repeat split; try done.
  unfold get2. rewrite Hrow. simpl. by rewrite Hv.
Qed.

Lemma grid_ext (n m : nat) (g1 g2 : grid) :
  is_grid n m g1 -> is_grid n m g2 ->
  (forall y x, (y < n)%nat -> (x < m)%nat -> get2 g1 y x = get2 g2 y x) ->
  g1 = g2.
Proof.
  intros H1 H2 Hget. apply list_eq. intros y.
  destruct (decide (y < n)%nat) as [Hy|Hy].
  - destruct (lookup_lt_is_Some_2 g1 y) as [r1 Hr1]; [destruct H1; lia|].
    destruct (lookup_lt_is_Some_2 g2 y) as [r2 Hr2]; [destruct H2; lia|].
    rewrite Hr1, Hr2. f_equal. apply list_eq. intros x.
    assert (length r1 = m) as Hl1.
    { destruct H1 as [_ H1]. rewrite Forall_forall in H1. apply H1.
      by eapply list_elem_of_lookup_2. }
    assert (length r2 = m) as Hl2.
    { destruct H2 as [_ H2]. rewrite Forall_forall in H2. apply H2.
      by eapply list_elem_of_lookup_2. }
    destruct (decide (x < m)%nat) as [Hx|Hx].
    + destruct (lookup_lt_is_Some_2 r1 x) as [v1 Hv1]; [lia|].
      destruct (lookup_lt_is_Some_2 r2 x) as [v2 Hv2]; [lia|].
      specialize (Hget y x Hy Hx). unfold get2 in Hget.
      rewrite Hr1, Hr2 in Hget. simpl in Hget. rewrite Hv1, Hv2 in Hget.
      simpl in Hget. by rewrite Hv1, Hv2, Hget.
    + rewrite !lookup_ge_None_2; [done|lia|lia].
  - rewrite !lookup_ge_None_2; [done|destruct H2; lia|destruct H1; lia].
Qed.

Lemma is_grid_set2 (n m : nat) (g : grid) (y x : nat) (v : list Z) :
  is_grid n m g -> is_grid n m (set2 g y x v).
Proof.
  intros [Hn Hm]. unfold set2. split; [by rewrite length_alter|].
  apply Forall_forall. intros row Hrow.
  apply list_elem_of_lookup in Hrow as [i Hi].
  rewrite Forall_forall in Hm.
  destruct (decide (i = y)) as [->|Hne].
  - rewrite list_lookup_alter_eq in Hi.
    destruct (g !! y) as [r|] eqn:Hr; simpl in Hi; [|done].
    injection Hi as <-. rewrite length_insert. apply Hm.
    by eapply list_elem_of_lookup_2.
  - rewrite list_lookup_alter_ne in Hi by done.
    apply Hm. by eapply list_elem_of_lookup_2.
Qed.

Lemma get2_set2_eq (n m : nat) (g : grid) (y x : nat) (v : list Z) :
  is_grid n m g -> (y < n)%nat -> (x < m)%nat ->
  get2 (set2 g y x v) y x = v.
Proof.
  intros Hg Hy Hx.
  destruct (is_grid_lookup n m g y x Hg Hy Hx) as (row & v0 & Hrow & Hv0 & _).
  unfold get2, set2. rewrite list_lookup_alter_eq, Hrow. simpl.
  rewrite list_lookup_insert_eq by (by eapply lookup_lt_Some). done.
Qed.

Lemma get2_set2_ne (g : grid) (y x y' x' : nat) (v : list Z) :
  (y, x) <> (y', x') -> get2 (set2 g y x v) y' x' = get2 g y' x'.
Proof.
  intros Hne. unfold get2, set2.
  destruct (decide (y = y')) as [->|Hy].
  - rewrite list_lookup_alter_eq. destruct (g !! y') as [row|]; simpl; [|done].
    rewrite list_lookup_insert_ne; [done|congruence].
  - by rewrite list_lookup_alter_ne.
Qed.

Lemma is_grid_zeros (n m c : nat) : is_grid n m (zeros n m c).
Proof.
  unfold zeros. split; [by rewrite length_replicate|].
  apply Forall_replicate. by rewrite length_replicate.
Qed.

Lemma elem_of_indices (n y x : nat) :
  (y, x) ∈ indices n <-> (y < n)%nat /\ (x < n)%nat.
Proof.
  unfold indices. rewrite list_elem_of_bind. split.
  - intros (y0 & Hin & Hy0). apply list_elem_of_bind in Hin as (x0 & Hin & Hx0).
    apply list_elem_of_singleton in Hin. injection Hin as -> ->.
    apply elem_of_seq in Hy0, Hx0. lia.
  - intros [Hy Hx]. exists y. split; [|apply elem_of_seq; lia].
    apply list_elem_of_bind. exists x. split; [by apply list_elem_of_singleton|].
    apply elem_of_seq. lia.
Qed.

Lemma NoDup_indices (n : nat) : NoDup (indices n).
Proof.
  unfold indices. apply NoDup_bind; [| |apply NoDup_seq].
  - intros y1 y2 [y x] _ _ H1 H2.
    apply list_elem_of_bind in H1 as (x1 & H1 & _).
    apply list_elem_of_bind in H2 as (x2 & H2 & _).
    apply list_elem_of_singleton in H1, H2. congruence.
  - intros y _. apply NoDup_bind; [| |apply NoDup_seq].
    + intros x1 x2 p _ _ H1 H2.
      apply list_elem_of_singleton in H1, H2. congruence.
    + intros x _. apply NoDup_singleton.
Qed.

(** The scatter assignment along a list of distinct source positions whose
    targets are distinct and in range: each target holds its source. *)
Lemma scatter_fold (n m : nat) (target : nat * nat -> nat * nat)
    (img_curr : grid) (ps : list (nat * nat)) (acc : grid) :
  is_grid n m acc ->
  NoDup ps ->
  (forall p, p ∈ ps -> ((target p).1 < n)%nat /\ ((target p).2 < m)%nat) ->
  (forall p q, p ∈ ps -> q ∈ ps -> target p = target q -> p = q) ->
  let out := fold_left (fun img_next '(yy, xx) =>
                          let '(ty, tx) := target (yy, xx) in
                          set2 img_next ty tx (get2 img_curr yy xx))
                       ps acc in
  is_grid n m out /\
  forall p, p ∈ ps ->
    get2 out (target p).1 (target p).2 = get2 img_curr p.1 p.2.
Proof.
  intros Hacc. induction ps as [|q ps IH] using rev_ind;
    intros Hnd Hrange Hinj; simpl.
  - split; [done|]. intros p Hp. by apply elem_of_nil in Hp.
  - rewrite fold_left_app. simpl.
    apply NoDup_app in Hnd as (Hnd & Hq & _).
    destruct IH as [Hgrid IH]; [done| | |].
    { intros p Hp. apply Hrange, elem_of_app. by left. }
    { intros p p' Hp Hp'. apply Hinj; apply elem_of_app; by left. }
    destruct q as [qy qx]. destruct (target (qy, qx)) as [ty tx] eqn:Ht.
    split; [by apply is_grid_set2|].
    assert ((qy, qx) ∈ ps ++ [(qy, qx)]) as Hqin
      by (apply elem_of_app; right; by apply list_elem_of_singleton).
    intros p [Hp|Hp]%elem_of_app.
    + rewrite get2_set2_ne; [by apply IH|].
      intros Heq. apply (Hq p Hp).
      assert (p = (qy, qx)) as ->; [|by apply list_elem_of_singleton].
      apply Hinj; [apply elem_of_app; by left|done|].
      rewrite Ht. destruct (target p). simpl in Heq. congruence.
    + apply list_elem_of_singleton in Hp as ->. rewrite Ht. simpl.
      destruct (Hrange (qy, qx) Hqin) as [Hy Hx]. rewrite Ht in Hy, Hx.
      by apply (get2_set2_eq n m).
Qed.

Lemma scatter_spec (n m c : nat) (target : nat * nat -> nat * nat)
    (img_curr : grid) :
  (forall p, p ∈ indices n ->
     ((target p).1 < n)%nat /\ ((target p).2 < m)%nat) ->
  (forall p q, p ∈ indices n -> q ∈ indices n -> target p = target q -> p = q) ->
  is_grid n m (scatter n m c target img_curr) /\
  forall p, p ∈ indices n ->
    get2 (scatter n m c target img_curr) (target p).1 (target p).2
    = get2 img_curr p.1 p.2.
Proof.
  intros Hrange Hinj. unfold scatter.
  apply (scatter_fold n m target img_curr (indices n) (zeros n m c));
    [apply is_grid_zeros|apply NoDup_indices|done|done].
Qed.

End Grids.

(** The cat map and its inverse on unbounded integers: what the index
    arithmetic of [scramble] and [unscramble] computes as long as no int64
    operation wraps around. *)
Definition cat_map (self : Scrambler.ArnoldScrambler) (n : nat)
    (p : nat * nat) : nat * nat :=
  let yy := Z.of_nat (fst p) in
  let xx := Z.of_nat (snd p) in
  let xx_new := (xx + Scrambler.b self * yy) mod Z.of_nat n in
  let yy_new :=
    (Scrambler.a self * xx
     + (Scrambler.a self * Scrambler.b self + 1) * yy) mod Z.of_nat n in
  (Z.to_nat yy_new, Z.to_nat xx_new).

Definition cat_map_inverse (self : Scrambler.ArnoldScrambler) (n : nat)
    (p : nat * nat) : nat * nat :=
  let yy := Z.of_nat (fst p) in
  let xx := Z.of_nat (snd p) in
  let xx_old :=
    ((Scrambler.a self * Scrambler.b self + 1) * xx
     - Scrambler.b self * yy) mod Z.of_nat n in
  let yy_old := (- Scrambler.a self * xx + yy) mod Z.of_nat n in
  (Z.to_nat yy_old, Z.to_nat xx_old).

(** The parameters and the side [n] of the square are small enough for the
    int64 index arithmetic: no product or sum of [scramble] and [unscramble]
    leaves [[-2^63, 2^63)]. *)
Definition int64_safe (self : Scrambler.ArnoldScrambler) (n : nat) : Prop :=
  (Z.abs (Scrambler.a self) + Z.abs (Scrambler.b self)
   + Z.abs (Scrambler.a self * Scrambler.b self + 1) + 1)
  * Z.max 1 (Z.of_nat n) < 2 ^ 63.

Section CatMap.

Import Scrambler.

Variable self : ArnoldScrambler.
Variable n : nat.
Hypothesis n_pos : (0 < n)%nat.

Lemma mod_combine (k1 k2 X Y : Z) :
  (k1 * (X mod Z.of_nat n) + k2 * (Y mod Z.of_nat n)) mod Z.of_nat n
  = (k1 * X + k2 * Y) mod Z.of_nat n.
Proof.
  rewrite Z.add_mod, !Z.mul_mod_idemp_r, <- Z.add_mod by lia. done.
Qed.

Lemma cat_map_range (p : nat * nat) :
  ((cat_map self n p).1 < n)%nat /\
  ((cat_map self n p).2 < n)%nat.
Proof.
  unfold cat_map. simpl.
  split; apply Nat2Z.inj_lt; rewrite Z2Nat.id;
    apply Z.mod_pos_bound || (apply Z.mod_pos_bound; lia); lia.
Qed.

Lemma cat_map_inverse_range (p : nat * nat) :
  ((cat_map_inverse self n p).1 < n)%nat /\
  ((cat_map_inverse self n p).2 < n)%nat.
Proof.
  unfold cat_map_inverse. simpl.
  split; apply Nat2Z.inj_lt; rewrite Z2Nat.id;
    apply Z.mod_pos_bound || (apply Z.mod_pos_bound; lia); lia.
Qed.

Lemma inverse_forward (p : nat * nat) :
  p ∈ indices n -> cat_map_inverse self n (cat_map self n p) = p.
Proof.
  destruct p as [y x]. intros [Hy Hx]%elem_of_indices.
  unfold cat_map_inverse, cat_map. simpl.
  rewrite !Z2Nat.id by (apply Z.mod_pos_bound; lia).
  set (X := Z.of_nat x + b self * Z.of_nat y).
  set (Y := a self * Z.of_nat x + (a self * b self + 1) * Z.of_nat y).
  f_equal.
  - replace (- a self * (X mod Z.of_nat n) + Y mod Z.of_nat n)
      with (- a self * (X mod Z.of_nat n) + 1 * (Y mod Z.of_nat n)) by lia.
    rewrite mod_combine.
    replace (- a self * X + 1 * Y) with (Z.of_nat y) by (unfold X, Y; lia).
    rewrite Z.mod_small by lia. apply Nat2Z.id.
  - replace ((a self * b self + 1) * (X mod Z.of_nat n)
             - b self * (Y mod Z.of_nat n))
      with ((a self * b self + 1) * (X mod Z.of_nat n)
            + (- b self) * (Y mod Z.of_nat n)) by lia.
    rewrite mod_combine.
    replace ((a self * b self + 1) * X + - b self * Y) with (Z.of_nat x)
      by (unfold X, Y; lia).
    rewrite Z.mod_small by lia. apply Nat2Z.id.
Qed.

Lemma forward_inverse (p : nat * nat) :
  p ∈ indices n -> cat_map self n (cat_map_inverse self n p) = p.
Proof.
  destruct p as [y x]. intros [Hy Hx]%elem_of_indices.
  unfold cat_map_inverse, cat_map. simpl.
  rewrite !Z2Nat.id by (apply Z.mod_pos_bound; lia).
  set (X := (a self * b self + 1) * Z.of_nat x - b self * Z.of_nat y).
  set (Y := - a self * Z.of_nat x + Z.of_nat y).
  f_equal.
  - rewrite mod_combine.
    replace (a self * X + (a self * b self + 1) * Y) with (Z.of_nat y)
      by (unfold X, Y; lia).
    rewrite Z.mod_small by lia. apply Nat2Z.id.
  - replace (X mod Z.of_nat n + b self * (Y mod Z.of_nat n))
      with (1 * (X mod Z.of_nat n) + b self * (Y mod Z.of_nat n)) by lia.
    rewrite mod_combine.
    replace (1 * X + b self * Y) with (Z.of_nat x) by (unfold X, Y; lia).
    rewrite Z.mod_small by lia. apply Nat2Z.id.
Qed.

Lemma cat_map_indices (p : nat * nat) :
  cat_map self n p ∈ indices n.
Proof.
  destruct (cat_map self n p) as [y x] eqn:E.
  apply elem_of_indices. pose proof (cat_map_range p) as H.
  by rewrite E in H.
Qed.

Lemma cat_map_inverse_indices (p : nat * nat) :
  cat_map_inverse self n p ∈ indices n.
Proof.
  destruct (cat_map_inverse self n p) as [y x] eqn:E.
  apply elem_of_indices. pose proof (cat_map_inverse_range p) as H.
  by rewrite E in H.
Qed.

(** One round of [unscramble] undoes one round of [scramble]. *)
Lemma scatter_inverse_forward (c : nat) (g : grid) :
  is_grid n n g ->
  scatter n n c (cat_map_inverse self n)
    (scatter n n c (cat_map self n) g) = g.
Proof.
  intros Hg.
  destruct (scatter_spec n n c (cat_map self n) g) as [Hg1 Hget1].
  { intros; apply cat_map_range. }
  { intros p q Hp Hq Heq.
    rewrite <- (inverse_forward p Hp), <- (inverse_forward q Hq). congruence. }
  destruct (scatter_spec n n c (cat_map_inverse self n)
              (scatter n n c (cat_map self n) g)) as [Hg2 Hget2].
  { intros; apply cat_map_inverse_range. }
  { intros p q Hp Hq Heq.
    rewrite <- (forward_inverse p Hp), <- (forward_inverse q Hq). congruence. }
  apply (grid_ext n n); [done|done|].
  intros y x Hy Hx.
  assert ((y, x) ∈ indices n) as Hin by (by apply elem_of_indices).
  specialize (Hget2 (cat_map self n (y, x))
                (cat_map_indices (y, x))).
  rewrite (inverse_forward _ Hin) in Hget2. cbn [fst snd] in Hget2.
  rewrite Hget2. by rewrite (Hget1 (y, x) Hin).
Qed.

Lemma is_grid_scatter_forward (c : nat) (g : grid) :
  is_grid n n (scatter n n c (cat_map self n) g).
Proof.
  apply scatter_spec.
  - intros; apply cat_map_range.
  - intros p q Hp Hq Heq.
    rewrite <- (inverse_forward p Hp), <- (inverse_forward q Hq). congruence.
Qed.

End CatMap.

Section ScrambleRoundTrip.

Import Scrambler.

Lemma is_grid_iter_forward (self : ArnoldScrambler) (n c k : nat) (g : grid) :
  (0 < n)%nat -> is_grid n n g ->
  is_grid n n (Nat.iter k (scatter n n c (cat_map self n)) g).
Proof.
  intros Hn Hg. destruct k as [|k]; simpl; [done|].
  by apply is_grid_scatter_forward.
Qed.

(** [iterations] rounds of the inverse map undo as many rounds of the map. *)
Lemma iter_inverse_forward (self : ArnoldScrambler) (n c k : nat) (g : grid) :
  is_grid n n g ->
  Nat.iter k (scatter n n c (cat_map_inverse self n))
    (Nat.iter k (scatter n n c (cat_map self n)) g) = g.
Proof.
  intros Hg. destruct (decide (n = 0)%nat) as [->|Hn].
  - assert (g = []) as -> by (destruct Hg as [Hl _]; by destruct g).
    assert (forall t x, scatter 0 0 c t x = []) as Hs by done.
    destruct k as [|k]; simpl; [done|]. by rewrite Hs.
  - induction k as [|k IH]; [done|].
    rewrite Nat.iter_succ_r. simpl.
    rewrite scatter_inverse_forward; [done|lia|].
    apply is_grid_iter_forward; [lia|done].
Qed.

Lemma is_grid_pad (h w c : nat) (rows : grid) :
  length rows = h -> Forall (fun row => length row = w) rows ->
  is_grid (Nat.max h w) (Nat.max h w) (pad (Nat.max h w) c rows).
Proof.
  intros Hh Hw. unfold pad. split.
  - rewrite length_app, length_map, length_replicate. lia.
  - apply Forall_app. split.
    + apply Forall_fmap. eapply Forall_impl; [exact Hw|].
      intros row Hrow. simpl in *. rewrite length_app, length_replicate. lia.
    + apply Forall_replicate. by rewrite length_replicate.
Qed.

Lemma crop_pad (h w n c : nat) (rows : grid) :
  length rows = h -> Forall (fun row => length row = w) rows ->
  crop h w (pad n c rows) = rows.
Proof.
  intros Hh Hw. unfold crop, pad.
  rewrite take_app_length' by (by rewrite length_map).
  rewrite map_map. rewrite <- (map_id rows) at 2.
  apply map_ext_Forall. eapply Forall_impl; [exact Hw|].
  intros row Hrow. simpl in *. by rewrite take_app_length'.
Qed.

Lemma crop_id (h w : nat) (rows : grid) :
  length rows = h -> Forall (fun row => length row = w) rows ->
  crop h w rows = rows.
Proof.
  intros Hh Hw. unfold crop. rewrite take_ge by lia.
  rewrite <- (map_id rows) at 2.
  apply map_ext_Forall. eapply Forall_impl; [exact Hw|].
  intros row Hrow. simpl in *. apply take_ge. lia.
Qed.

(** *** The int64 index arithmetic *)

Lemma wrap64_small (z : Z) : - 2 ^ 63 <= z < 2 ^ 63 -> wrap64 z = z.
Proof.
  unfold wrap64. change (2 ^ 63) with 9223372036854775808.
  change (2 ^ 64) with 18446744073709551616.
  intros Hz. rewrite Z.mod_small by lia. lia.
Qed.

Lemma scaled_bound (k x B : Z) :
  0 <= x < B -> - (Z.abs k * B) <= k * x <= Z.abs k * B.
Proof. intros Hx. destruct (Z.abs_spec k) as [[? ->]|[? ->]]; nia. Qed.

(** Inside the square, and without overflow, the index arithmetic is the
    cat map. *)
Lemma forward_target_exact (self : ArnoldScrambler) (n : nat)
    (p : nat * nat) :
  int64_safe self n -> p ∈ indices n ->
  forward_target self n p = cat_map self n p.
Proof.
  destruct p as [y x]. intros Hsafe [Hy Hx]%elem_of_indices.
  unfold forward_target, cat_map. cbn [fst snd].
  unfold int64_safe in Hsafe. rewrite Z.max_r in Hsafe by lia.
  change (2 ^ 63) with 9223372036854775808 in Hsafe.
  pose proof (scaled_bound (b self) (Z.of_nat y) (Z.of_nat n) ltac:(lia)).
  pose proof (scaled_bound (a self) (Z.of_nat x) (Z.of_nat n) ltac:(lia)).
  pose proof (scaled_bound (a self * b self + 1) (Z.of_nat y) (Z.of_nat n)
                ltac:(lia)).
  assert (forall z, - 9223372036854775808 <= z < 9223372036854775808 ->
                    wrap64 z = z) as Hw by apply wrap64_small.
  rewrite (Hw (b self * Z.of_nat y)) by lia.
  rewrite (Hw (Z.of_nat x + b self * Z.of_nat y)) by lia.
  rewrite (Hw (a self * Z.of_nat x)) by lia.
  rewrite (Hw ((a self * b self + 1) * Z.of_nat y)) by lia.
  rewrite (Hw (a self * Z.of_nat x + (a self * b self + 1) * Z.of_nat y))
    by lia.
  done.
Qed.

Lemma inverse_target_exact (self : ArnoldScrambler) (n : nat)
    (p : nat * nat) :
  int64_safe self n -> p ∈ indices n ->
  inverse_target self n p = cat_map_inverse self n p.
Proof.
  destruct p as [y x]. intros Hsafe [Hy Hx]%elem_of_indices.
  unfold inverse_target, cat_map_inverse. cbn [fst snd].
  unfold int64_safe in Hsafe. rewrite Z.max_r in Hsafe by lia.
  change (2 ^ 63) with 9223372036854775808 in Hsafe.
  pose proof (scaled_bound (b self) (Z.of_nat y) (Z.of_nat n) ltac:(lia)).
  pose proof (scaled_bound (- a self) (Z.of_nat x) (Z.of_nat n) ltac:(lia))
    as Ha. rewrite Z.abs_opp in Ha.
  pose proof (scaled_bound (a self * b self + 1) (Z.of_nat x) (Z.of_nat n)
                ltac:(lia)).
  assert (forall z, - 9223372036854775808 <= z < 9223372036854775808 ->
                    wrap64 z = z) as Hw by apply wrap64_small.
  rewrite (Hw (b self * Z.of_nat y)) by lia.
  rewrite (Hw ((a self * b self + 1) * Z.of_nat x)) by lia.
  rewrite (Hw ((a self * b self + 1) * Z.of_nat x - b self * Z.of_nat y))
    by lia.
  rewrite (Hw (- a self * Z.of_nat x)) by lia.
  rewrite (Hw (- a self * Z.of_nat x + Z.of_nat y)) by lia.
  done.
Qed.

(** [scatter] looks at the target of the positions of the square only. *)
Lemma scatter_ext (n m c : nat) (t1 t2 : nat * nat -> nat * nat) (g : grid) :
  (forall p, p ∈ indices n -> t1 p = t2 p) ->
  scatter n m c t1 g = scatter n m c t2 g.
Proof.
  intros Heq. unfold scatter. generalize (zeros n m c).
  induction (indices n) as [|[yy xx] ps IH]; intros acc; [done|].
  cbn [fold_left]. rewrite (Heq (yy, xx)) by left.
  apply IH. intros p Hp. apply Heq. by right.
Qed.

Lemma scatter_forward_exact (self : ArnoldScrambler) (n c : nat) (g : grid) :
  int64_safe self n ->
  scatter n n c (forward_target self n) g = scatter n n c (cat_map self n) g.
Proof.
  intros Hsafe. apply scatter_ext. intros p Hp.
  by apply forward_target_exact.
Qed.

Lemma scatter_inverse_exact (self : ArnoldScrambler) (n c : nat) (g : grid) :
  int64_safe self n ->
  scatter n n c (inverse_target self n) g
  = scatter n n c (cat_map_inverse self n) g.
Proof.
  intros Hsafe. apply scatter_ext. intros p Hp.
  by apply inverse_target_exact.
Qed.

Lemma iter_ext {A} (f g : A -> A) (k : nat) (x : A) :
  (forall y, f y = g y) -> Nat.iter k f x = Nat.iter k g x.
Proof.
  intros Hfg. induction k as [|k IH]; [done|].
  cbn [Nat.iter nat_rect]. fold (Nat.iter k f x). fold (Nat.iter k g x).
  by rewrite IH, Hfg.
Qed.

(** C8 (as amended). For every H x W x C image, every iteration count and
    all cat-map parameters (a, b) small enough for the int64 index
    arithmetic of numpy, [(|a| + |b| + |a*b + 1| + 1) * max(1, N) < 2^63]
    with [N = max(H, W)], [unscramble] applied to the result of [scramble]
    with the recorded original shape returns the original image, and
    cropping that to (H, W) once more changes nothing. *)
Theorem scramble_unscramble_round_trip (self : ArnoldScrambler)
    (img : ndarray3) (h w c : nat) :
  well_shaped img ->
  nd_shape img = (h, w, c) ->
  int64_safe self (Nat.max h w) ->
  unscramble self (scramble self img).1 (Some (scramble self img).2) = Ok img
  /\ crop (scramble self img).2.1 (scramble self img).2.2 (nd_rows img)
     = nd_rows img.
Proof.
  destruct img as [shape rows]. intros Hws Hshape Hsafe.
  cbn [nd_shape] in Hshape. subst shape.
  destruct Hws as [Hh Hrows]. cbn [nd_shape nd_rows] in Hh, Hrows.
  assert (Forall (fun row => length row = w) rows) as Hw
    by (eapply Forall_impl; [exact Hrows|]; by intros row [? _]).
  unfold scramble, unscramble. cbn [nd_shape nd_rows fst snd].
  rewrite Nat.ltb_irrefl, andb_false_r.
  rewrite (iter_ext (scatter (Nat.max h w) (Nat.max h w) c
                       (forward_target self (Nat.max h w)))
                    (scatter (Nat.max h w) (Nat.max h w) c
                       (cat_map self (Nat.max h w))))
    by (intros g; by apply scatter_forward_exact).
  rewrite (iter_ext (scatter (Nat.max h w) (Nat.max h w) c
                       (inverse_target self (Nat.max h w)))
                    (scatter (Nat.max h w) (Nat.max h w) c
                       (cat_map_inverse self (Nat.max h w))))
    by (intros g; by apply scatter_inverse_exact).
  rewrite iter_inverse_forward by (by apply is_grid_pad).
  rewrite crop_pad by done.
  rewrite (crop_id h w) by done.
  split; [|done].
  rewrite (Nat.min_l h), (Nat.min_l w) by lia. done.
Qed.

Lemma scramble_unscramble_round_trip_witness :
  unscramble {| a := 1; b := 1; iterations := 10 |}
    (scramble {| a := 1; b := 1; iterations := 10 |} sample_image).1
    (Some (scramble {| a := 1; b := 1; iterations := 10 |} sample_image).2)
  = Ok sample_image /\
  crop (scramble {| a := 1; b := 1; iterations := 10 |} sample_image).2.1
       (scramble {| a := 1; b := 1; iterations := 10 |} sample_image).2.2
       (nd_rows sample_image)
  = nd_rows sample_image.
Proof.
  apply (scramble_unscramble_round_trip
           {| a := 1; b := 1; iterations := 10 |} sample_image 1 2 3).
  - split; [reflexivity|]. repeat constructor.
  - reflexivity.
  - reflexivity.
Defined.

(** A 3 x 3 image with one channel. *)
Definition small_square : ndarray3 :=
  {| nd_shape := (3%nat, 3%nat, 1%nat);
     nd_rows := [[[1]; [2]; [3]]; [[4]; [5]; [6]]; [[7]; [8]; [9]]] |}.

(** C8, the claim as stated fails: with [a = 1], [b = 2^62] and one
    iteration on a 3 x 3 image, the products [b * yy] and [(a*b + 1) * yy]
    wrap around in int64 for [yy = 2]; [unscramble] then sends two pixels to
    the position [(1, 0)] and none to [(1, 1)], and does not give the image
    back. *)
Lemma scramble_unscramble_wraps_around :
  well_shaped small_square /\
  unscramble {| a := 1; b := 2 ^ 62; iterations := 1 |}
    (scramble {| a := 1; b := 2 ^ 62; iterations := 1 |} small_square).1
    (Some (scramble {| a := 1; b := 2 ^ 62; iterations := 1 |}
             small_square).2)
  = Ok {| nd_shape := (3%nat, 3%nat, 1%nat);
          nd_rows := [[[1]; [2]; [3]]; [[4]; [0]; [6]]; [[8]; [9]; [7]]] |} /\
  {| nd_shape := (3%nat, 3%nat, 1%nat);
     nd_rows := [[[1]; [2]; [3]]; [[4]; [0]; [6]]; [[8]; [9]; [7]]] |}
  <> small_square.
Proof.
  split; [split; [reflexivity|repeat constructor]|].
  split; [vm_compute; reflexivity|discriminate].
Qed.

End ScrambleRoundTrip.

(** ** The moduli generator *)

Lemma moduli_gcd_spec (a b : Z) :
  0 <= a -> 0 <= b -> ModuliGen.gcd a b = Z.gcd a b.
Proof.
  funelim (ModuliGen.gcd a b); intros Ha Hb.
  - subst. rewrite Z.gcd_0_r. lia.
  - rewrite H; [|lia|].
    + rewrite Z.gcd_mod_r. apply Z.gcd_comm.
    + pose proof (Z.mod_pos_bound a b ltac:(lia)). lia.
Qed.

Lemma is_coprime_spec (num : Z) (l : list Z) :
  0 <= num -> Forall (fun m => 0 <= m) l ->
  ModuliGen.is_coprime num l = true ->
  Forall (fun m => Z.gcd num m = 1) l.
Proof.
  intros Hnum Hl Hc. unfold ModuliGen.is_coprime in Hc.
  rewrite forallb_forall in Hc.
  apply Forall_forall. intros m Hm.
  rewrite <- moduli_gcd_spec; [|done|].
  - apply Z.eqb_eq, Hc. by apply list_elem_of_In.
  - rewrite Forall_forall in Hl. by apply Hl.
Qed.

Lemma pairwise_coprime_perm (l k : list Z) :
  l ≡ₚ k -> pairwise_coprime l -> pairwise_coprime k.
Proof.
  intros Hperm. apply pairwise_coprime_submseteq. by rewrite Hperm.
Qed.

(** What the greedy search keeps true of the moduli collected so far. *)
Definition collected (n : Z) (l : list Z) : Prop :=
  pairwise_coprime l /\ Forall (fun m => 257 <= m) l /\
  Z.of_nat (length l) <= n.

Lemma greedy_collected (rounds : nat) (n current_start : Z) :
  forall (candidate : Z) (l : list Z),
    257 <= candidate -> collected n l ->
    collected n (ModuliGen.greedy rounds n current_start candidate l).
Proof.
  induction rounds as [|rounds IH]; intros candidate l Hc Hl; simpl; [done|].
  destruct (Z.ltb_spec (Z.of_nat (length l)) n) as [Hlen|]; [|done].
  assert (collected n (if ModuliGen.is_coprime candidate l
                       then l ++ [candidate] else l)) as Hl'.
  { destruct (ModuliGen.is_coprime candidate l) eqn:Hcop; [|done].
    destruct Hl as (Hpc & Hge & _). repeat split.
    - apply (pairwise_coprime_perm (candidate :: l));
        [by rewrite Permutation_app_comm|].
      split; [|done]. apply is_coprime_spec; [lia| |done].
      eapply Forall_impl; [exact Hge|]. intros m Hm. simpl in Hm. lia.
    - apply Forall_app. split; [done|]. by constructor.
    - rewrite length_app. simpl. lia. }
  destruct (candidate + 1 - current_start >? 2000); [done|].
  apply IH; [lia|done].
Qed.


Arguments ModuliGen.greedy : simpl never.
Arguments ModuliGen.outer_round : simpl never.







(** *** Termination: a faster run of the search *)






















Lemma search_floor_stuck (fuel : nat) (n t : Z) :
  forall current_start,
    (forall s, current_start <= s ->
               exists s', ModuliGen.outer_round n t 255 s = inl s' /\ s <= s') ->
    ModuliGen.outer_loop fuel n t 255 current_start = None.
Proof.
  induction fuel as [|fuel IH]; intros start Hstuck;
    cbn [ModuliGen.outer_loop]; [done|].
  destruct (Hstuck start ltac:(lia)) as (s' & -> & Hs').
  apply IH. intros s Hs. apply Hstuck. lia.
Qed.

(** With [t = 1] the slice [moduli[-(t-1):]] is [moduli[-0:]], the whole
    list, and the bound can never hold. *)
Lemma outer_round_threshold_one (n current_start : Z) :
  1 <= n -> 257 <= current_start ->
  exists s', ModuliGen.outer_round n 1 255 current_start = inl s' /\
             current_start <= s'.
Proof.
  intros Hn Hs. unfold ModuliGen.outer_round.
  set (g := ModuliGen.greedy 2001 n current_start current_start []).
  assert (collected n g) as (Hpc & Hge & Hlen).
  { apply greedy_collected; [lia|]. repeat split; [done|]. cbn [length]. lia. }
  clearbody g.
  destruct (Z.ltb_spec (Z.of_nat (length g)) n) as [|Hlen'];
    [eexists; split; [done|lia]|].
  set (l := merge_sort Z.le g).
  assert (l ≡ₚ g) as Hperm by apply merge_sort_Permutation.
  assert (Forall (fun m => 255 < m) l) as Hl.
  { rewrite Hperm. eapply Forall_impl; [exact Hge|].
    intros m Hm. cbv beta in Hm. lia. }
  assert (Z.of_nat (length l) = n) as Hn' by (rewrite Hperm; lia).
  clearbody l. destruct l as [|m1 rest]; [simpl in Hn'; lia|].
  apply Forall_cons in Hl as [Hm1 Hrest].
  pose proof (list_prod_pos rest Hrest) as Hpos.
  change (slice_to (m1 :: rest) 1) with [m1].
  change (slice_from (m1 :: rest) (- (1 - 1))) with (m1 :: rest).
  rewrite !reduce_mul_prod by done.
  change (list_prod [m1]) with (m1 * 1).
  change (list_prod (m1 :: rest)) with (m1 * list_prod rest).
  destruct (Z.gtb_spec (m1 * 1) (255 * (m1 * list_prod rest))) as [Hgt|];
    [nia|].
  eexists; split; [done|lia].
Qed.


(** With [t = 1] no call returns: a slip of the slice, which takes all the
    moduli for the [t - 1 = 0] largest ones. *)
Lemma threshold_one_never_returns (fuel : nat) (n : Z) :
  1 <= n -> ModuliGen.generate_secure_moduli fuel n 1 = None.
Proof.
  intros Hn. apply search_floor_stuck.
  intros s Hs. apply outer_round_threshold_one; lia.
Qed.




(** ** Threshold signatures: bounds on the responses *)

Lemma bind_Ok_inv {A B} (m : res A) (k : A -> res B) (r : B) :
  (x ← m; k x) = Ok r -> exists a, m = Ok a /\ k a = Ok r.
Proof. destruct m as [a|e]; [eauto|discriminate]. Qed.

Lemma rmap_Forall2 {A B} (f : A -> res B) (l : list A) (r : list B) :
  rmap f l = Ok r -> Forall2 (fun x y => f x = Ok y) l r.
Proof.
  revert r. induction l as [|x l IH]; intros r; simpl.
  - intros [= <-]. constructor.
  - intros (y & Hy & H)%bind_Ok_inv. apply bind_Ok_inv in H as (ys & Hys & H).
    apply Ok_inj in H as <-. constructor; [done|by apply IH].
Qed.

(** A loop whose every round keeps an invariant indexed by a budget that
    the round may raise by [d x]. *)
Lemma rfold_budget {A S} (Inv : Z -> S -> Prop) (d : A -> Z)
    (f : S -> A -> res S) (l : list A) :
  (forall B s x s', x ∈ l -> Inv B s -> f s x = Ok s' -> Inv (B + d x) s') ->
  forall B s s',
    Inv B s -> rfold f l s = Ok s' -> Inv (B + list_sum (map d l)) s'.
Proof.
  induction l as [|x l IH]; intros Hstep B s s' Hs; simpl.
  - intros [= <-]. by rewrite Z.add_0_r.
  - intros (s1 & Hs1 & Hrest)%bind_Ok_inv.
    replace (B + (d x + list_sum (map d l)))
      with ((B + d x) + list_sum (map d l)) by lia.
    apply (IH (fun B s x s' Hin => Hstep B s x s' (list_elem_of_further _ _ _ Hin))
              (B + d x) s1 s'); [|done].
    apply (Hstep B s x s1); [by left|done|done].
Qed.

(** The sum of the absolute values of a list. *)
Definition l1_norm (l : list Z) : Z := list_sum (map Z.abs l).

Lemma l1_norm_nonneg (l : list Z) : 0 <= l1_norm l.
Proof.
  unfold l1_norm. induction l as [|x l IH]; simpl; [done|].
  unfold list_sum in *. simpl. lia.
Qed.

Lemma l1_norm_insert (l : list Z) (i : nat) (x v : Z) :
  l !! i = Some x -> l1_norm (<[i := v]> l) = l1_norm l - Z.abs x + Z.abs v.
Proof.
  revert i. induction l as [|y l IH]; intros [|i] Hi; simpl in *; try done.
  - injection Hi as ->. unfold l1_norm, list_sum. simpl. lia.
  - unfold l1_norm, list_sum in *. simpl. rewrite (IH i Hi). lia.
Qed.

Lemma l1_norm_elem (l : list Z) (x : Z) : x ∈ l -> Z.abs x <= l1_norm l.
Proof.
  induction 1 as [x l|x y l Hx IH]; unfold l1_norm, list_sum in *; simpl.
  - pose proof (l1_norm_nonneg l) as H. unfold l1_norm, list_sum in H. lia.
  - lia.
Qed.

Lemma l1_norm_replicate_0 (n : nat) : l1_norm (replicate n 0) = 0.
Proof.
  induction n as [|n IH]; [done|].
  unfold l1_norm, list_sum in *. simpl. by rewrite IH.
Qed.

(** [res] holds residues modulo Q of integers whose absolute values sum up
    to at most [B]. *)
Definition tracks (B : Z) (result : list Z) : Prop :=
  length result = Config.N /\
  exists ghost : list Z,
    Forall2 (fun x g => (x - g) mod Config.Q = 0) result ghost /\
    l1_norm ghost <= B.

Lemma Q_pos : 0 < Config.Q.
Proof. reflexivity. Qed.

Lemma cong_add_mod (x g v w : Z) :
  (x - g) mod Config.Q = 0 -> (v - w) mod Config.Q = 0 ->
  ((x + v) mod Config.Q - (g + w)) mod Config.Q = 0.
Proof.
  pose proof Q_pos as HQ. intros H1 H2.
  apply Z.mod_divide in H1 as [k1 H1]; [|lia].
  apply Z.mod_divide in H2 as [k2 H2]; [|lia].
  apply Z.mod_divide; [lia|].
  rewrite (Z.mod_eq (x + v)) by lia.
  exists (k1 + k2 - (x + v) / Config.Q). lia.
Qed.

Lemma cong_mul_mod (a b : Z) :
  (((a mod Config.Q) * (b mod Config.Q)) mod Config.Q - a * b) mod Config.Q = 0.
Proof.
  pose proof Q_pos as HQ.
  rewrite <- Z.mul_mod by lia. rewrite Zminus_mod, Z.mod_mod by lia.
  rewrite Z.sub_diag. apply Z.mod_0_l. lia.
Qed.

Lemma cong_opp (v w : Z) :
  (v - w) mod Config.Q = 0 -> (- v - - w) mod Config.Q = 0.
Proof.
  pose proof Q_pos as HQ. intros H.
  apply Z.mod_divide in H as [k H]; [|lia].
  apply Z.mod_divide; [lia|]. exists (- k). lia.
Qed.

Lemma tracks_update (B : Z) (result : list Z) (k : nat) (r v w : Z) :
  tracks B result -> result !! k = Some r ->
  (v - w) mod Config.Q = 0 ->
  tracks (B + Z.abs w) (<[k := (r + v) mod Config.Q]> result).
Proof.
  intros (Hlen & ghost & Hcong & Hl1) Hr Hv. split; [by rewrite length_insert|].
  destruct (Forall2_lookup_l _ _ _ _ _ Hcong Hr) as (g & Hg & Hrg).
  exists (<[k := g + w]> ghost). split.
  - apply Forall2_insert; [done|]. by apply cong_add_mod.
  - rewrite (l1_norm_insert _ _ g) by done. lia.
Qed.

Section Polymul.

Variable poly_a poly_b : list Z.
Variable eta : Z.
Hypothesis b_small : Forall (fun x => Z.abs x <= eta) poly_b.

Lemma polymul_step_tracks (i : nat) (B : Z) (result : list Z) (j : nat)
    (result' : list Z) :
  j ∈ seq 0 Config.N ->
  tracks B result ->
  polymul_step poly_a poly_b i result j = Ok result' ->
  tracks (B + Z.abs (nth i poly_a 0) * eta) result'.
Proof.
  intros _ Htr. unfold polymul_step.
  intros (a0 & Ha & H)%bind_Ok_inv. apply bind_Ok_inv in H as (b0 & Hb & H).
  unfold getitem in Ha, Hb.
  destruct (poly_a !! i) as [a0'|] eqn:Hai; [|done]. apply Ok_inj in Ha as ->.
  destruct (poly_b !! j) as [b0'|] eqn:Hbj; [|done]. apply Ok_inj in Hb as ->.
  rewrite (nth_lookup_Some _ _ _ _ Hai).
  assert (Z.abs b0 <= eta) as Hb0.
  { rewrite Forall_forall in b_small. apply b_small.
    by eapply list_elem_of_lookup_2. }
  assert (Z.abs (a0 * b0) <= Z.abs a0 * eta) as Hprod
    by (rewrite Z.abs_mul; pose proof (Z.abs_nonneg a0); nia).
  destruct (i + j <? Config.N)%nat.
  - apply bind_Ok_inv in H as (r & Hr & H). unfold getitem in Hr.
    destruct (result !! (i + j)%nat) as [r'|] eqn:Hlk; [|done].
    apply Ok_inj in Hr as ->. apply Ok_inj in H as <-.
    destruct (tracks_update B result (i + j) r _ (a0 * b0) Htr Hlk
                (cong_mul_mod a0 b0)) as (Hlen & ghost & Hcong & Hl1).
    split; [done|]. exists ghost. split; [done|lia].
  - apply bind_Ok_inv in H as (r & Hr & H). unfold getitem in Hr.
    destruct (result !! (i + j - Config.N)%nat) as [r'|] eqn:Hlk; [|done].
    apply Ok_inj in Hr as ->. apply Ok_inj in H as <-.
    replace (r - (a0 mod Config.Q * (b0 mod Config.Q)) mod Config.Q)
      with (r + - ((a0 mod Config.Q * (b0 mod Config.Q)) mod Config.Q)) by lia.
    destruct (tracks_update B result (i + j - Config.N) r _ (- (a0 * b0))
                Htr Hlk (cong_opp _ _ (cong_mul_mod a0 b0)))
      as (Hlen & ghost & Hcong & Hl1).
    split; [done|]. exists ghost. split; [done|lia].
Qed.

End Polymul.

Lemma list_sum_const {A} (c : Z) (l : list A) :
  list_sum (map (fun _ => c) l) = Z.of_nat (length l) * c.
Proof.
  induction l as [|x l IH]; [done|].
  cbn [map length]. rewrite list_sum_cons, IH. lia.
Qed.

Lemma list_sum_scale (c : Z) (l : list Z) :
  list_sum (map (fun x => c * x) l) = c * list_sum l.
Proof.
  induction l as [|x l IH]; [by rewrite Z.mul_0_r|].
  cbn [map]. rewrite !list_sum_cons, IH. lia.
Qed.

Lemma map_nth_seq (l : list Z) :
  map (fun i => nth i l 0) (seq 0 (length l)) = l.
Proof.
  apply list_eq. intros i. rewrite list_lookup_fmap.
  destruct (l !! i) as [x|] eqn:Hi.
  - rewrite lookup_seq_lt by (by eapply lookup_lt_Some). simpl.
    by rewrite (nth_lookup_Some _ _ _ _ Hi).
  - rewrite lookup_seq_ge; [done|]. by apply lookup_ge_None.
Qed.

Lemma tracks_zeros : tracks 0 (replicate Config.N 0).
Proof.
  split; [by rewrite length_replicate|].
  exists (replicate Config.N 0). split.
  - apply Forall2_replicate. reflexivity.
  - by rewrite l1_norm_replicate_0.
Qed.

Lemma tracks_final (B : Z) (result : list Z) :
  tracks B result ->
  tracks B (map (fun x => (x + Config.Q) mod Config.Q) result).
Proof.
  intros (Hlen & ghost & Hcong & Hl1). split; [by rewrite length_map|].
  exists ghost. split; [|done].
  apply Forall2_fmap_l. eapply Forall2_impl; [exact Hcong|].
  intros x g Hxg. cbv beta in *.
  pose proof Q_pos as HQ.
  apply Z.mod_divide in Hxg as [k Hk]; [|lia].
  apply Z.mod_divide; [lia|].
  rewrite (Z.mod_eq (x + Config.Q)) by lia.
  exists (k + 1 - (x + Config.Q) / Config.Q). lia.
Qed.

(** The product of [poly_a] with a polynomial whose coefficients are at
    most [eta] in absolute value: every coefficient of the result is the
    residue of an integer bounded by [N * eta] times the sum of the
    absolute values of [poly_a]. *)
Lemma polymul_rq_tracks (poly_a poly_b : list Z) (eta : Z) (r : list Z) :
  Forall (fun x => Z.abs x <= eta) poly_b ->
  length poly_a = Config.N ->
  polymul_rq poly_a poly_b = Ok r ->
  tracks (Z.of_nat Config.N * eta * l1_norm poly_a) r.
Proof.
  intros Hb Ha. unfold polymul_rq.
  intros (result & Hres & H)%bind_Ok_inv. apply Ok_inj in H as <-.
  apply tracks_final.
  pose proof (rfold_budget tracks
                (fun i => Z.of_nat Config.N * eta * Z.abs (nth i poly_a 0))
                (fun result i =>
                   rfold (polymul_step poly_a poly_b i) (seq 0 Config.N) result)
                (seq 0 Config.N)) as Houter.
  cbv beta in Houter.
  specialize (fun Hstep => Houter Hstep 0 _ _ tracks_zeros Hres).
  rewrite Z.add_0_l in Houter.
  replace (Z.of_nat Config.N * eta * l1_norm poly_a)
    with (list_sum (map (fun i => Z.of_nat Config.N * eta
                                  * Z.abs (nth i poly_a 0))
                        (seq 0 Config.N))).
  - apply Houter. intros B s i s' _ Hs Hinner.
    pose proof (rfold_budget tracks
                  (fun _ : nat => Z.abs (nth i poly_a 0) * eta)
                  (polymul_step poly_a poly_b i) (seq 0 Config.N)
                  (fun B s j s' => polymul_step_tracks poly_a poly_b eta Hb
                                     i B s j s')
                  B s s' Hs Hinner) as Hin.
    rewrite list_sum_const, length_seq in Hin.
    replace (B + Z.of_nat Config.N * eta * Z.abs (nth i poly_a 0))
      with (B + Z.of_nat Config.N * (Z.abs (nth i poly_a 0) * eta)) by lia.
    exact Hin.
  - unfold l1_norm. rewrite <- list_sum_scale, map_map.
    f_equal. rewrite <- Ha.
    transitivity (map (fun x => Z.of_nat (length poly_a) * eta * Z.abs x)
                      (map (fun i => nth i poly_a 0)
                           (seq 0 (length poly_a)))).
    + by rewrite map_map.
    + by rewrite map_nth_seq.
Qed.

Lemma tracks_coeff (B : Z) (result : list Z) (x : Z) :
  tracks B result -> x ∈ result ->
  exists g, (x - g) mod Config.Q = 0 /\ Z.abs g <= B.
Proof.
  intros (_ & ghost & Hcong & Hl1) Hx.
  apply list_elem_of_lookup in Hx as [i Hi].
  destruct (Forall2_lookup_l _ _ _ _ _ Hcong Hi) as (g & Hg & Hxg).
  exists g. split; [done|].
  pose proof (l1_norm_elem ghost g (list_elem_of_lookup_2 _ _ _ Hg)). lia.
Qed.

(** The challenge: length and weight. *)
Lemma challenge_scan_length (digest : list byte) :
  forall (c : list Z) (weight : Z),
    length (challenge_scan digest c weight) = length c.
Proof.
  induction digest as [|d rest IH]; intros c weight; simpl; [done|].
  destruct (weight >=? Config.TAU); [done|].
  destruct (c !! _) as [[| |]|]; rewrite ?IH, ?length_insert; done.
Qed.

Lemma challenge_scan_l1 (digest : list byte) :
  forall (c : list Z) (weight : Z),
    l1_norm c = weight -> weight <= Config.TAU ->
    l1_norm (challenge_scan digest c weight) <= Config.TAU.
Proof.
  induction digest as [|d rest IH]; intros c weight Hc Hw; simpl; [lia|].
  destruct (weight >=? Config.TAU) eqn:Hge; [lia|].
  destruct (c !! _) as [[| |]|] eqn:Hlk; try by apply IH.
  apply IH; [|lia].
  rewrite (l1_norm_insert _ _ 0) by done.
  destruct (Z.land _ 1 =? 0); simpl; lia.
Qed.

Section Challenge2.

Variable shake_256 : list byte -> nat -> list byte.

Lemma derive_challenge_shape (message : list byte) (W : list (list Z))
    (ts : Z) (c : list Z) :
  _derive_challenge shake_256 message W ts = Ok c ->
  length c = Config.N /\ l1_norm c <= Config.TAU.
Proof.
  unfold _derive_challenge.
  intros (input & _ & H)%bind_Ok_inv. apply Ok_inj in H as <-. split.
  - by rewrite challenge_scan_length, length_replicate.
  - apply challenge_scan_l1; [apply l1_norm_replicate_0|done].
Qed.

End Challenge2.

(** [x] is, modulo Q, an integer of absolute value at most [B]. *)
Definition near (B x : Z) : Prop :=
  exists g, (x - g) mod Config.Q = 0 /\ Z.abs g <= B.

Definition vec_near (B : Z) (v : list (list Z)) : Prop :=
  Forall (Forall (near B)) v.

Lemma near_exact (B x : Z) : Z.abs x <= B -> near B x.
Proof.
  intros Hx. exists x. split; [|done]. by rewrite Z.sub_diag.
Qed.

Lemma near_add (B1 B2 x y : Z) :
  near B1 x -> near B2 y -> near (B1 + B2) (x + y).
Proof.
  pose proof Q_pos as HQ.
  intros (g & Hg & Hgb) (h & Hh & Hhb). exists (g + h). split; [|lia].
  apply Z.mod_divide in Hg as [k1 Hk1]; [|lia].
  apply Z.mod_divide in Hh as [k2 Hk2]; [|lia].
  apply Z.mod_divide; [lia|]. exists (k1 + k2). lia.
Qed.

Lemma near_add_mod (B1 B2 x y : Z) :
  near B1 x -> near B2 y -> near (B1 + B2) ((x + y) mod Config.Q).
Proof.
  intros (g & Hg & Hgb) (h & Hh & Hhb). exists (g + h). split; [|lia].
  by apply cong_add_mod.
Qed.

(** Centring recovers the small representative. *)
Lemma center_mod_near (B x : Z) :
  near B x -> 2 * B < Config.Q ->
  Z.abs (LatticeUtils.center_mod x Config.Q) <= B.
Proof.
  pose proof Q_pos as HQ.
  intros (g & Hg & Hgb) HB. unfold LatticeUtils.center_mod.
  apply Z.mod_divide in Hg as [k Hk]; [|lia].
  assert (x mod Config.Q = g mod Config.Q) as ->.
  { replace x with (g + k * Config.Q) by lia. apply Z_mod_plus_full. }
  assert (Config.Q / 2 = 4190208) as Hhalf by reflexivity.
  assert (Config.Q = 8380417) as HQv by reflexivity.
  destruct (Z_lt_le_dec g 0) as [Hneg|Hpos].
  - assert (g mod Config.Q = g + Config.Q) as ->.
    { symmetry. apply (Z.mod_unique_pos _ _ (-1)); lia. }
    destruct (_ >? _) eqn:Hcmp; lia.
  - rewrite Z.mod_small by lia.
    destruct (_ >? _) eqn:Hcmp; lia.
Qed.

Lemma vec_near_zeros (K N : nat) : vec_near 0 (replicate K (replicate N 0)).
Proof.
  apply Forall_replicate, Forall_replicate. by apply near_exact.
Qed.

Lemma vec_near_add (B1 B2 : Z) (u v : list (list Z)) :
  vec_near B1 u -> vec_near B2 v -> vec_near (B1 + B2) (vec_add u v).
Proof.
  intros Hu Hv. apply Forall_forall. intros p Hp.
  apply elem_of_lookup_zip_with in Hp as (i & pu & pv & -> & Hpu & Hpv).
  apply Forall_forall. intros x Hx.
  apply elem_of_lookup_zip_with in Hx as (j & a & b & -> & Ha & Hb).
  unfold vec_near in Hu, Hv. rewrite Forall_forall in Hu, Hv.
  specialize (Hu pu (list_elem_of_lookup_2 _ _ _ Hpu)).
  specialize (Hv pv (list_elem_of_lookup_2 _ _ _ Hpv)).
  rewrite Forall_forall in Hu, Hv.
  apply near_add; [apply Hu|apply Hv]; by eapply list_elem_of_lookup_2.
Qed.

Lemma vec_near_sum (B : Z) (shares : list (list (list Z))) :
  Forall (vec_near B) shares ->
  forall (B0 : Z) (acc : list (list Z)),
    vec_near B0 acc ->
    vec_near (B0 + Z.of_nat (length shares) * B) (fold_left vec_add shares acc).
Proof.
  induction 1 as [|sh shares Hsh _ IH]; intros B0 acc Hacc.
  - simpl. by rewrite Z.add_0_r.
  - cbn [fold_left length].
    replace (B0 + Z.of_nat (S (length shares)) * B)
      with ((B0 + B) + Z.of_nat (length shares) * B) by lia.
    apply IH. by apply vec_near_add.
Qed.

(** The maximum loops. *)
Lemma max_abs_bound (B : Z) (poly : list Z) :
  poly <> [] -> Forall (fun c => Z.abs c <= B) poly ->
  exists m, LatticeUtils.max_abs poly = Ok m /\ 0 <= m <= B.
Proof.
  destruct poly as [|c cs]; [done|]. intros _ Hall.
  apply Forall_cons in Hall as [Hc Hcs]. simpl. eexists. split; [done|].
  assert (0 <= Z.abs c <= B) as Hinit by lia.
  revert Hinit. generalize (Z.abs c).
  induction Hcs as [|x cs Hx _ IH]; intros m Hm; simpl; [done|].
  apply IH. destruct (_ >? _); lia.
Qed.

Lemma vec_infinity_norm_bound (B : Z) (vec : list (list Z)) :
  0 <= B ->
  Forall (fun p => p <> [] /\ Forall (fun c => Z.abs c <= B) p) vec ->
  exists n, LatticeUtils.vec_infinity_norm vec = Ok n /\ 0 <= n <= B.
Proof.
  intros HB Hall. unfold LatticeUtils.vec_infinity_norm.
  assert (0 <= 0 <= B) as Hinit by lia.
  revert Hinit. generalize 0 at 2 3 4.
  induction Hall as [|p vec [Hp1 Hp2] _ IH]; intros m Hm; simpl.
  - by exists m.
  - destruct (max_abs_bound B p Hp1 Hp2) as (pm & -> & Hpm). rsimpl.
    apply IH. destruct (_ >? _); lia.
Qed.

Lemma near_mono (B1 B2 x : Z) : B1 <= B2 -> near B1 x -> near B2 x.
Proof. intros HB (g & Hg & Hgb). exists g. split; [done|lia]. Qed.

Lemma rmap_length {A B} (f : A -> res B) (l : list A) (r : list B) :
  rmap f l = Ok r -> length r = length l.
Proof. intros H%rmap_Forall2. symmetry. by eapply Forall2_length. Qed.

Lemma accumulate_length (K N : nat) (shares : list (list (list Z)))
    (r : list (list Z)) :
  accumulate K N shares = Ok r -> length r = K.
Proof.
  unfold accumulate. intros H.
  refine (rfold_budget (fun _ s => length s = K) (fun _ => 0) _ shares _
            0 _ r _ H).
  - intros _ s x s' _ _ Hs'. apply rmap_length in Hs'.
    by rewrite Hs', length_seq.
  - by rewrite length_replicate.
Qed.

Lemma matrix_vec_mul_length (matrix : list (list (list Z)))
    (vec r : list (list Z)) :
  _matrix_vec_mul matrix vec = Ok r -> length r = length matrix.
Proof.
  unfold _matrix_vec_mul. intros (row0 & _ & H)%bind_Ok_inv.
  by apply rmap_length in H.
Qed.

(** The timestamp is the last thing that is serialised. *)
Lemma challenge_input_timestamp (message : list byte) (W : list (list Z))
    (t1 t2 : Z) (input : list byte) :
  challenge_input message W t1 = Ok input ->
  0 <= t2 < 2 ^ 64 ->
  exists input', challenge_input message W t2 = Ok input'.
Proof.
  unfold challenge_input. intros (w_bytes & -> & _)%bind_Ok_inv Ht2. rsimpl.
  unfold to_bytes_le.
  change (8 * Z.of_nat 8) with 64.
  destruct (0 <=? t2) eqn:H1; [|lia].
  destruct (t2 <? 2 ^ 64) eqn:H2; [|lia].
  cbn [andb]. rsimpl. eauto.
Qed.

(** ** Threshold signatures: a signing session *)

(** The key of a party produced by [KeyGenerator.generate_party_key]: a
    matrix of [K] rows and a secret [s1] with coefficients in
    [[-ETA, ETA]]. *)
Definition honest_signer (s : ThresholdSigner) : Prop :=
  length (A s) = Config.K /\
  Forall (Forall (fun c => - Config.ETA <= c <= Config.ETA)) (s1 (sk s)).

(** The bound on the coefficients of an accepted response that follows from
    the sampling range of [y] and the size of the challenge and the key. *)
Definition response_bound : Z :=
  y_bound + Z.of_nat Config.N * Config.ETA * Config.TAU.

Lemma phase1_commitment_inv (s s' : ThresholdSigner) (ts : option Z)
    (now : Z) (ys w : list (list Z)) :
  phase1_commitment s ts now ys = Ok (s', w) ->
  y s' = Some ys /\ sk s' = sk s /\ A s' = A s /\
  length w = length (A s) /\
  timestamp s' = Some (match ts with
                       | Some t => if t =? 0 then now else t
                       | None => now
                       end).
Proof.
  unfold phase1_commitment. intros (Ay & HAy & H)%bind_Ok_inv.
  apply Ok_inj in H. injection H as <- <-. cbn.
  rewrite length_map. by rewrite (matrix_vec_mul_length _ _ _ HAy).
Qed.

Section Responses.

Variable shake_256 : list byte -> nat -> list byte.

Lemma phase2_response_accepted (self : ThresholdSigner)
    (W : list (list Z)) (message : list byte) (ys z : list (list Z)) :
  y self = Some ys -> sampled_y ys ->
  Forall (Forall (fun c => - Config.ETA <= c <= Config.ETA)) (s1 (sk self)) ->
  phase2_response shake_256 self W message = Ok (Some z) ->
  vec_shape Config.L Config.N z /\ vec_near response_bound z /\
  exists ts c,
    timestamp self = Some ts /\
    _derive_challenge shake_256 message
      (high_bits_vec (2 * Config.GAMMA2) W) ts = Ok c.
Proof.
  intros Hy [Hly Hys] Hs1. unfold phase2_response. rewrite Hy.
  intros (ts & Hts & H)%bind_Ok_inv.
  destruct (timestamp self) as [ts'|]; [|discriminate].
  apply Ok_inj in Hts as ->.
  apply bind_Ok_inv in H as (c & Hc & H).
  apply bind_Ok_inv in H as (cs & Hcs & H).
  apply bind_Ok_inv in H as (zs & Hzs & H).
  apply bind_Ok_inv in H as (mn & _ & H).
  destruct (mn >=? _); [discriminate|].
  apply bind_Ok_inv in H as (Ay & _ & H).
  apply bind_Ok_inv in H as (Ce & _ & H).
  apply bind_Ok_inv in H as (mln & _ & H).
  destruct (mln >=? _); [discriminate|].
  apply Ok_inj in H. injection H as <-.
  destruct (derive_challenge_shape shake_256 _ _ _ _ Hc) as [Hclen Hcl1].
  apply rmap_Forall2 in Hcs, Hzs.
  assert (Forall (fun zj => length zj = Config.N /\
                            Forall (near response_bound) zj) zs) as Hall.
  { eapply Forall2_Forall_r; [exact Hzs|].
    apply Forall_forall. intros j _ zj Hzj.
    apply bind_Ok_inv in Hzj as (yj & Hyj & Hzj).
    apply bind_Ok_inv in Hzj as (csj & Hcsj & Hzj).
    apply Ok_inj in Hzj as <-.
    unfold getitem in Hyj, Hcsj.
    destruct (ys !! j) as [yj'|] eqn:Hyl; [|discriminate].
    apply Ok_inj in Hyj as ->.
    destruct (cs !! j) as [csj'|] eqn:Hcl; [|discriminate].
    apply Ok_inj in Hcsj as ->.
    destruct (Forall2_lookup_r _ _ _ _ _ Hcs Hcl) as (sj & Hsj & Hmul).
    rewrite Forall_forall in Hys, Hs1.
    destruct (Hys yj (list_elem_of_lookup_2 _ _ _ Hyl)) as [Hylen Hyb].
    specialize (Hs1 sj (list_elem_of_lookup_2 _ _ _ Hsj)).
    assert (Forall (fun x => Z.abs x <= Config.ETA) sj) as Hsj'.
    { eapply Forall_impl; [exact Hs1|]. intros x Hx. cbv beta in Hx. lia. }
    pose proof (polymul_rq_tracks c sj Config.ETA csj Hsj' Hclen Hmul) as Htr.
    split.
    - unfold LatticeUtils.poly_add. rewrite length_zip_with.
      destruct Htr as [-> _]. lia.
    - apply Forall_forall. intros x Hx.
      unfold LatticeUtils.poly_add in Hx.
      apply elem_of_lookup_zip_with in Hx as (i & a & b & -> & Ha & Hb).
      apply near_add_mod.
      + apply near_exact. rewrite Forall_forall in Hyb.
        specialize (Hyb a (list_elem_of_lookup_2 _ _ _ Ha)).
        cbv beta in Hyb. lia.
      + destruct (tracks_coeff _ _ b Htr (list_elem_of_lookup_2 _ _ _ Hb))
          as (g & Hg & Hgb).
        exists g. split; [done|].
        assert (0 <= Z.of_nat Config.N * Config.ETA) by (vm_compute; discriminate).
        nia. }
  split; [|split].
  - split.
    + apply Forall2_length in Hzs. by rewrite <- Hzs, length_seq.
    + eapply Forall_impl; [exact Hall|]. by intros zj [? _].
  - eapply Forall_impl; [exact Hall|]. by intros zj [_ ?].
  - eauto.
Qed.

End Responses.

Lemma vec_infinity_norm_near (B : Z) (L N : nat) (v : list (list Z)) :
  0 <= B -> 2 * B < Config.Q -> (0 < N)%nat ->
  vec_shape L N v -> vec_near B v ->
  exists n, LatticeUtils.vec_infinity_norm (map center_poly v) = Ok n /\
            0 <= n <= B.
Proof.
  intros HB HQ HN [_ Hshape] Hnear. apply vec_infinity_norm_bound; [done|].
  apply Forall_fmap. unfold vec_near in Hnear.
  rewrite Forall_forall in Hshape, Hnear. apply Forall_forall.
  intros p Hp. specialize (Hshape p Hp). specialize (Hnear p Hp). split.
  - unfold center_poly. destruct p; [simpl in Hshape; lia|done].
  - unfold center_poly. apply Forall_fmap.
    eapply Forall_impl; [exact Hnear|].
    intros x Hx. by apply center_mod_near.
Qed.

(** C2 (as amended). A signing session of at most seven parties whose
    keys come from the key generator and whose masks come from the sampler
    of phase 1: when every party accepts in phase 2, the responses can be
    aggregated, the aggregator can derive the challenge, and
    [verify_final_signature], given the aggregated commitment, returns
    [True]. *)
Theorem threshold_signature_completeness
    (shake_256 : list byte -> nat -> list byte)
    (signers : list ThresholdSigner) (samples : list (list (list Z)))
    (ts now : Z) (message : list byte)
    (T_pub : list (list Z)) (A_matrix : list (list (list Z)))
    (committed : list (ThresholdSigner * list (list Z)))
    (W_sum : list (list Z)) (z_shares : list (list (list Z))) :
  (length signers <= 7)%nat ->
  Forall honest_signer signers ->
  Forall sampled_y samples ->
  commit_all signers samples (Some ts) now = Ok committed ->
  aggregate_w_shares (map snd committed) = Ok (Some W_sum) ->
  respond_all shake_256 committed W_sum message = Ok (map Some z_shares) ->
  exists (Z_agg : list (list Z)) (c : list Z),
    aggregate_responses z_shares = Ok (Some Z_agg) /\
    derive_challenge shake_256 message
      (high_bits_vec (2 * Config.GAMMA2) W_sum) ts = Ok c /\
    verify_final_signature shake_256 Z_agg c T_pub A_matrix message ts
      (Some W_sum) = Ok true.
Proof.
  intros Hcount Hhonest Hsamples Hcommit HW Hresp.
  (* phase 1 *)
  unfold commit_all in Hcommit. apply rmap_Forall2 in Hcommit.
  assert (Forall (fun sw =>
            (exists ys, y (fst sw) = Some ys /\ sampled_y ys) /\
            Forall (Forall (fun c => - Config.ETA <= c <= Config.ETA))
                   (s1 (sk (fst sw))) /\
            length (snd sw) = Config.K /\
            timestamp (fst sw) = Some (if ts =? 0 then now else ts))
          committed) as Hready.
  { eapply Forall2_Forall_r; [exact Hcommit|].
    apply Forall_forall. intros [s ys] Hin [s' w] Hrun.
    apply elem_of_zip_with in Hin as (s0 & ys0 & [= <- <-] & Hs & Hys).
    apply phase1_commitment_inv in Hrun as (Hy & Hsk & HA & Hw & Htime).
    cbn [fst snd] in Hy, Hsk, Hw.
    rewrite Forall_forall in Hhonest. rewrite Forall_forall in Hsamples.
    destruct (Hhonest s Hs) as [HAK Hs1]. cbn [fst snd].
    rewrite Hsk, Hw, HAK. repeat split; eauto. }
  assert (length committed <= 7)%nat as Hcount'.
  { apply Forall2_length in Hcommit. rewrite <- Hcommit, length_zip_with. lia. }
  (* phase 2 *)
  unfold respond_all in Hresp. apply rmap_Forall2 in Hresp.
  assert (length z_shares = length committed) as Hlen.
  { apply Forall2_length in Hresp. by rewrite length_map in Hresp. }
  assert (Forall (fun z =>
            vec_shape Config.L Config.N z /\ vec_near response_bound z /\
            exists c,
              _derive_challenge shake_256 message
                (high_bits_vec (2 * Config.GAMMA2) W_sum)
                (if ts =? 0 then now else ts) = Ok c) z_shares) as Hgood.
  { apply Forall2_fmap_r in Hresp.
    eapply Forall2_Forall_r; [exact Hresp|].
    eapply Forall_impl; [exact Hready|].
    intros sw ((ys & Hy & Hys) & Hs1 & _ & Htime) z Hz.
    destruct (phase2_response_accepted shake_256 _ _ _ ys z Hy Hys Hs1 Hz)
      as (Hshape & Hnear & ts' & c & Hts' & Hc).
    rewrite Htime in Hts'. injection Hts' as <-. eauto. }
  (* the aggregated commitment has K rows *)
  assert (length W_sum = Config.K /\ committed <> []) as [HWlen Hne].
  { destruct committed as [|[s0 w0] rest]; [discriminate|]. split; [|done].
    apply Forall_cons in Hready as [(_ & _ & Hw0 & _) _].
    cbn [map snd aggregate_w_shares] in HW. cbn [snd] in Hw0.
    apply bind_Ok_inv in HW as (w00 & _ & HW).
    apply bind_Ok_inv in HW as (w_sum & Hacc & HW).
    apply Ok_inj in HW. injection HW as <-.
    rewrite length_map. apply accumulate_length in Hacc. lia. }
  (* aggregation of the responses *)
  destruct z_shares as [|z0 rest] eqn:Hzs;
    [destruct committed; [done|discriminate]|].
  rewrite <- Hzs in *.
  assert (Forall (vec_shape Config.L Config.N) z_shares) as Hshapes
    by (eapply Forall_impl; [exact Hgood|]; by intros z [? _]).
  assert (Forall (vec_near response_bound) z_shares) as Hnears
    by (eapply Forall_impl; [exact Hgood|]; by intros z (_ & ? & _)).
  destruct (accumulate_ok Config.L Config.N z_shares Hshapes) as [Hacc HZshape].
  set (Z_agg := fold_left vec_add z_shares
                  (replicate Config.L (replicate Config.N 0))) in *.
  assert (aggregate_responses z_shares = Ok (Some Z_agg)) as Hagg.
  { rewrite Hzs in Hshapes |- *. apply Forall_cons in Hshapes as [[Hl0 Hp0] _].
    unfold aggregate_responses.
    destruct z0 as [|z00 z0']; [discriminate|].
    apply Forall_cons in Hp0 as [Hn0 _].
    cbn [getitem lookup list_lookup]. rsimpl.
    rewrite Hl0, Hn0. rewrite <- Hzs. by rewrite Hacc. }
  (* the challenge *)
  assert (exists c, derive_challenge shake_256 message
                      (high_bits_vec (2 * Config.GAMMA2) W_sum) ts = Ok c)
    as [c Hc].
  { rewrite Hzs in Hgood. apply Forall_cons in Hgood as [(_ & _ & c' & Hc') _].
    rewrite <- derive_challenge_same.
    destruct (ts =? 0) eqn:Hts0; [|eauto].
    apply Z.eqb_eq in Hts0 as ->.
    unfold _derive_challenge in Hc' |- *.
    apply bind_Ok_inv in Hc' as (input & Hin & _).
    destruct (challenge_input_timestamp _ _ _ 0 _ Hin) as [input' ->]; [lia|].
    rsimpl. eauto. }
  exists Z_agg, c. split; [done|]. split; [done|].
  (* verification *)
  assert (vec_near (Z.of_nat (length z_shares) * response_bound) Z_agg)
    as HZnear.
  { pose proof (vec_near_sum response_bound z_shares Hnears 0 _
                  (vec_near_zeros Config.L Config.N)) as H.
    by rewrite Z.add_0_l in H. }
  assert (response_bound = 543744) as Hrb by reflexivity.
  assert (vec_near 3806208 Z_agg) as HZnear'.
  { eapply Forall_impl; [exact HZnear|]. intros p Hp.
    eapply Forall_impl; [exact Hp|]. intros x. apply near_mono. lia. }
  destruct (vec_infinity_norm_near 3806208 Config.L Config.N Z_agg)
    as (norm & Hnorm & Hnb); [lia|reflexivity|unfold Config.N; lia|done|done|].
  unfold verify_final_signature. rewrite Hnorm. rsimpl.
  change (Config.GAMMA1 - Config.BETA) with 4189958.
  destruct (norm >=? 4189958) eqn:Hcmp; [lia|].
  unfold hash_check.
  assert (length (high_bits_vec (2 * Config.GAMMA2) W_sum) = 2%nat) as HHB
    by (unfold high_bits_vec; by rewrite length_map).
  destruct (high_bits_vec (2 * Config.GAMMA2) W_sum) as [|p0 [|p1 hb]] eqn:Hhb;
    [discriminate..|].
  cbn [getitem lookup list_lookup]. rsimpl.
  rewrite Hc. rsimpl. by rewrite bool_decide_eq_true_2.
Qed.

(** *** Products with the zero polynomial *)

Definition zero_poly : list Z := replicate Config.N 0.

Lemma fold_left_const {A S} (l : list A) (s : S) :
  fold_left (fun s _ => s) l s = s.
Proof. by induction l. Qed.

Lemma polymul_step_zero (poly_a poly_b : list Z) (i j : nat) :
  (i < Config.N)%nat -> (j < Config.N)%nat ->
  length poly_a = Config.N -> length poly_b = Config.N ->
  poly_a = zero_poly \/ poly_b = zero_poly ->
  polymul_step poly_a poly_b i zero_poly j = Ok zero_poly.
Proof.
  intros Hi Hj Ha Hb Hzero. unfold polymul_step.
  destruct (lookup_lt_is_Some_2 poly_a i) as [a0 Ha0]; [lia|].
  destruct (lookup_lt_is_Some_2 poly_b j) as [b0 Hb0]; [lia|].
  rewrite (getitem_lookup _ _ _ Ha0), (getitem_lookup _ _ _ Hb0). rsimpl.
  assert ((a0 mod Config.Q * (b0 mod Config.Q)) mod Config.Q = 0) as ->.
  { destruct Hzero as [-> | ->].
    - apply lookup_replicate in Ha0 as [-> _]. done.
    - apply lookup_replicate in Hb0 as [-> _].
      by rewrite Z.mod_0_l, Z.mul_0_r.
      }
  destruct (i + j <? Config.N)%nat eqn:Hlt.
  - apply Nat.ltb_lt in Hlt.
    rewrite (getitem_lookup zero_poly (i + j) 0)
      by (by apply lookup_replicate_2).
    rsimpl. rewrite list_insert_id; [done|]. by apply lookup_replicate_2.
  - apply Nat.ltb_ge in Hlt.
    rewrite (getitem_lookup zero_poly (i + j - Config.N) 0)
      by (apply lookup_replicate_2; lia).
    rsimpl. rewrite list_insert_id; [done|]. apply lookup_replicate_2; lia.
Qed.

Lemma polymul_rq_zero (poly_a poly_b : list Z) :
  length poly_a = Config.N -> length poly_b = Config.N ->
  poly_a = zero_poly \/ poly_b = zero_poly ->
  polymul_rq poly_a poly_b = Ok zero_poly.
Proof.
  intros Ha Hb Hzero. unfold polymul_rq.
  destruct (rfold_ok (fun s => s = zero_poly)
              (fun result i =>
                 rfold (polymul_step poly_a poly_b i) (seq 0 Config.N) result)
              (fun s _ => s) (seq 0 Config.N) zero_poly eq_refl) as [Hrun _].
  - intros s i -> Hi. split; [|done].
    apply elem_of_seq in Hi.
    destruct (rfold_ok (fun s => s = zero_poly)
                (polymul_step poly_a poly_b i) (fun s _ => s)
                (seq 0 Config.N) zero_poly eq_refl) as [Hin _].
    + intros s j -> Hj. split; [|done]. apply elem_of_seq in Hj.
      apply polymul_step_zero; [lia|lia|done..].
    + by rewrite Hin, fold_left_const.
  - fold zero_poly. rewrite Hrun, fold_left_const. rsimpl.
    unfold zero_poly. by rewrite fmap_replicate.
Qed.

Definition zero_matrix : list (list (list Z)) :=
  replicate Config.K (replicate Config.L zero_poly).

Lemma matrix_vec_mul_zero (vec : list (list Z)) :
  length vec = Config.L -> Forall (fun p => length p = Config.N) vec ->
  _matrix_vec_mul zero_matrix vec = Ok (replicate Config.K zero_poly).
Proof.
  intros Hlen Hvec. unfold _matrix_vec_mul, zero_matrix.
  change (getitem (replicate Config.K (replicate Config.L zero_poly)) 0)
    with (Ok (replicate Config.L zero_poly)).
  rsimpl. rewrite length_replicate.
  rewrite (rmap_ok _ (fun _ => zero_poly)).
  - by rewrite fmap_replicate.
  - intros row Hrow. apply elem_of_replicate in Hrow as [-> _].
    destruct (rfold_ok (fun s => s = zero_poly)
                (fun row_sum j =>
                   mij ← getitem (replicate Config.L zero_poly) j;
                   vj ← getitem vec j;
                   prod ← polymul_rq mij vj;
                   Ok (zip_with Z.add row_sum prod))
                (fun s _ => s) (seq 0 Config.L) zero_poly eq_refl) as [Hrun _].
    + intros s j -> Hj. split; [|done]. apply elem_of_seq in Hj.
      rewrite (getitem_lookup (replicate Config.L zero_poly) j zero_poly)
        by (apply lookup_replicate_2; lia).
      destruct (lookup_lt_is_Some_2 vec j) as [vj Hvj]; [lia|].
      rewrite (getitem_lookup _ _ _ Hvj). rsimpl.
      rewrite Forall_forall in Hvec.
      rewrite (polymul_rq_zero zero_poly vj);
        [|apply length_replicate
         |apply Hvec; by eapply list_elem_of_lookup_2|by left].
      rsimpl. unfold zero_poly. by rewrite zip_with_replicate.
    + fold zero_poly. by rewrite Hrun, fold_left_const.
Qed.

(** *** Eight parties *)

(** The largest mask that phase 1 can draw. *)
Definition loud_mask : list (list Z) :=
  replicate Config.L (replicate Config.N y_bound).

(** A party whose key is the zero vector, which is in the range of the
    key sampler. *)
Definition silent_signer (Am : list (list (list Z))) : ThresholdSigner :=
  {| sk := {| rho := []; s1 := [zero_poly; zero_poly];
              s2 := [zero_poly; zero_poly] |};
     index := 0; A := Am; y := None; w_share := None; timestamp := None |}.

Definition loud_total : list (list Z) :=
  replicate Config.L (replicate Config.N (8 * y_bound)).

Lemma loud_mask_sampled : sampled_y loud_mask.
Proof.
  split; [done|]. apply Forall_replicate. split; [by rewrite length_replicate|].
  apply Forall_replicate. unfold y_bound. vm_compute. split; discriminate.
Qed.

Lemma silent_signer_honest (Am : list (list (list Z))) :
  length Am = Config.K -> honest_signer (silent_signer Am).
Proof.
  intros HA. split; [done|]. cbn [s1 sk silent_signer].
  assert (Forall (fun c => - Config.ETA <= c <= Config.ETA) zero_poly) as H0
    by (apply Forall_replicate; vm_compute; split; discriminate).
  apply Forall_cons_2; [done|]. apply Forall_cons_2; [done|]. constructor.
Qed.

Lemma loud_total_sum :
  aggregate_responses (replicate 8 loud_mask) = Ok (Some loud_total).
Proof. vm_compute. reflexivity. Qed.

Lemma loud_total_norm :
  LatticeUtils.vec_infinity_norm (map center_poly loud_total) = Ok 4190208.
Proof. vm_compute. reflexivity. Qed.

Section Silent.

Variable shake_256 : list byte -> nat -> list byte.

(** A party with the zero key answers with its mask. *)
Lemma silent_response (self : ThresholdSigner) (W : list (list Z))
    (message : list byte) (z : list (list Z)) :
  y self = Some loud_mask ->
  s1 (sk self) = [zero_poly; zero_poly] ->
  phase2_response shake_256 self W message = Ok (Some z) ->
  z = loud_mask.
Proof.
  intros Hy Hs1. unfold phase2_response. rewrite Hy, Hs1.
  intros (ts & _ & H)%bind_Ok_inv.
  apply bind_Ok_inv in H as (c & Hc & H).
  destruct (derive_challenge_shape shake_256 _ _ _ _ Hc) as [Hclen _].
  cbn [rmap] in H.
  rewrite (polymul_rq_zero c zero_poly) in H
    by (try apply length_replicate; by auto).
  rsimpl in H.
  apply bind_Ok_inv in H as (zs & Hzs & H).
  apply bind_Ok_inv in H as (mn & _ & H).
  destruct (mn >=? _); [discriminate|].
  apply bind_Ok_inv in H as (Ay & _ & H).
  apply bind_Ok_inv in H as (Ce & _ & H).
  apply bind_Ok_inv in H as (mln & _ & H).
  destruct (mln >=? _); [discriminate|].
  apply Ok_inj in H. injection H as <-.
  match type of Hzs with
  | ?run = _ =>
      assert (run = Ok loud_mask) as Hrun by (vm_compute; reflexivity)
  end.
  rewrite Hrun in Hzs. by apply Ok_inj in Hzs.
Qed.

(** Whatever the matrix and the hash function: when eight such parties, each
    with the largest mask, are all accepted, the aggregated response fails
    the norm check of the verifier. *)
Lemma silent_session_rejected (Am : list (list (list Z)))
    (message : list byte) (ts now : Z)
    (committed : list (ThresholdSigner * list (list Z)))
    (W_sum : list (list Z)) (z_shares : list (list (list Z)))
    (Z_agg : list (list Z)) (c : list Z) (T_pub : list (list Z))
    (A_matrix : list (list (list Z))) :
  commit_all (replicate 8 (silent_signer Am)) (replicate 8 loud_mask)
    (Some ts) now = Ok committed ->
  respond_all shake_256 committed W_sum message = Ok (map Some z_shares) ->
  aggregate_responses z_shares = Ok (Some Z_agg) ->
  verify_final_signature shake_256 Z_agg c T_pub A_matrix message ts
    (Some W_sum) = Ok false.
Proof.
  intros Hcommit Hresp Hagg.
  unfold commit_all in Hcommit. apply rmap_Forall2 in Hcommit.
  assert (length committed = 8%nat) as Hlen
    by (apply Forall2_length in Hcommit; by rewrite <- Hcommit).
  assert (Forall (fun sw => y (fst sw) = Some loud_mask /\
                            s1 (sk (fst sw)) = [zero_poly; zero_poly])
                 committed) as Hready.
  { eapply Forall2_Forall_r; [exact Hcommit|].
    apply Forall_forall. intros [s ys] Hin [s' w] Hrun.
    apply elem_of_zip_with in Hin as (s0 & ys0 & [= <- <-] & Hs & Hys).
    apply elem_of_replicate in Hs as [-> _].
    apply elem_of_replicate in Hys as [-> _].
    apply phase1_commitment_inv in Hrun as (Hy & Hsk & _).
    cbn [fst snd] in *. by rewrite Hsk. }
  unfold respond_all in Hresp. apply rmap_Forall2 in Hresp.
  assert (z_shares = replicate 8 loud_mask) as ->.
  { symmetry. apply replicate_as_Forall. split.
    - apply Forall2_length in Hresp. rewrite length_map in Hresp. lia.
    - apply Forall2_fmap_r in Hresp.
      eapply Forall2_Forall_r; [exact Hresp|].
      eapply Forall_impl; [exact Hready|].
      intros sw [Hy Hs1] z Hz. symmetry.
      by apply (silent_response (fst sw) W_sum message z). }
  rewrite loud_total_sum in Hagg. apply Ok_inj in Hagg. injection Hagg as <-.
  unfold verify_final_signature. rewrite loud_total_norm. reflexivity.
Qed.

End Silent.

(** With the zero matrix the eight parties are all accepted. *)
Definition silent_committed (t : Z) : ThresholdSigner :=
  {| sk := sk (silent_signer zero_matrix); index := 0; A := zero_matrix;
     y := Some loud_mask; w_share := Some (replicate Config.K zero_poly);
     timestamp := Some t |}.

Lemma silent_commitment (t now : Z) :
  t <> 0 ->
  phase1_commitment (silent_signer zero_matrix) (Some t) now loud_mask
  = Ok (silent_committed t, replicate Config.K zero_poly).
Proof.
  intros Ht. unfold phase1_commitment. cbn [A silent_signer].
  destruct loud_mask_sampled as [Hl Hp].
  rewrite matrix_vec_mul_zero;
    [|done|eapply Forall_impl; [exact Hp|]; by intros p [? _]].
  rsimpl. apply Z.eqb_neq in Ht as ->.
  assert (map center_poly (replicate Config.K zero_poly)
          = replicate Config.K zero_poly) as -> by (vm_compute; reflexivity).
  reflexivity.
Qed.

Lemma rmap_replicate {A B} (f : A -> res B) (x : A) (v : B) (n : nat) :
  f x = Ok v -> rmap f (replicate n x) = Ok (replicate n v).
Proof.
  intros Hf. induction n as [|n IH]; [done|].
  cbn [replicate rmap]. rewrite Hf, IH. done.
Qed.

Lemma silent_accepted (shake_256 : list byte -> nat -> list byte) :
  phase2_response shake_256 (silent_committed 1700000000)
    (replicate Config.K zero_poly) [x68; x69]
  = Ok (Some loud_mask).
Proof.
  unfold phase2_response. cbn [y timestamp silent_committed]. rsimpl.
  unfold _derive_challenge.
  match goal with
  | |- context [challenge_input ?m ?w ?t] =>
      assert (exists input, challenge_input m w t = Ok input) as [input ->]
        by (eexists; vm_compute; reflexivity)
  end.
  rsimpl.
  match goal with
  | |- context [challenge_scan ?d ?z 0] =>
      assert (length (challenge_scan d z 0) = Config.N) as Hc
        by (by rewrite challenge_scan_length, length_replicate);
      generalize dependent (challenge_scan d z 0)
  end.
  intros c Hc.
  cbn [rmap s1 s2 sk silent_committed silent_signer A].
  rewrite !(polymul_rq_zero c zero_poly)
    by (try apply length_replicate; by auto).
  destruct loud_mask_sampled as [Hl Hp].
  rewrite matrix_vec_mul_zero;
    [|done|eapply Forall_impl; [exact Hp|]; by intros p [? _]].
  vm_compute. reflexivity.
Qed.

Lemma silent_session_commits (count : nat) :
  commit_all (replicate count (silent_signer zero_matrix))
    (replicate count loud_mask) (Some 1700000000) 0
  = Ok (replicate count (silent_committed 1700000000,
                         replicate Config.K zero_poly)).
Proof.
  unfold commit_all. rewrite zip_with_replicate.
  apply rmap_replicate. by apply silent_commitment.
Qed.

Lemma silent_session_responds (shake_256 : list byte -> nat -> list byte)
    (count : nat) :
  respond_all shake_256
    (replicate count (silent_committed 1700000000,
                      replicate Config.K zero_poly))
    (replicate Config.K zero_poly) [x68; x69]
  = Ok (map Some (replicate count loud_mask)).
Proof.
  unfold respond_all. rewrite fmap_replicate.
  apply rmap_replicate. apply silent_accepted.
Qed.

Lemma eight_accepted_responses_fail_verification :
  Forall honest_signer (replicate 8 (silent_signer zero_matrix)) /\
  Forall sampled_y (replicate 8 loud_mask) /\
  exists committed W_sum z_shares Z_agg,
    commit_all (replicate 8 (silent_signer zero_matrix))
      (replicate 8 loud_mask) (Some 1700000000) 0 = Ok committed /\
    aggregate_w_shares (map snd committed) = Ok (Some W_sum) /\
    aggregate_responses z_shares = Ok (Some Z_agg) /\
    forall shake_256 : list byte -> nat -> list byte,
      respond_all shake_256 committed W_sum [x68; x69]
      = Ok (map Some z_shares) /\
      forall (c : list Z) (T_pub : list (list Z))
             (A_matrix : list (list (list Z))),
        verify_final_signature shake_256 Z_agg c T_pub A_matrix [x68; x69]
          1700000000 (Some W_sum) = Ok false.
Proof.
  split; [apply Forall_replicate, silent_signer_honest; reflexivity|].
  split; [apply Forall_replicate, loud_mask_sampled|].
  exists (replicate 8 (silent_committed 1700000000,
                       replicate Config.K zero_poly)),
         (replicate Config.K zero_poly), (replicate 8 loud_mask), loud_total.
  split; [apply silent_session_commits|].
  split; [vm_compute; reflexivity|].
  split; [exact loud_total_sum|].
  intros shake_256.
  split; [apply silent_session_responds|].
  intros c T_pub A_matrix.
  exact (silent_session_rejected shake_256 zero_matrix [x68; x69] 1700000000 0
           _ _ _ _ c T_pub A_matrix (silent_session_commits 8)
           (silent_session_responds shake_256 8) loud_total_sum).
Qed.

Lemma threshold_signature_completeness_witness :
  exists (Z_agg : list (list Z)) (c : list Z),
    aggregate_responses (replicate 7 loud_mask) = Ok (Some Z_agg) /\
    derive_challenge sample_digest [x68; x69]
      (high_bits_vec (2 * Config.GAMMA2) (replicate Config.K zero_poly))
      1700000000 = Ok c /\
    verify_final_signature sample_digest Z_agg c
      (replicate Config.K zero_poly) zero_matrix [x68; x69] 1700000000
      (Some (replicate Config.K zero_poly)) = Ok true.
Proof.
  apply (threshold_signature_completeness sample_digest
           (replicate 7 (silent_signer zero_matrix)) (replicate 7 loud_mask)
           1700000000 0 [x68; x69] (replicate Config.K zero_poly) zero_matrix
           (replicate 7 (silent_committed 1700000000,
                         replicate Config.K zero_poly))
           (replicate Config.K zero_poly) (replicate 7 loud_mask)).
  - simpl. lia.
  - apply Forall_replicate, silent_signer_honest. reflexivity.
  - apply Forall_replicate, loud_mask_sampled.
  - apply silent_session_commits.
  - vm_compute. reflexivity.
  - apply silent_session_responds.
Defined.

(** * Further properties of the code *)

(** ** src/src/crypto_lattice/utils.py *)

Lemma center_mod_spec (x q : Z) :
  0 < q ->
  (LatticeUtils.center_mod x q - x) mod q = 0 /\
  - (q / 2) <= LatticeUtils.center_mod x q <= q / 2.
Proof.
  intros Hq. unfold LatticeUtils.center_mod.
  pose proof (Z.mod_pos_bound x q Hq) as Hr.
  pose proof (Z.div_mod q 2 ltac:(lia)) as Hdiv.
  pose proof (Z.mod_pos_bound q 2 ltac:(lia)) as Hm2.
  destruct (x mod q >? q / 2) eqn:Hcmp.
  - split; [|lia].
    replace (x mod q - q - x) with (x mod q - x + (-1) * q) by lia.
    rewrite Z_mod_plus_full, Zminus_mod, Z.mod_mod, Z.sub_diag by lia.
    apply Z.mod_0_l. lia.
  - split; [|lia].
    rewrite Zminus_mod, Z.mod_mod, Z.sub_diag by lia. apply Z.mod_0_l. lia.
Qed.

(** X1. [center_mod] returns the representative of [x] modulo [q] of least
    absolute value, in [[-q/2, q/2]], and centring twice changes nothing. *)
Theorem center_mod_centred_representative (x q : Z) :
  0 < q ->
  (LatticeUtils.center_mod x q - x) mod q = 0 /\
  - (q / 2) <= LatticeUtils.center_mod x q <= q / 2 /\
  LatticeUtils.center_mod (LatticeUtils.center_mod x q) q
  = LatticeUtils.center_mod x q.
Proof.
  intros Hq. destruct (center_mod_spec x q Hq) as [Hcong Hrange].
  split; [done|]. split; [done|].
  unfold LatticeUtils.center_mod at 1 3.
  assert (LatticeUtils.center_mod x q mod q = x mod q) as ->.
  { apply Z.mod_divide in Hcong as [k Hk]; [|lia].
    replace (LatticeUtils.center_mod x q) with (x + k * q) by lia.
    apply Z_mod_plus_full. }
  reflexivity.
Qed.

Lemma center_mod_centred_representative_witness :
  (LatticeUtils.center_mod 8380416 8380417 - 8380416) mod 8380417 = 0 /\
  - (8380417 / 2) <= LatticeUtils.center_mod 8380416 8380417 <= 8380417 / 2 /\
  LatticeUtils.center_mod (LatticeUtils.center_mod 8380416 8380417) 8380417
  = LatticeUtils.center_mod 8380416 8380417.
Proof. apply (center_mod_centred_representative 8380416 8380417). lia. Defined.

(** X2. For a modulus [q <> 0] (at [q = 0] the source raises
    [ZeroDivisionError] in [center_mod]) and [alpha > 0], [decompose] splits
    the centred value of [r]: [r1 * alpha + r0] is [center_mod r q] and [r0]
    lies in [(-alpha/2, alpha/2]] (for an odd [alpha], in
    [[-alpha/2, alpha/2]]); [high_bits] and [low_bits] are its two
    components. *)
Theorem decompose_recombines (r alpha q : Z) :
  q <> 0 ->
  0 < alpha ->
  LatticeUtils.high_bits r alpha q * alpha + LatticeUtils.low_bits r alpha q
  = LatticeUtils.center_mod r q /\
  alpha / 2 - alpha < LatticeUtils.low_bits r alpha q <= alpha / 2 /\
  LatticeUtils.decompose r alpha q
  = (LatticeUtils.high_bits r alpha q, LatticeUtils.low_bits r alpha q).
Proof.
  intros _ Ha.
  unfold LatticeUtils.high_bits, LatticeUtils.low_bits, LatticeUtils.decompose.
  cbn [fst snd].
  set (rc := LatticeUtils.center_mod r q).
  pose proof (Z.mod_pos_bound rc alpha Ha) as Hr0.
  pose proof (Z.div_mod rc alpha ltac:(lia)) as Hdm.
  split; [|split; [|done]].
  - destruct (rc mod alpha >? alpha / 2).
    + replace (rc - (rc mod alpha - alpha)) with ((rc / alpha + 1) * alpha)
        by lia.
      rewrite Z.div_mul by lia. lia.
    + replace (rc - rc mod alpha) with ((rc / alpha) * alpha) by lia.
      rewrite Z.div_mul by lia. lia.
  - pose proof (Z.div_mod alpha 2 ltac:(lia)) as Hdiv.
    pose proof (Z.mod_pos_bound alpha 2 ltac:(lia)) as Hm2.
    destruct (rc mod alpha >? alpha / 2) eqn:Hcmp; lia.
Qed.

Lemma decompose_recombines_witness :
  LatticeUtils.high_bits 5000000 2095104 8380417 * 2095104
  + LatticeUtils.low_bits 5000000 2095104 8380417
  = LatticeUtils.center_mod 5000000 8380417 /\
  2095104 / 2 - 2095104 < LatticeUtils.low_bits 5000000 2095104 8380417
  <= 2095104 / 2 /\
  LatticeUtils.decompose 5000000 2095104 8380417
  = (LatticeUtils.high_bits 5000000 2095104 8380417,
     LatticeUtils.low_bits 5000000 2095104 8380417).
Proof. apply (decompose_recombines 5000000 2095104 8380417); lia. Defined.

(** X3. [power2round(r, d)] raises [ValueError] for a negative [d]; otherwise it
    returns [(r1, r0)] with [r1 * 2^d + r0 = r mod Q], [0 <= r1 < Q] and [r0]
    in [[-2^(d-1), 2^(d-1)]]. *)
Theorem power2round_recombines (r d : Z) :
  (d < 0 -> LatticeUtils.power2round r d = Raise ValueError) /\
  (0 <= d ->
   exists r1 r0,
     LatticeUtils.power2round r d = Ok (r1, r0) /\
     r1 * 2 ^ d + r0 = r mod Config.Q /\
     0 <= r1 < Config.Q /\
     - (2 ^ d / 2) <= r0 <= 2 ^ d / 2).
Proof.
  unfold LatticeUtils.power2round. split.
  - intros Hd. destruct (d <? 0) eqn:H; [done|lia].
  - intros Hd. destruct (d <? 0) eqn:H; [lia|]. clear H.
    rewrite Z.shiftl_1_l.
    assert (0 < 2 ^ d) as Hpow by (apply Z.pow_pos_nonneg; lia).
    set (rq := r mod Config.Q).
    assert (0 <= rq < Config.Q) as Hrq by (apply Z.mod_pos_bound; reflexivity).
    destruct (center_mod_spec rq (2 ^ d) Hpow) as [Hcong Hrange].
    set (r0 := LatticeUtils.center_mod rq (2 ^ d)) in *.
    apply Z.mod_divide in Hcong as [k Hk]; [|lia].
    assert (rq - r0 = (- k) * 2 ^ d) as Hmul by lia.
    rewrite Z.shiftr_div_pow2 by lia. rewrite Hmul, Z.div_mul by lia.
    pose proof (Z.div_mod (2 ^ d) 2 ltac:(lia)) as Hdiv.
    pose proof (Z.mod_pos_bound (2 ^ d) 2 ltac:(lia)) as Hm2.
    assert (0 <= - k) as Hk0 by nia.
    assert (- k < Config.Q) as HkQ by nia.
    exists (- k), r0. rewrite Z.mod_small by lia.
    split; [done|]. split; [lia|]. split; [lia|done].
Qed.

(** The maximum of the absolute values that [max_abs] returns. *)
Lemma max_abs_spec (poly : list Z) (m : Z) :
  LatticeUtils.max_abs poly = Ok m ->
  Forall (fun c => Z.abs c <= m) poly /\ exists c, c ∈ poly /\ Z.abs c = m.
Proof.
  destruct poly as [|c cs]; [done|]. cbn [LatticeUtils.max_abs].
  intros <-%Ok_inj.
  assert (forall (l : list Z) (m0 : Z),
            let m := fold_left (fun m x => if Z.abs x >? m then Z.abs x else m)
                               l m0 in
            m0 <= m /\ Forall (fun c => Z.abs c <= m) l /\
            (m = m0 \/ exists c, c ∈ l /\ Z.abs c = m)) as Hfold.
  { induction l as [|x l IH]; intros m0; cbn [fold_left].
    - split; [lia|]. split; [constructor|by left].
    - specialize (IH (if Z.abs x >? m0 then Z.abs x else m0)).
      cbv zeta in IH |- *. destruct IH as (Hle & Hall & Hatt).
      destruct (Z.abs x >? m0) eqn:Hcmp.
      + split; [lia|]. split; [constructor; [lia|done]|].
        right. destruct Hatt as [->|(c0 & Hc0 & Habs)].
        * exists x. split; [left|done].
        * exists c0. split; [by right|done].
      + split; [lia|]. split; [constructor; [lia|done]|].
        destruct Hatt as [->|(c0 & Hc0 & Habs)]; [by left|].
        right. exists c0. split; [by right|done]. }
  destruct (Hfold cs (Z.abs c)) as (Hle & Hall & Hatt). split.
  - constructor; [lia|done].
  - destruct Hatt as [->|(c0 & Hc0 & Habs)].
    + exists c. split; [left|done].
    + exists c0. split; [by right|done].
Qed.

(** X4. [vec_infinity_norm] raises [ValueError] as soon as a polynomial of the
    vector is empty; otherwise it returns a bound on the absolute value of
    every coefficient, which is [0] or attained by a coefficient. *)
Theorem vec_infinity_norm_is_largest_coefficient (vec : list (list Z)) :
  (In [] vec -> LatticeUtils.vec_infinity_norm vec = Raise ValueError) /\
  (~ In [] vec ->
   exists n,
     LatticeUtils.vec_infinity_norm vec = Ok n /\
     (forall p c, p ∈ vec -> c ∈ p -> Z.abs c <= n) /\
     (n = 0 \/ exists p c, p ∈ vec /\ c ∈ p /\ Z.abs c = n)).
Proof.
  unfold LatticeUtils.vec_infinity_norm.
  assert (forall (l : list (list Z)) (m0 : Z),
            0 <= m0 ->
            (In [] l ->
             rfold (fun max_norm poly =>
                      poly_max ← LatticeUtils.max_abs poly;
                      Ok (if poly_max >? max_norm then poly_max else max_norm))
                   l m0 = Raise ValueError) /\
            (~ In [] l ->
             exists n,
               rfold (fun max_norm poly =>
                        poly_max ← LatticeUtils.max_abs poly;
                        Ok (if poly_max >? max_norm then poly_max else max_norm))
                     l m0 = Ok n /\
               m0 <= n /\
               (forall p c, p ∈ l -> c ∈ p -> Z.abs c <= n) /\
               (n = m0 \/ exists p c, p ∈ l /\ c ∈ p /\ Z.abs c = n))) as H.
  { induction l as [|p l IH]; intros m0 Hm0; cbn [rfold].
    - split; [intros []|]. intros _. exists m0. split; [done|]. split; [lia|].
      split; [|by left]. intros p c Hp. by apply elem_of_nil in Hp.
    - destruct p as [|c0 p'].
      + split; [done|]. intros Hn. exfalso. apply Hn. by left.
      + destruct (LatticeUtils.max_abs (c0 :: p')) as [pm|e] eqn:Hpm;
          [|discriminate].
        destruct (max_abs_spec _ _ Hpm) as [Hall (ca & Hca & Habs)].
        rsimpl.
        set (m1 := if pm >? m0 then pm else m0).
        assert (0 <= m1 /\ m0 <= m1 /\ pm <= m1) as (H1 & H2 & H3)
          by (unfold m1; destruct (pm >? m0) eqn:?; lia).
        destruct (IH m1 H1) as [IHraise IHok]. split.
        * intros [Hbad|Hin]; [discriminate|]. by apply IHraise.
        * intros Hn.
          destruct IHok as (n & Hrun & Hle & Hbound & Hatt);
            [intros Hin; apply Hn; by right|].
          exists n. split; [done|]. split; [lia|]. split.
          -- intros p c Hp Hc. apply elem_of_cons in Hp as [->|Hp].
             ++ rewrite Forall_forall in Hall. specialize (Hall c Hc).
                cbv beta in Hall. lia.
             ++ by apply (Hbound p c).
          -- destruct Hatt as [->|(p & c & Hp & Hc & Hpc)].
             ++ unfold m1. destruct (pm >? m0) eqn:Hcmp; [|by left].
                right. exists (c0 :: p'), ca. split; [left|done].
             ++ right. exists p, c. split; [by right|done]. }
  destruct (H vec 0 ltac:(lia)) as [Hraise Hok]. split; [done|].
  intros Hn. destruct (Hok Hn) as (n & Hrun & _ & Hbound & Hatt). eauto.
Qed.

(** X5. Coefficient-wise addition and subtraction modulo [q] undo each other: on
    polynomials of one length, subtracting [p2] from [poly_add p1 p2] gives
    [p1] reduced modulo [q]. *)
Theorem poly_sub_undoes_poly_add (p1 p2 : list Z) (q : Z) :
  q <> 0 ->
  length p1 = length p2 ->
  LatticeUtils.poly_sub (LatticeUtils.poly_add p1 p2 q) p2 q
  = map (fun c => c mod q) p1.
Proof.
  intros Hq. unfold LatticeUtils.poly_sub, LatticeUtils.poly_add.
  revert p2. induction p1 as [|c1 p1 IH]; intros [|c2 p2] Hlen;
    simpl in *; try done.
  f_equal; [|apply IH; lia].
  rewrite Zminus_mod_idemp_l. f_equal. lia.
Qed.

Lemma poly_sub_undoes_poly_add_witness :
  LatticeUtils.poly_sub (LatticeUtils.poly_add [5; -3] [8380416; 7] 8380417)
    [8380416; 7] 8380417
  = map (fun c => c mod 8380417) [5; -3].
Proof.
  apply (poly_sub_undoes_poly_add [5; -3] [8380416; 7] 8380417);
    [lia|reflexivity].
Defined.

(** ** src/src/secret_sharing/math_utils.py and moduli_gen.py *)

Lemma extended_gcd_abs (a b : Z) :
  Z.abs (fst (fst (MathUtils.extended_gcd a b))) = Z.gcd a b.
Proof.
  funelim (MathUtils.extended_gcd a b).
  - subst. cbn [fst]. symmetry. apply Z.gcd_0_l.
  - destruct (MathUtils.extended_gcd (b mod a) a) as [[g y] x] eqn:E.
    simpl in *. rewrite H. by apply Z.gcd_mod.
Qed.

(** X6. [extended_gcd(a, b)] returns [(g, x, y)] with [a * x + b * y = g], and
    [g] is the greatest common divisor of [a] and [b] up to its sign, for
    all integers; [_egcd] of the reconstructor is the same function. *)
Theorem extended_gcd_bezout_identity (a b : Z) :
  let '(g, x, y) := MathUtils.extended_gcd a b in
  a * x + b * y = g /\ Z.abs g = Z.gcd a b /\
  Reconstructor._egcd a b = (g, x, y).
Proof.
  pose proof (extended_gcd_bezout a b) as Hbez.
  pose proof (extended_gcd_abs a b) as Habs.
  unfold Reconstructor._egcd.
  destruct (MathUtils.extended_gcd a b) as [[g x] y]. simpl in Habs. done.
Qed.

(** X7. For [a >= 0] and [m > 1], [mod_inverse(a, m)] and [_modinv(a, m)] return
    the inverse of [a] modulo [m] in [[0, m)] when [a] and [m] are coprime
    and raise [Exception] when they are not. *)
Theorem mod_inverse_inverts_or_raises (a m : Z) :
  0 <= a -> 1 < m ->
  (Z.gcd a m = 1 ->
   exists inv, MathUtils.mod_inverse a m = Ok inv /\
               Reconstructor._modinv a m = Ok inv /\
               0 <= inv < m /\ (a * inv) mod m = 1) /\
  (Z.gcd a m <> 1 ->
   MathUtils.mod_inverse a m = Raise Exception /\
   Reconstructor._modinv a m = Raise Exception).
Proof.
  intros Ha Hm. split.
  - intros Hg. destruct (modinv_spec a m Ha Hm Hg) as (inv & H1 & H2 & H3 & H4).
    exists inv. split; [done|]. split; [done|]. split; [|done].
    subst inv. apply Z.mod_pos_bound. lia.
  - intros Hg.
    pose proof (extended_gcd_gcd a m Ha ltac:(lia)) as Hgcd.
    unfold MathUtils.mod_inverse, Reconstructor._modinv, Reconstructor._egcd.
    destruct (MathUtils.extended_gcd a m) as [[g x] y]. simpl in Hgcd.
    subst g. by destruct (Z.eqb_spec (Z.gcd a m) 1).
Qed.

Lemma mod_inverse_inverts_or_raises_witness :
  (Z.gcd 263 257 = 1 ->
   exists inv, MathUtils.mod_inverse 263 257 = Ok inv /\
               Reconstructor._modinv 263 257 = Ok inv /\
               0 <= inv < 257 /\ (263 * inv) mod 257 = 1) /\
  (Z.gcd 263 257 <> 1 ->
   MathUtils.mod_inverse 263 257 = Raise Exception /\
   Reconstructor._modinv 263 257 = Raise Exception).
Proof. apply (mod_inverse_inverts_or_raises 263 257); lia. Defined.

(** X8. On non-negative integers, [gcd] of moduli_gen.py is the greatest common
    divisor, and [is_coprime(num, existing_list)] holds exactly when [num]
    is coprime to every element of the list. *)
Theorem is_coprime_iff_coprime_to_all (num : Z) (existing_list : list Z) :
  0 <= num -> Forall (fun x => 0 <= x) existing_list ->
  Forall (fun x => ModuliGen.gcd num x = Z.gcd num x) existing_list /\
  (ModuliGen.is_coprime num existing_list = true <->
   Forall (fun x => Z.gcd num x = 1) existing_list).
Proof.
  intros Hnum Hl. split.
  - eapply Forall_impl; [exact Hl|]. intros x Hx. by apply moduli_gcd_spec.
  - split; [by apply is_coprime_spec|].
    intros Hall. unfold ModuliGen.is_coprime. apply forallb_forall.
    intros x Hx%list_elem_of_In. apply Z.eqb_eq.
    rewrite Forall_forall in Hl. rewrite Forall_forall in Hall.
    rewrite moduli_gcd_spec; [by apply Hall|done|by apply Hl].
Qed.

Lemma is_coprime_iff_coprime_to_all_witness :
  Forall (fun x => ModuliGen.gcd 259 x = Z.gcd 259 x) [257; 258] /\
  (ModuliGen.is_coprime 259 [257; 258] = true <->
   Forall (fun x => Z.gcd 259 x = 1) [257; 258]).
Proof.
  apply (is_coprime_iff_coprime_to_all 259 [257; 258]); [lia|].
  repeat constructor; lia.
Defined.

(** ** src/src/secret_sharing/splitter.py *)

Lemma pairwise_coprime_check_complete (l : list Z) :
  pairwise_coprime l -> Splitter.pairwise_coprime_check l = true.
Proof.
  induction l as [|m l IH]; simpl; [done|].
  intros [H1 H2]. apply andb_true_iff. split; [|by apply IH].
  apply forallb_forall. intros m' Hm'%list_elem_of_In.
  rewrite Forall_forall in H1. apply Z.eqb_eq. by apply H1.
Qed.

(** X9. What the constructor of the splitter accepts. With the moduli sorted:
    [ValueError] unless there are [n] of them, pairwise coprime and all above
    255; then [TypeError] when [moduli[:t]] is empty; otherwise the splitter
    holds the sorted moduli and the product of [moduli[:t]]. The threshold
    is compared neither with [n] nor with the security condition of the
    moduli generator. *)
Theorem splitter_init_accepts (n t : Z) (moduli0 : list Z) :
  let ms := merge_sort Z.le moduli0 in
  let valid := Z.of_nat (length moduli0) = n /\ pairwise_coprime ms /\
               Forall (fun m => 255 < m) ms in
  (~ valid -> Splitter.init n t moduli0 = Raise ValueError) /\
  (valid -> slice_to ms t = [] -> Splitter.init n t moduli0 = Raise TypeError) /\
  (valid -> slice_to ms t <> [] ->
   Splitter.init n t moduli0
   = Ok {| Splitter.n := n; Splitter.t := t; Splitter.moduli := ms;
           Splitter.reconstruction_capacity := list_prod (slice_to ms t) |}).
Proof.
  intros ms valid.
  assert (length ms = length moduli0) as Hlen
    by (unfold ms; by rewrite merge_sort_Permutation).
  assert (Splitter._validate_moduli n ms = Ok tt <-> valid) as Hvalid.
  { unfold Splitter._validate_moduli, valid. rewrite Hlen.
    destruct (Z.eqb_spec (Z.of_nat (length moduli0)) n) as [Hn|Hn];
      cbn [negb]; [|split; [done|by intros [? _]]].
    destruct (Splitter.pairwise_coprime_check ms) eqn:Hpc; cbn [negb].
    - destruct (existsb (fun m => m <=? 255) ms) eqn:Hex.
      + split; [done|]. intros (_ & _ & Hbig).
        apply existsb_exists in Hex as (m & Hm%list_elem_of_In & Hle).
        rewrite Forall_forall in Hbig. specialize (Hbig m Hm). lia.
      + split; [|done]. intros _. split; [done|].
        split; [by apply pairwise_coprime_check_spec|].
        apply Forall_forall. intros m Hm.
        destruct (Z.leb_spec m 255) as [Hle|]; [|lia].
        assert (existsb (fun m => m <=? 255) ms = true) as Habs; [|congruence].
        apply existsb_exists. exists m.
        split; [by apply list_elem_of_In|by apply Z.leb_le].
    - split; [done|]. intros (_ & Hco & _).
      apply pairwise_coprime_check_complete in Hco. congruence. }
  assert (Splitter._validate_moduli n ms = Ok tt \/
          Splitter._validate_moduli n ms = Raise ValueError) as Hcases.
  { unfold Splitter._validate_moduli.
    repeat (destruct (negb _) || destruct (existsb _ _)); auto. }
  unfold Splitter.init. fold ms. split; [|split].
  - intros Hn. destruct Hcases as [Hok|Hraise]; [|by rewrite Hraise].
    exfalso. by apply Hn, Hvalid.
  - intros Hv Hempty. apply Hvalid in Hv. by rewrite Hv, Hempty.
  - intros Hv Hne. apply Hvalid in Hv. rewrite Hv. rsimpl.
    by rewrite (reduce_mul_prod _ Hne).
Qed.

(** X10. Every share carries the whole image in clear: a splitter that was
    accepted has all its moduli above 255, so each share's data
    [flat_pixels % m] is the flattened 8-bit image itself. There is one share
    per modulus, numbered from 0, with the image's shape. *)
Theorem every_share_holds_the_image (n t : Z) (moduli0 : list Z)
    (sp : Splitter.ImageCRTSplitter) (img : ndarray3) :
  Splitter.init n t moduli0 = Ok sp ->
  pixel_values img ->
  map Splitter.sp_modulus (Splitter.split sp img) = Splitter.moduli sp /\
  map Splitter.sp_index (Splitter.split sp img)
  = seq 0 (length (Splitter.moduli sp)) /\
  Forall (fun s => Splitter.sp_data s = flatten img /\
                   Splitter.sp_shape s = nd_shape img)
         (Splitter.split sp img).
Proof.
  intros Hinit Hpx.
  destruct (split_shares sp n t moduli0 Hinit img Hpx) as [Hmod Hdata].
  rewrite map_map in Hmod. split; [exact Hmod|]. split.
  - unfold Splitter.split. apply list_eq. intros i.
    rewrite list_lookup_fmap, list_lookup_imap, list_lookup_fmap.
    destruct (Splitter.moduli sp !! i) as [m|] eqn:Hm; simpl.
    + by rewrite lookup_seq_lt by (by eapply lookup_lt_Some).
    + rewrite lookup_seq_ge; [done|]. by apply lookup_ge_None.
  - apply Forall_fmap in Hdata. exact Hdata.
Qed.

Lemma every_share_holds_the_image_witness :
  map Splitter.sp_modulus (Splitter.split sample_splitter sample_image)
  = Splitter.moduli sample_splitter /\
  map Splitter.sp_index (Splitter.split sample_splitter sample_image)
  = seq 0 (length (Splitter.moduli sample_splitter)) /\
  Forall (fun s => Splitter.sp_data s = flatten sample_image /\
                   Splitter.sp_shape s = nd_shape sample_image)
         (Splitter.split sample_splitter sample_image).
Proof.
  apply (every_share_holds_the_image 3 2 [269; 257; 263]).
  - vm_compute. reflexivity.
  - unfold pixel_values. vm_compute. repeat constructor; discriminate.
Defined.

(** ** src/src/crypto_lattice/signer.py: the challenge *)

#[local] Instance byte_eq_dec : EqDecision byte := Byte.byte_eq_dec.

(** The number of nonzero coefficients. *)
Definition count_nonzero (c : list Z) : nat :=
  length (filter (fun v => v <> 0) c).

(** The index that the scan derives from a digest byte. *)
Definition scan_index (d : byte) : nat :=
  Z.to_nat (byte_val d mod Z.of_nat Config.N).

(** The indices of the digest at which [c] is still zero. *)
Definition fresh_indices (digest : list byte) (c : list Z) : gset nat :=
  list_to_set (filter (fun i => c !! i = Some 0) (map scan_index digest)).

Lemma count_nonzero_insert (c : list Z) (i : nat) (v : Z) :
  c !! i = Some 0 -> v <> 0 ->
  count_nonzero (<[i := v]> c) = S (count_nonzero c).
Proof.
  unfold count_nonzero. revert i.
  induction c as [|x c IH]; intros [|i] Hi Hv; simpl in *; try done.
  - injection Hi as ->. rewrite !filter_cons.
    destruct (decide (v <> 0)); [|done]. destruct (decide (0 <> 0)); done.
  - rewrite !filter_cons. destruct (decide (x <> 0)); simpl; by rewrite IH.
Qed.

Lemma count_nonzero_replicate (n : nat) : count_nonzero (replicate n 0) = 0%nat.
Proof.
  unfold count_nonzero. induction n as [|n IH]; [done|].
  simpl. rewrite filter_cons. by destruct (decide (0 <> 0)).
Qed.

Lemma fresh_indices_cons_fresh (d : byte) (rest : list byte) (c : list Z)
    (v : Z) :
  c !! scan_index d = Some 0 -> v <> 0 ->
  size (fresh_indices (d :: rest) c)
  = S (size (fresh_indices rest (<[scan_index d := v]> c))).
Proof.
  intros Hlk Hv. unfold fresh_indices. cbn [map].
  rewrite filter_cons. destruct (decide (c !! scan_index d = Some 0)); [|done].
  cbn [list_to_set foldr].
  set (X := list_to_set (filter (fun i => c !! i = Some 0)
                                (map scan_index rest)) : gset nat).
  set (Y := list_to_set (filter (fun i => <[scan_index d := v]> c !! i = Some 0)
                                (map scan_index rest)) : gset nat).
  assert (Y = X ∖ {[scan_index d]}) as ->.
  { apply set_eq. intros j. unfold X, Y.
    rewrite elem_of_difference, !elem_of_list_to_set, !list_elem_of_filter.
    rewrite elem_of_singleton.
    destruct (decide (j = scan_index d)) as [->|Hne].
    - rewrite list_lookup_insert_eq by (by eapply lookup_lt_Some).
      split; [intros [[=] _]; done|intros [_ []]; done].
    - rewrite list_lookup_insert_ne by done. tauto. }
  assert ({[scan_index d]} ∪ X = {[scan_index d]} ∪ X ∖ {[scan_index d]})
    as ->.
  { apply set_eq. intros j.
    rewrite !elem_of_union, elem_of_difference, elem_of_singleton.
    destruct (decide (j = scan_index d)); tauto. }
  rewrite size_union, size_singleton; [done|].
  apply disjoint_singleton_l.
  rewrite elem_of_difference, elem_of_singleton. tauto.
Qed.

Lemma fresh_indices_cons_used (d : byte) (rest : list byte) (c : list Z) :
  c !! scan_index d <> Some 0 ->
  fresh_indices (d :: rest) c = fresh_indices rest c.
Proof.
  intros Hlk. unfold fresh_indices. cbn [map]. rewrite filter_cons.
  by destruct (decide (c !! scan_index d = Some 0)).
Qed.

Lemma challenge_scan_count (digest : list byte) :
  forall (c : list Z) (weight : Z),
    Z.of_nat (count_nonzero c) = weight -> weight <= Config.TAU ->
    Z.of_nat (count_nonzero (challenge_scan digest c weight))
    = Z.min Config.TAU (weight + Z.of_nat (size (fresh_indices digest c))).
Proof.
  induction digest as [|d rest IH]; intros c weight Hc Hw.
  - cbn [challenge_scan].
    replace (fresh_indices [] c) with (∅ : gset nat) by done.
    rewrite size_empty. lia.
  - cbn [challenge_scan]. destruct (weight >=? Config.TAU) eqn:Hge; [lia|].
    fold (scan_index d).
    destruct (c !! scan_index d) as [[|p|p]|] eqn:Hlk.
    + rewrite IH.
      * rewrite (fresh_indices_cons_fresh d rest c
                   (if Z.land (byte_val d) 1 =? 0 then -1 else 1)); [lia|done|].
        by destruct (_ =? 0).
      * rewrite count_nonzero_insert; [lia|done|]. by destruct (_ =? 0).
      * lia.
    + rewrite fresh_indices_cons_used by (by rewrite Hlk). by apply IH.
    + rewrite fresh_indices_cons_used by (by rewrite Hlk). by apply IH.
    + rewrite fresh_indices_cons_used by (by rewrite Hlk). by apply IH.
Qed.

Lemma scan_index_inj (d1 d2 : byte) : scan_index d1 = scan_index d2 -> d1 = d2.
Proof.
  unfold scan_index, byte_val. change (Z.of_nat Config.N) with 256.
  pose proof (Byte.to_N_bounded d1). pose proof (Byte.to_N_bounded d2).
  rewrite !Z.mod_small by lia. intros Heq.
  assert (Byte.to_N d1 = Byte.to_N d2) as HN by lia.
  apply (f_equal Byte.of_N) in HN. rewrite !Byte.of_to_N in HN. congruence.
Qed.

Lemma scan_index_bound (d : byte) : (scan_index d < Config.N)%nat.
Proof.
  unfold scan_index. change (Z.of_nat Config.N) with 256.
  pose proof (Z.mod_pos_bound (byte_val d) 256 ltac:(lia)).
  unfold Config.N. lia.
Qed.

Lemma fresh_indices_zeros (digest : list byte) :
  size (fresh_indices digest (replicate Config.N 0))
  = length (remove_dups digest).
Proof.
  unfold fresh_indices.
  induction digest as [|d rest IH]; [apply size_empty|].
  cbn [map remove_dups]. rewrite filter_cons.
  rewrite (lookup_replicate_2 _ _ _ (scan_index_bound d)).
  destruct (decide (Some 0 = Some 0)); [|done]. cbn [list_to_set foldr].
  destruct (decide_rel elem_of d rest) as [Hin|Hnin].
  - rewrite <- IH. f_equal. apply set_eq. intros j.
    rewrite elem_of_union, elem_of_singleton. split; [|by right].
    intros [->|?]; [|done].
    apply elem_of_list_to_set, list_elem_of_filter. split.
    + apply lookup_replicate_2, scan_index_bound.
    + apply list_elem_of_fmap. by exists d.
  - cbn [length]. rewrite <- IH. rewrite size_union, size_singleton; [done|].
    apply disjoint_singleton_l. intros Hj.
    apply elem_of_list_to_set, list_elem_of_filter in Hj as [_ Hj].
    apply list_elem_of_fmap in Hj as (d' & Heq & Hd').
    apply scan_index_inj in Heq as <-. done.
Qed.

Lemma challenge_scan_ternary (digest : list byte) :
  forall (c : list Z) (weight : Z),
    Forall (fun v => v = -1 \/ v = 0 \/ v = 1) c ->
    Forall (fun v => v = -1 \/ v = 0 \/ v = 1) (challenge_scan digest c weight).
Proof.
  induction digest as [|d rest IH]; intros c weight Hc; cbn [challenge_scan];
    [done|].
  destruct (weight >=? Config.TAU); [done|].
  destruct (c !! _) as [[|p|p]|] eqn:Hlk; try by apply IH.
  apply IH. apply Forall_insert; [done|]. destruct (_ =? 0); auto.
Qed.

Section ChallengeShape.

Variable shake_256 : list byte -> nat -> list byte.

(** X11. The challenge of [_derive_challenge] and [derive_challenge], for every
    hash function: [N] coefficients in [{-1, 0, 1}], of which the nonzero
    ones are as many as the digest has distinct bytes, but at most [TAU].
    So the weight is [TAU] exactly when the 128-byte digest has at least 39
    distinct bytes, and smaller otherwise. *)
Theorem challenge_weight_is_distinct_digest_bytes (message : list byte)
    (W_HighBits : list (list Z)) (ts : Z) (c : list Z) :
  _derive_challenge shake_256 message W_HighBits ts = Ok c ->
  derive_challenge shake_256 message W_HighBits ts = Ok c /\
  length c = Config.N /\
  Forall (fun v => v = -1 \/ v = 0 \/ v = 1) c /\
  exists input,
    challenge_input message W_HighBits ts = Ok input /\
    count_nonzero c
    = Nat.min 39 (length (remove_dups (shake_256 input (Config.N / 2)))).
Proof.
  intros Hc. split; [exact Hc|].
  unfold _derive_challenge in Hc.
  destruct (challenge_input message W_HighBits ts) as [input|e] eqn:Hin;
    [|done].
  rsimpl in Hc. apply Ok_inj in Hc as <-.
  split; [by rewrite challenge_scan_length, length_replicate|].
  split; [apply challenge_scan_ternary, Forall_replicate; auto|].
  exists input. split; [done|].
  pose proof (challenge_scan_count (shake_256 input (Config.N / 2))
                (replicate Config.N 0) 0) as Hcount.
  rewrite count_nonzero_replicate, fresh_indices_zeros in Hcount.
  specialize (Hcount eq_refl ltac:(done)).
  change Config.TAU with 39 in Hcount. lia.
Qed.

End ChallengeShape.

Lemma challenge_weight_is_distinct_digest_bytes_witness :
  exists c,
    derive_challenge sample_digest [x68; x69] [[1; -1]; [0; 2]] 1700000000
    = Ok c /\
    length c = Config.N /\
    Forall (fun v => v = -1 \/ v = 0 \/ v = 1) c /\
    exists input,
      challenge_input [x68; x69] [[1; -1]; [0; 2]] 1700000000 = Ok input /\
      count_nonzero c
      = Nat.min 39 (length (remove_dups (sample_digest input (Config.N / 2)))).
Proof.
  eexists.
  eapply (challenge_weight_is_distinct_digest_bytes sample_digest
            [x68; x69] [[1; -1]; [0; 2]] 1700000000).
  vm_compute. reflexivity.
Defined.

(** The inputs that [challenge_input] can serialise: a timestamp of 8
    unsigned bytes and coefficients of 4 signed bytes. *)
Definition serialisable (W_HighBits : list (list Z)) (ts : Z) : Prop :=
  0 <= ts < 2 ^ 64 /\
  Forall (Forall (fun coeff => - 2 ^ 31 <= coeff < 2 ^ 31)) W_HighBits.

Lemma to_bytes_le_cases (len : nat) (signed : bool) (x : Z) :
  to_bytes_le len signed x = Raise OverflowError \/
  exists bs, to_bytes_le len signed x = Ok bs.
Proof.
  unfold to_bytes_le. destruct signed; destruct (_ && _); eauto.
Qed.

Lemma to_bytes_le_signed4 (x : Z) :
  (- 2 ^ 31 <= x < 2 ^ 31 -> exists bs, to_bytes_le 4 true x = Ok bs) /\
  (~ - 2 ^ 31 <= x < 2 ^ 31 -> to_bytes_le 4 true x = Raise OverflowError).
Proof.
  unfold to_bytes_le. change (8 * Z.of_nat 4 - 1) with 31.
  destruct (Z.leb_spec (- 2 ^ 31) x); destruct (Z.ltb_spec x (2 ^ 31));
    cbn [andb]; split; eauto; intros; lia.
Qed.

Lemma w_bytes_cases (W : list (list Z)) :
  forall acc : list byte,
    (Forall (Forall (fun coeff => - 2 ^ 31 <= coeff < 2 ^ 31)) W ->
     exists bs,
       rfold (fun acc poly =>
                rfold (fun acc coeff =>
                         bs ← to_bytes_le 4 true coeff; Ok (acc ++ bs))
                      poly acc) W acc = Ok bs) /\
    (~ Forall (Forall (fun coeff => - 2 ^ 31 <= coeff < 2 ^ 31)) W ->
     rfold (fun acc poly =>
              rfold (fun acc coeff =>
                       bs ← to_bytes_le 4 true coeff; Ok (acc ++ bs))
                    poly acc) W acc = Raise OverflowError).
Proof.
  assert (forall (poly : list Z) (acc : list byte),
            (Forall (fun coeff => - 2 ^ 31 <= coeff < 2 ^ 31) poly ->
             exists bs,
               rfold (fun acc coeff =>
                        bs ← to_bytes_le 4 true coeff; Ok (acc ++ bs))
                     poly acc = Ok bs) /\
            (~ Forall (fun coeff => - 2 ^ 31 <= coeff < 2 ^ 31) poly ->
             rfold (fun acc coeff =>
                      bs ← to_bytes_le 4 true coeff; Ok (acc ++ bs))
                   poly acc = Raise OverflowError)) as Hpoly.
  { induction poly as [|x poly IH]; intros acc; cbn [rfold].
    - split; [eauto|]. intros Hn. exfalso. apply Hn. constructor.
    - destruct (to_bytes_le_signed4 x) as [Hx1 Hx2].
      destruct (decide (- 2 ^ 31 <= x < 2 ^ 31)) as [Hx|Hx].
      + destruct (Hx1 Hx) as [bs ->]. rsimpl. split.
        * intros [_ Hrest]%Forall_cons. by apply (proj1 (IH _)).
        * intros Hn. apply (proj2 (IH _)). intros Hrest. apply Hn.
          by constructor.
      + rewrite (Hx2 Hx). split; [intros [? _]%Forall_cons; done|done]. }
  induction W as [|poly W IH]; intros acc; cbn [rfold].
  - split; [eauto|]. intros Hn. exfalso. apply Hn. constructor.
  - destruct (Hpoly poly acc) as [Hp1 Hp2].
    destruct (decide (Forall (fun coeff => - 2 ^ 31 <= coeff < 2 ^ 31) poly))
      as [Hgood|Hbad].
    + destruct (Hp1 Hgood) as [bs ->]. rsimpl. split.
      * intros [_ Hrest]%Forall_cons. by apply (proj1 (IH _)).
      * intros Hn. apply (proj2 (IH _)). intros Hrest. apply Hn.
        by constructor.
    + rewrite (Hp2 Hbad). split; [intros [? _]%Forall_cons; done|done].
Qed.

Section ChallengeErrors.

Variable shake_256 : list byte -> nat -> list byte.

(** X12. Serialisation is the only thing that can fail in the derivation: the
    challenge exists exactly when the timestamp fits 8 unsigned bytes and
    every high-bits coefficient fits 4 signed bytes, and [OverflowError] is
    raised otherwise. *)
Theorem derive_challenge_overflow (message : list byte)
    (W_HighBits : list (list Z)) (ts : Z) :
  (serialisable W_HighBits ts ->
   exists c,
     derive_challenge shake_256 message W_HighBits ts = Ok c /\
     _derive_challenge shake_256 message W_HighBits ts = Ok c) /\
  (~ serialisable W_HighBits ts ->
   derive_challenge shake_256 message W_HighBits ts = Raise OverflowError /\
   _derive_challenge shake_256 message W_HighBits ts = Raise OverflowError).
Proof.
  unfold serialisable, derive_challenge, _derive_challenge, challenge_input.
  destruct (w_bytes_cases W_HighBits []) as [Hok Hraise].
  destruct (decide (Forall (Forall (fun coeff => - 2 ^ 31 <= coeff < 2 ^ 31))
                           W_HighBits)) as [Hgood|Hbad].
  - destruct (Hok Hgood) as [bs ->]. rsimpl.
    unfold to_bytes_le. change (8 * Z.of_nat 8) with 64.
    destruct (Z.leb_spec 0 ts); destruct (Z.ltb_spec ts (2 ^ 64));
      cbn [andb]; rsimpl.
    + split; [eauto|]. intros Hn. exfalso. apply Hn. split; [lia|done].
    + split; [intros [? _]; lia|done].
    + split; [intros [? _]; lia|done].
    + split; [intros [? _]; lia|done].
  - rewrite (Hraise Hbad). split; [intros [_ ?]; done|done].
Qed.

End ChallengeErrors.

(** ** src/src/crypto_lattice/signer.py: aggregation and verification *)

Section VerifyShape.

Variable shake_256 : list byte -> nat -> list byte.

(** X13. With the commitment [W_sum] supplied, [verify_final_signature] returns
    [True] exactly when the centred response is below [GAMMA1 - BETA] in
    infinity norm, [W_sum] has at least two polynomials and the challenge is
    the one derived from the message, the high bits of [W_sum] and the
    timestamp. The public key [T_pub] and the matrix [A_matrix] are never
    consulted. *)
Theorem verify_with_commitment_ignores_key (Z_agg : list (list Z))
    (C_poly : list Z) (T_pub : list (list Z)) (A_matrix : list (list (list Z)))
    (message : list byte) (ts : Z) (W_sum : list (list Z)) :
  verify_final_signature shake_256 Z_agg C_poly T_pub A_matrix message ts
    (Some W_sum) = Ok true
  <->
  (exists norm,
     LatticeUtils.vec_infinity_norm (map center_poly Z_agg) = Ok norm /\
     norm < Config.GAMMA1 - Config.BETA) /\
  (2 <= length W_sum)%nat /\
  derive_challenge shake_256 message
    (high_bits_vec (2 * Config.GAMMA2) W_sum) ts = Ok C_poly.
Proof.
  unfold verify_final_signature, hash_check.
  destruct (LatticeUtils.vec_infinity_norm (map center_poly Z_agg))
    as [norm|e]; rsimpl.
  2:{ split; [done|]. by intros [(n & Hn & _) _]. }
  destruct (Z.geb_spec norm (Config.GAMMA1 - Config.BETA)) as [Hge|Hlt].
  { split; [done|]. intros [(n & Hn & Hlt) _].
    apply Ok_inj in Hn as <-. lia. }
  assert (length (high_bits_vec (2 * Config.GAMMA2) W_sum) = length W_sum)
    as Hlen by (unfold high_bits_vec; by rewrite length_map).
  destruct (high_bits_vec (2 * Config.GAMMA2) W_sum) as [|p0 [|p1 hb]] eqn:Hhb;
    cbn [getitem lookup list_lookup]; rsimpl.
  - split; [done|]. intros (_ & Hw & _). simpl in Hlen. lia.
  - split; [done|]. intros (_ & Hw & _). simpl in Hlen. lia.
  - destruct (derive_challenge shake_256 message (p0 :: p1 :: hb) ts)
      as [c'|e]; rsimpl.
    + split.
      * intros Hb. apply Ok_inj in Hb.
        apply bool_decide_eq_true_1 in Hb as ->.
        split; [eauto|]. split; [simpl in Hlen; lia|done].
      * intros (_ & _ & Hc). apply Ok_inj in Hc as ->.
        by rewrite bool_decide_eq_true_2.
    + split; [done|]. by intros (_ & _ & ?).
Qed.

(** X14. In particular the all-zero response verifies, for every message,
    commitment and keys: no secret is needed to produce a response that
    [verify_final_signature] accepts when the commitment is supplied. *)
Theorem verify_accepts_zero_response (C_poly : list Z)
    (T_pub : list (list Z)) (A_matrix : list (list (list Z)))
    (message : list byte) (ts : Z) (W_sum : list (list Z)) :
  (2 <= length W_sum)%nat ->
  derive_challenge shake_256 message
    (high_bits_vec (2 * Config.GAMMA2) W_sum) ts = Ok C_poly ->
  verify_final_signature shake_256
    (replicate Config.L (replicate Config.N 0)) C_poly T_pub A_matrix
    message ts (Some W_sum) = Ok true.
Proof.
  intros HW Hc.
  unfold verify_final_signature, hash_check.
  assert (LatticeUtils.vec_infinity_norm
            (map center_poly (replicate Config.L (replicate Config.N 0)))
          = Ok 0) as -> by (vm_compute; reflexivity).
  rsimpl. change (0 >=? Config.GAMMA1 - Config.BETA) with false. cbv iota.
  assert (length (high_bits_vec (2 * Config.GAMMA2) W_sum) = length W_sum)
    as Hlen by (unfold high_bits_vec; by rewrite length_map).
  destruct (high_bits_vec (2 * Config.GAMMA2) W_sum) as [|p0 [|p1 hb]] eqn:Hhb;
    [simpl in Hlen; lia..|].
  cbn [getitem lookup list_lookup]. rsimpl. rewrite Hc. rsimpl.
  by rewrite bool_decide_eq_true_2.
Qed.

End VerifyShape.

Lemma verify_accepts_zero_response_witness :
  exists c,
    derive_challenge sample_digest [x68; x69]
      (high_bits_vec (2 * Config.GAMMA2) [[5; -7]; [4190208; 0]]) 1700000000
    = Ok c /\
    verify_final_signature sample_digest
      (replicate Config.L (replicate Config.N 0)) c [] [] [x68; x69]
      1700000000 (Some [[5; -7]; [4190208; 0]]) = Ok true.
Proof.
  eexists. split; [vm_compute; reflexivity|].
  apply (verify_accepts_zero_response sample_digest);
    [simpl; lia|vm_compute; reflexivity].
Defined.

(** Summing does not depend on the order of the summands. *)
Lemma zip_with_add_swap (a x y : list Z) :
  zip_with Z.add (zip_with Z.add a x) y = zip_with Z.add (zip_with Z.add a y) x.
Proof.
  revert x y. induction a as [|a0 a IH]; intros [|x0 x] [|y0 y]; simpl;
    try done.
  f_equal; [lia|apply IH].
Qed.

Lemma vec_add_swap (a x y : list (list Z)) :
  vec_add (vec_add a x) y = vec_add (vec_add a y) x.
Proof.
  unfold vec_add.
  revert x y. induction a as [|a0 a IH]; intros [|x0 x] [|y0 y]; simpl;
    try done.
  f_equal; [apply zip_with_add_swap|apply IH].
Qed.

Lemma fold_vec_add_perm (l k : list (list (list Z))) :
  l ≡ₚ k -> forall acc, fold_left vec_add l acc = fold_left vec_add k acc.
Proof.
  induction 1 as [|x l k _ IH|x y l|l k m _ IH1 _ IH2]; intros acc; simpl.
  - done.
  - apply IH.
  - by rewrite vec_add_swap.
  - by rewrite IH1.
Qed.

(** X15. The aggregator does not depend on the order in which the shares come
    in: for shares of one shape, [aggregate_responses] and
    [aggregate_w_shares] return the same result on every permutation. *)
Theorem aggregation_is_order_independent (K N : nat)
    (shares shares' : list (list (list Z))) :
  (0 < K)%nat ->
  Forall (vec_shape K N) shares ->
  shares ≡ₚ shares' ->
  aggregate_responses shares = aggregate_responses shares' /\
  aggregate_w_shares shares = aggregate_w_shares shares'.
Proof.
  intros HK Hshape Hperm.
  assert (Forall (vec_shape K N) shares') as Hshape'
    by (by rewrite <- Hperm).
  assert (forall l : list (list (list Z)),
            Forall (vec_shape K N) l ->
            aggregate_responses l
            = Ok (match l with
                  | [] => None
                  | _ => Some (fold_left vec_add l
                                 (replicate K (replicate N 0)))
                  end) /\
            aggregate_w_shares l
            = Ok (match l with
                  | [] => None
                  | _ => Some (map center_poly
                                 (fold_left vec_add l
                                    (replicate K (replicate N 0))))
                  end)) as Hagg.
  { intros l Hl. destruct l as [|z0 rest]; [done|].
    destruct (accumulate_ok K N (z0 :: rest) Hl) as [Hacc _].
    apply Forall_cons in Hl as [[Hl0 Hp0] _].
    unfold aggregate_responses, aggregate_w_shares.
    destruct z0 as [|z00 z0']; [simpl in Hl0; lia|].
    apply Forall_cons in Hp0 as [Hn0 _].
    cbn [getitem lookup list_lookup]. rsimpl.
    rewrite Hl0, Hn0, Hacc. done. }
  destruct (Hagg shares Hshape) as [-> ->].
  destruct (Hagg shares' Hshape') as [-> ->].
  rewrite (fold_vec_add_perm shares shares' Hperm).
  destruct shares as [|s0 rest], shares' as [|s0' rest']; try done.
  - by apply Permutation_nil_cons in Hperm.
  - symmetry in Hperm. by apply Permutation_nil_cons in Hperm.
Qed.

Lemma aggregation_is_order_independent_witness :
  aggregate_responses [[[1; 2]]; [[10; 20]]; [[100; 200]]]
  = aggregate_responses [[[100; 200]]; [[1; 2]]; [[10; 20]]] /\
  aggregate_w_shares [[[1; 2]]; [[10; 20]]; [[100; 200]]]
  = aggregate_w_shares [[[100; 200]]; [[1; 2]]; [[10; 20]]].
Proof.
  apply (aggregation_is_order_independent 1 2).
  - lia.
  - repeat constructor.
  - apply (Permutation_app_comm [[[1; 2]]; [[10; 20]]] [[[100; 200]]]).
Defined.

(** X16. [aggregate_w_shares] returns the centred coefficient-wise sum of the
    commitments: every coefficient of the result is congruent modulo [Q] to
    the sum of the parties' coefficients and lies in [[-Q/2, Q/2]]. *)
Theorem aggregate_w_shares_centred_sum (K N : nat)
    (w_shares : list (list (list Z))) :
  (0 < K)%nat -> w_shares <> [] ->
  Forall (vec_shape K N) w_shares ->
  let total := fold_left vec_add w_shares (replicate K (replicate N 0)) in
  exists W_sum,
    aggregate_w_shares w_shares = Ok (Some W_sum) /\
    vec_shape K N W_sum /\
    Forall2 (Forall2 (fun w s => (w - s) mod Config.Q = 0 /\
                                 - (Config.Q / 2) <= w <= Config.Q / 2))
            W_sum total.
Proof.
  intros HK Hne Hshape total.
  destruct (accumulate_ok K N w_shares Hshape) as [Hacc [HtK HtN]].
  fold total in Hacc, HtK, HtN.
  exists (map center_poly total). split; [|split].
  - destruct w_shares as [|w0 rest]; [done|].
    apply Forall_cons in Hshape as [[Hl0 Hp0] _].
    unfold aggregate_w_shares.
    destruct w0 as [|w00 w0']; [simpl in Hl0; lia|].
    apply Forall_cons in Hp0 as [Hn0 _].
    cbn [getitem lookup list_lookup]. rsimpl.
    rewrite Hl0, Hn0. fold total in Hacc. by rewrite Hacc.
  - split; [by rewrite length_map|].
    apply Forall_fmap. eapply Forall_impl; [exact HtN|].
    intros p Hp. simpl. unfold center_poly. by rewrite length_map.
  - apply Forall2_fmap_l, Forall_Forall2_diag, Forall_forall.
    intros p _. unfold center_poly.
    apply Forall2_fmap_l, Forall_Forall2_diag, Forall_forall.
    intros s _. apply center_mod_spec. reflexivity.
Qed.

Lemma aggregate_w_shares_centred_sum_witness :
  exists W_sum,
    aggregate_w_shares [[[4190208; 2]]; [[4190208; -20]]] = Ok (Some W_sum) /\
    vec_shape 1 2 W_sum /\
    Forall2 (Forall2 (fun w s => (w - s) mod Config.Q = 0 /\
                                 - (Config.Q / 2) <= w <= Config.Q / 2))
            W_sum
            (fold_left vec_add [[[4190208; 2]]; [[4190208; -20]]]
               (replicate 1 (replicate 2 0))).
Proof.
  apply (aggregate_w_shares_centred_sum 1 2
           [[[4190208; 2]]; [[4190208; -20]]]).
  - lia.
  - discriminate.
  - repeat constructor.
Defined.

(** ** src/src/crypto_lattice/signer.py: rejection in phase 2 *)

Section Rejection.

Variable shake_256 : list byte -> nat -> list byte.

(** The candidate response [y + c * s1] of a party with a key from the key
    generator and a mask from the sampler. *)
Lemma candidate_response_near (c : list Z) (s1_polys ys cs zs : list (list Z)) :
  length c = Config.N -> l1_norm c <= Config.TAU ->
  sampled_y ys ->
  Forall (Forall (fun x => - Config.ETA <= x <= Config.ETA)) s1_polys ->
  rmap (fun s_poly => polymul_rq c s_poly) s1_polys = Ok cs ->
  rmap (fun j => yj ← getitem ys j; csj ← getitem cs j;
                 Ok (LatticeUtils.poly_add yj csj Config.Q))
       (seq 0 Config.L) = Ok zs ->
  vec_shape Config.L Config.N zs /\ vec_near response_bound zs.
Proof.
  intros Hclen Hcl1 [Hly Hys] Hs1 Hcs Hzs.
  apply rmap_Forall2 in Hcs, Hzs.
  assert (Forall (fun zj => length zj = Config.N /\
                            Forall (near response_bound) zj) zs) as Hall.
  { eapply Forall2_Forall_r; [exact Hzs|].
    apply Forall_forall. intros j _ zj Hzj.
    apply bind_Ok_inv in Hzj as (yj & Hyj & Hzj).
    apply bind_Ok_inv in Hzj as (csj & Hcsj & Hzj).
    apply Ok_inj in Hzj as <-.
    unfold getitem in Hyj, Hcsj.
    destruct (ys !! j) as [yj'|] eqn:Hyl; [|discriminate].
    apply Ok_inj in Hyj as ->.
    destruct (cs !! j) as [csj'|] eqn:Hcl; [|discriminate].
    apply Ok_inj in Hcsj as ->.
    destruct (Forall2_lookup_r _ _ _ _ _ Hcs Hcl) as (sj & Hsj & Hmul).
    rewrite Forall_forall in Hys. rewrite Forall_forall in Hs1.
    destruct (Hys yj (list_elem_of_lookup_2 _ _ _ Hyl)) as [Hylen Hyb].
    specialize (Hs1 sj (list_elem_of_lookup_2 _ _ _ Hsj)).
    assert (Forall (fun x => Z.abs x <= Config.ETA) sj) as Hsj'.
    { eapply Forall_impl; [exact Hs1|]. intros x Hx. cbv beta in Hx. lia. }
    pose proof (polymul_rq_tracks c sj Config.ETA csj Hsj' Hclen Hmul) as Htr.
    split.
    - unfold LatticeUtils.poly_add. rewrite length_zip_with.
      destruct Htr as [-> _]. lia.
    - apply Forall_forall. intros x Hx.
      unfold LatticeUtils.poly_add in Hx.
      apply elem_of_lookup_zip_with in Hx as (i & a & b & -> & Ha & Hb).
      apply near_add_mod.
      + apply near_exact. rewrite Forall_forall in Hyb.
        specialize (Hyb a (list_elem_of_lookup_2 _ _ _ Ha)).
        cbv beta in Hyb. lia.
      + destruct (tracks_coeff _ _ b Htr (list_elem_of_lookup_2 _ _ _ Hb))
          as (g & Hg & Hgb).
        exists g. split; [done|].
        assert (0 <= Z.of_nat Config.N * Config.ETA)
          by (vm_compute; discriminate).
        nia. }
  split; [split|].
  - apply Forall2_length in Hzs. by rewrite <- Hzs, length_seq.
  - eapply Forall_impl; [exact Hall|]. by intros zj [? _].
  - eapply Forall_impl; [exact Hall|]. by intros zj [_ ?].
Qed.

(** X17. A party with a key from the key generator and a mask from the sampler
    is never rejected by the norm check of phase 2 (its response stays
    below 543744, the bound being 4189958): when [phase2_response] returns
    [None], it is the low-bits check that failed. *)
Theorem phase2_rejects_only_on_low_bits (self : ThresholdSigner)
    (W : list (list Z)) (message : list byte) (ys : list (list Z)) :
  y self = Some ys -> sampled_y ys ->
  Forall (Forall (fun c => - Config.ETA <= c <= Config.ETA)) (s1 (sk self)) ->
  phase2_response shake_256 self W message = Ok None ->
  exists ts c Ay Ce m,
    timestamp self = Some ts /\
    _derive_challenge shake_256 message
      (high_bits_vec (2 * Config.GAMMA2) W) ts = Ok c /\
    _matrix_vec_mul (A self) ys = Ok Ay /\
    rmap (fun e_poly => polymul_rq c e_poly) (s2 (sk self)) = Ok Ce /\
    max_low_norm_of (2 * Config.GAMMA2)
      (zip_with (fun p1 p2 => LatticeUtils.poly_sub p1 p2 Config.Q) Ay Ce)
    = Ok m /\
    Config.GAMMA2 - Config.BETA <= m.
Proof.
  intros Hy Hys Hs1. unfold phase2_response. rewrite Hy.
  intros (ts & Hts & H)%bind_Ok_inv.
  destruct (timestamp self) as [ts'|]; [|discriminate].
  apply Ok_inj in Hts as ->.
  apply bind_Ok_inv in H as (c & Hc & H).
  apply bind_Ok_inv in H as (cs & Hcs & H).
  apply bind_Ok_inv in H as (zs & Hzs & H).
  apply bind_Ok_inv in H as (mn & Hmn & H).
  destruct (derive_challenge_shape shake_256 _ _ _ _ Hc) as [Hclen Hcl1].
  destruct (candidate_response_near c (s1 (sk self)) ys cs zs
              Hclen Hcl1 Hys Hs1 Hcs Hzs) as [Hshape Hnear].
  assert (response_bound = 543744) as Hrb by reflexivity.
  destruct (vec_infinity_norm_near response_bound Config.L Config.N zs)
    as (n & Hn & Hnb);
    [lia|rewrite Hrb; reflexivity|unfold Config.N; lia|done|done|].
  rewrite Hn in Hmn. apply Ok_inj in Hmn as <-.
  change (Config.GAMMA1 - Config.BETA) with 4189958 in H.
  destruct (Z.geb_spec n 4189958) as [Hge|_]; [lia|].
  apply bind_Ok_inv in H as (Ay & HAy & H).
  apply bind_Ok_inv in H as (Ce & HCe & H).
  apply bind_Ok_inv in H as (mln & Hmln & H).
  destruct (Z.geb_spec mln (Config.GAMMA2 - Config.BETA)) as [Hge|_];
    [|discriminate].
  exists ts, c, Ay, Ce, mln. done.
Qed.

End Rejection.

(** ** src/src/crypto_lattice/ntt.py: polymul_rq *)

(** A loop over [range(n)] with an invariant that depends on the round. *)
Lemma rfold_seq_inv {S} (Inv : nat -> S -> Prop) (f : S -> nat -> res S)
    (len : nat) :
  forall (start : nat) (s : S),
    Inv start s ->
    (forall j s, (start <= j < start + len)%nat -> Inv j s ->
                 exists s', f s j = Ok s' /\ Inv (Datatypes.S j) s') ->
    exists s', rfold f (seq start len) s = Ok s' /\ Inv (start + len)%nat s'.
Proof.
  induction len as [|len IH]; intros start s Hs Hstep; cbn [seq rfold].
  - exists s. by rewrite Nat.add_0_r.
  - destruct (Hstep start s ltac:(lia) Hs) as (s1 & -> & Hs1). rsimpl.
    destruct (IH (Datatypes.S start) s1 Hs1) as (s' & Hrun & Hs').
    + intros j s0 Hj. apply Hstep. lia.
    + exists s'. split; [done|]. by rewrite Nat.add_succ_r.
Qed.

Lemma rfold_Ok_elem {A S} (f : S -> A -> res S) (l : list A) :
  forall (s s' : S) (x : A),
    rfold f l s = Ok s' -> x ∈ l -> exists s1 s2, f s1 x = Ok s2.
Proof.
  induction l as [|y l IH]; intros s s' x Hrun Hx; [by apply elem_of_nil in Hx|].
  cbn [rfold] in Hrun. apply bind_Ok_inv in Hrun as (s1 & Hy & Hrest).
  apply elem_of_cons in Hx as [->|Hx]; [eauto|by eapply IH].
Qed.

Lemma rfold_raises_only {A S} (e : exn) (f : S -> A -> res S) (l : list A) :
  (forall s x e', f s x = Raise e' -> e' = e) ->
  forall (s : S) (e' : exn), rfold f l s = Raise e' -> e' = e.
Proof.
  intros Hf. induction l as [|y l IH]; intros s e' Hrun; [done|].
  cbn [rfold] in Hrun. destruct (f s y) as [s1|e1] eqn:Hy.
  - rsimpl in Hrun. by eapply IH.
  - rsimpl in Hrun. injection Hrun as <-. by eapply Hf.
Qed.

(** The coefficient of [X^k] in the product modulo [X^N + 1]: the term of
    [a_i] takes [b_(k-i)], or [- b_(k+N-i)] when [i > k]. *)
Definition negacyclic_term (a b : list Z) (i k : nat) : Z :=
  if (i <=? k)%nat then nth i a 0 * nth (k - i) b 0
  else - (nth i a 0 * nth (k + Config.N - i) b 0).

Definition negacyclic_coeff (a b : list Z) (rows k : nat) : Z :=
  list_sum (map (fun i => negacyclic_term a b i k) (seq 0 rows)).

Definition negacyclic_product (a b : list Z) : list Z :=
  map (fun k => negacyclic_coeff a b Config.N k mod Config.Q)
      (seq 0 Config.N).

(** [result] holds, modulo [Q], the values [f k]. *)
Definition agrees (f : nat -> Z) (result : list Z) : Prop :=
  length result = Config.N /\
  forall k x, result !! k = Some x -> (x - f k) mod Config.Q = 0.

Lemma agrees_update (f f' : nat -> Z) (result : list Z) (k : nat) (r v t : Z) :
  agrees f result -> result !! k = Some r ->
  (v - t) mod Config.Q = 0 ->
  f' k = f k + t ->
  (forall k', (k' < Config.N)%nat -> k' <> k -> f' k' = f k') ->
  agrees f' (<[k := (r + v) mod Config.Q]> result).
Proof.
  intros [Hlen Hf] Hr Hv Hk Hother. split; [by rewrite length_insert|].
  intros k' x Hx. destruct (decide (k' = k)) as [->|Hne].
  - rewrite list_lookup_insert_eq in Hx by (by eapply lookup_lt_Some).
    injection Hx as <-. rewrite Hk. apply cong_add_mod; [by apply Hf|done].
  - rewrite list_lookup_insert_ne in Hx by done.
    rewrite (Hother k'); [by apply Hf| |done].
    rewrite <- Hlen. by eapply lookup_lt_Some.
Qed.

Lemma list_sum_app (l k : list Z) : list_sum (l ++ k) = list_sum l + list_sum k.
Proof.
  induction l as [|x l IH]; [done|].
  cbn [app]. rewrite !list_sum_cons, IH. lia.
Qed.

Lemma negacyclic_coeff_S (a b : list Z) (rows k : nat) :
  negacyclic_coeff a b (S rows) k
  = negacyclic_coeff a b rows k + negacyclic_term a b rows k.
Proof.
  unfold negacyclic_coeff. rewrite seq_S, map_app, list_sum_app.
  cbn [map Nat.add]. rewrite list_sum_cons. change (list_sum []) with 0. lia.
Qed.

Section PolymulExact.

Variable poly_a poly_b : list Z.
Hypothesis a_long : (Config.N <= length poly_a)%nat.
Hypothesis b_long : (Config.N <= length poly_b)%nat.

(** The index of [b] that meets [a_i] in the coefficient of [X^k]. *)
Definition partner (i k : nat) : nat :=
  if (i <=? k)%nat then (k - i)%nat else (k + Config.N - i)%nat.

(** The state inside row [i], before column [j]. *)
Definition row_state (i j k : nat) : Z :=
  negacyclic_coeff poly_a poly_b i k
  + (if (partner i k <? j)%nat then negacyclic_term poly_a poly_b i k else 0).

Lemma polymul_step_agrees (i j : nat) (result : list Z) :
  (i < Config.N)%nat -> (j < Config.N)%nat ->
  agrees (row_state i j) result ->
  exists result',
    polymul_step poly_a poly_b i result j = Ok result' /\
    agrees (row_state i (S j)) result'.
Proof.
  intros Hi Hj Hag. pose proof Hag as [Hlen _]. unfold polymul_step.
  destruct (lookup_lt_is_Some_2 poly_a i) as [a0 Ha0]; [lia|].
  destruct (lookup_lt_is_Some_2 poly_b j) as [b0 Hb0]; [lia|].
  rewrite (getitem_lookup _ _ _ Ha0), (getitem_lookup _ _ _ Hb0). rsimpl.
  destruct (i + j <? Config.N)%nat eqn:Hlt.
  - apply Nat.ltb_lt in Hlt.
    destruct (lookup_lt_is_Some_2 result (i + j)) as [r Hr]; [lia|].
    rewrite (getitem_lookup _ _ _ Hr). rsimpl. eexists. split; [done|].
    apply (agrees_update (row_state i j) _ result (i + j) r _ (a0 * b0) Hag Hr
             (cong_mul_mod a0 b0)).
    + unfold row_state, partner, negacyclic_term.
      destruct (Nat.leb_spec i (i + j)); [|lia].
      replace (i + j - i)%nat with j by lia.
      destruct (Nat.ltb_spec j j); [lia|].
      destruct (Nat.ltb_spec j (S j)); [|lia].
      rewrite (nth_lookup_Some _ _ _ _ Ha0), (nth_lookup_Some _ _ _ _ Hb0). lia.
    + intros k' Hbound Hk'. unfold row_state, partner.
      destruct (Nat.leb_spec i k');
        destruct (Nat.ltb_spec (k' - i) j); destruct (Nat.ltb_spec (k' - i) (S j));
        destruct (Nat.ltb_spec (k' + Config.N - i) j);
        destruct (Nat.ltb_spec (k' + Config.N - i) (S j)); try lia; try done.
  - apply Nat.ltb_ge in Hlt.
    destruct (lookup_lt_is_Some_2 result (i + j - Config.N)) as [r Hr]; [lia|].
    rewrite (getitem_lookup _ _ _ Hr). rsimpl. eexists. split; [done|].
    replace (r - (a0 mod Config.Q * (b0 mod Config.Q)) mod Config.Q)
      with (r + - ((a0 mod Config.Q * (b0 mod Config.Q)) mod Config.Q)) by lia.
    apply (agrees_update (row_state i j) _ result (i + j - Config.N) r _
             (- (a0 * b0)) Hag Hr (cong_opp _ _ (cong_mul_mod a0 b0))).
    + unfold row_state, partner, negacyclic_term.
      destruct (Nat.leb_spec i (i + j - Config.N)); [lia|].
      replace (i + j - Config.N + Config.N - i)%nat with j by lia.
      destruct (Nat.ltb_spec j j); [lia|].
      destruct (Nat.ltb_spec j (S j)); [|lia].
      rewrite (nth_lookup_Some _ _ _ _ Ha0), (nth_lookup_Some _ _ _ _ Hb0). lia.
    + intros k' Hbound Hk'. unfold row_state, partner.
      destruct (Nat.leb_spec i k');
        destruct (Nat.ltb_spec (k' - i) j); destruct (Nat.ltb_spec (k' - i) (S j));
        destruct (Nat.ltb_spec (k' + Config.N - i) j);
        destruct (Nat.ltb_spec (k' + Config.N - i) (S j)); try lia; try done.
Qed.

Lemma polymul_row_agrees (i : nat) (result : list Z) :
  (i < Config.N)%nat ->
  agrees (negacyclic_coeff poly_a poly_b i) result ->
  exists result',
    rfold (polymul_step poly_a poly_b i) (seq 0 Config.N) result = Ok result' /\
    agrees (negacyclic_coeff poly_a poly_b (S i)) result'.
Proof.
  intros Hi Hag.
  destruct (rfold_seq_inv (fun j => agrees (row_state i j))
              (polymul_step poly_a poly_b i) Config.N 0 result)
    as (result' & Hrun & [Hlen Hres]).
  - destruct Hag as [Hlen Hf]. split; [done|]. intros k x Hx.
    unfold row_state. destruct (Nat.ltb_spec (partner i k) 0); [lia|].
    rewrite Z.add_0_r. by apply Hf.
  - intros j s Hj. apply polymul_step_agrees; [done|lia].
  - exists result'. split; [done|]. split; [done|]. intros k x Hx.
    specialize (Hres k x Hx). rewrite negacyclic_coeff_S.
    unfold row_state in Hres.
    assert (k < Config.N)%nat as Hk
      by (rewrite <- Hlen; by eapply lookup_lt_Some).
    destruct (Nat.ltb_spec (partner i k) (0 + Config.N)) as [_|Hge]; [done|].
    unfold partner in Hge. destruct (Nat.leb_spec i k); lia.
Qed.

(** The schoolbook loop computes the product in [Z_Q[X]/(X^N + 1)]: on
    inputs with at least [N] coefficients, coefficient [k] of the result is
    the sum of the [a_i * b_j] with [i + j = k] minus the sum of those with
    [i + j = k + N], reduced modulo [Q]. *)
Lemma polymul_rq_exact :
  polymul_rq poly_a poly_b = Ok (negacyclic_product poly_a poly_b).
Proof.
  unfold polymul_rq.
  destruct (rfold_seq_inv
              (fun i => agrees (negacyclic_coeff poly_a poly_b i))
              (fun result i =>
                 rfold (polymul_step poly_a poly_b i) (seq 0 Config.N) result)
              Config.N 0 (replicate Config.N 0))
    as (result & -> & [Hlen Hres]).
  - split; [by rewrite length_replicate|]. intros k x Hx.
    apply lookup_replicate in Hx as [-> _]. reflexivity.
  - intros i s Hi. apply polymul_row_agrees. lia.
  - rsimpl. f_equal. unfold negacyclic_product.
    apply list_eq. intros k. rewrite !list_lookup_fmap.
    destruct (result !! k) as [x|] eqn:Hx.
    + assert (k < Config.N)%nat as Hk
        by (rewrite <- Hlen; by eapply lookup_lt_Some).
      rewrite lookup_seq_lt by done. cbn [fmap option_fmap option_map].
      f_equal. specialize (Hres k x Hx). cbn [Nat.add] in Hres.
      pose proof Q_pos as HQ.
      apply Z.mod_divide in Hres as [m Hm]; [|lia].
      replace (x + Config.Q)
        with (negacyclic_coeff poly_a poly_b Config.N k + (m + 1) * Config.Q)
        by lia.
      apply Z_mod_plus_full.
    + rewrite lookup_seq_ge; [done|]. rewrite <- Hlen. by apply lookup_ge_None.
Qed.

End PolymulExact.

(** X18. [polymul_rq] multiplies in [Z_Q[X]/(X^N + 1)]: on inputs with at least
    [N] coefficients (the ones beyond [N] are ignored) it returns the [N]
    coefficients of the negacyclic product, each the sum of the [a_i * b_j]
    with [i + j = k] minus those with [i + j = k + N], reduced into
    [[0, Q)]. *)
Theorem polymul_rq_is_negacyclic_product (poly_a poly_b : list Z) :
  (Config.N <= length poly_a)%nat -> (Config.N <= length poly_b)%nat ->
  polymul_rq poly_a poly_b = Ok (negacyclic_product poly_a poly_b) /\
  length (negacyclic_product poly_a poly_b) = Config.N /\
  Forall (fun c => 0 <= c < Config.Q) (negacyclic_product poly_a poly_b).
Proof.
  intros Ha Hb. split; [by apply polymul_rq_exact|]. split.
  - unfold negacyclic_product. by rewrite length_map, length_seq.
  - unfold negacyclic_product. apply Forall_fmap, Forall_forall.
    intros k _. apply Z.mod_pos_bound. reflexivity.
Qed.

(** X19. An input with fewer than [N] coefficients makes [polymul_rq] raise
    [IndexError]: the loops read [poly_a[i]] and [poly_b[j]] for all
    [i, j < N]. *)
Theorem polymul_rq_short_input_raises (poly_a poly_b : list Z) :
  (length poly_a < Config.N)%nat \/ (length poly_b < Config.N)%nat ->
  polymul_rq poly_a poly_b = Raise IndexError.
Proof.
  intros Hshort. unfold polymul_rq.
  destruct (rfold _ (seq 0 Config.N) (replicate Config.N 0))
    as [result|e] eqn:Hrun.
  - exfalso.
    assert (forall i j, (i < Config.N)%nat -> (j < Config.N)%nat ->
              exists s1 s2, polymul_step poly_a poly_b i s1 j = Ok s2) as Hall.
    { intros i j Hi Hj.
      destruct (rfold_Ok_elem _ _ _ _ i Hrun) as (s1 & s2 & Hrow);
        [apply elem_of_seq; lia|].
      apply (rfold_Ok_elem _ _ _ _ j Hrow). apply elem_of_seq. lia. }
    assert (0 < Config.N)%nat as HN by (unfold Config.N; lia).
    destruct Hshort as [Ha|Hb].
    + destruct (Hall (length poly_a) 0%nat Ha HN) as (s1 & s2 & Hstep).
      unfold polymul_step, getitem in Hstep.
      by rewrite (lookup_ge_None_2 poly_a (length poly_a)) in Hstep by lia.
    + destruct (Hall 0%nat (length poly_b) HN Hb) as (s1 & s2 & Hstep).
      unfold polymul_step, getitem in Hstep.
      destruct (poly_a !! 0%nat); [|done]. rsimpl in Hstep.
      by rewrite (lookup_ge_None_2 poly_b (length poly_b)) in Hstep by lia.
  - rsimpl. f_equal.
    apply (rfold_raises_only IndexError) in Hrun; [done|].
    intros s i e' Hrow.
    apply (rfold_raises_only IndexError) in Hrow; [done|].
    intros s0 j e0 Hstep. unfold polymul_step, getitem in Hstep.
    destruct (poly_a !! i); [|by injection Hstep].
    destruct (poly_b !! j); [|by injection Hstep]. rsimpl in Hstep.
    destruct (i + j <? Config.N)%nat.
    + destruct (s0 !! (i + j)%nat); [done|by injection Hstep].
    + destruct (s0 !! (i + j - Config.N)%nat); [done|by injection Hstep].
Qed.

Lemma polymul_rq_is_negacyclic_product_witness :
  polymul_rq (map Z.of_nat (seq 0 Config.N)) (replicate Config.N (-3))
  = Ok (negacyclic_product (map Z.of_nat (seq 0 Config.N))
          (replicate Config.N (-3))) /\
  length (negacyclic_product (map Z.of_nat (seq 0 Config.N))
            (replicate Config.N (-3))) = Config.N /\
  Forall (fun c => 0 <= c < Config.Q)
         (negacyclic_product (map Z.of_nat (seq 0 Config.N))
            (replicate Config.N (-3))).
Proof.
  apply (polymul_rq_is_negacyclic_product (map Z.of_nat (seq 0 Config.N))
           (replicate Config.N (-3))).
  - rewrite length_map, length_seq. lia.
  - rewrite length_replicate. lia.
Defined.

Lemma polymul_rq_short_input_raises_witness :
  polymul_rq [1; 2; 3] (replicate Config.N 1) = Raise IndexError.
Proof.
  apply (polymul_rq_short_input_raises [1; 2; 3] (replicate Config.N 1)).
  left. unfold Config.N. simpl. lia.
Defined.

(** *** A rejected response *)

(** The polynomial 2. *)
Definition two_poly : list Z := 2 :: replicate (Config.N - 1) 0.

(** A party whose matrix doubles the mask. *)
Definition doubling_signer : ThresholdSigner :=
  {| sk := {| rho := []; s1 := [zero_poly; zero_poly]; s2 := [zero_poly] |};
     index := 0; A := [[two_poly]]; y := Some loud_mask;
     w_share := None; timestamp := Some 1700000000 |}.

Lemma matrix_vec_mul_single (a v p : list Z) (vs : list (list Z)) :
  polymul_rq a v = Ok p ->
  _matrix_vec_mul [[a]] (v :: vs)
  = Ok [zip_with Z.add (replicate Config.N 0) p].
Proof.
  intros Hp. unfold _matrix_vec_mul.
  do 3 (cbn [getitem lookup list_lookup length rmap seq rfold]; rsimpl).
  by rewrite Hp.
Qed.

Lemma doubling_product :
  zip_with Z.add (replicate Config.N 0)
    (negacyclic_product two_poly (replicate Config.N y_bound))
  = replicate Config.N (2 * y_bound).
Proof. vm_compute. reflexivity. Qed.

Lemma doubling_commitment :
  _matrix_vec_mul [[two_poly]] loud_mask
  = Ok [replicate Config.N (2 * y_bound)].
Proof.
  rewrite <- doubling_product.
  apply (matrix_vec_mul_single two_poly (replicate Config.N y_bound) _
           [replicate Config.N y_bound]).
  apply polymul_rq_exact.
  - unfold two_poly. cbn [length]. rewrite length_replicate.
    unfold Config.N. lia.
  - by rewrite length_replicate.
Qed.

Lemma doubling_rejected (shake_256 : list byte -> nat -> list byte) :
  phase2_response shake_256 doubling_signer (replicate Config.K zero_poly)
    [x68; x69] = Ok None.
Proof.
  unfold phase2_response. cbn [y timestamp doubling_signer]. rsimpl.
  unfold _derive_challenge.
  match goal with
  | |- context [challenge_input ?m ?w ?t] =>
      assert (exists input, challenge_input m w t = Ok input) as [input ->]
        by (eexists; vm_compute; reflexivity)
  end.
  rsimpl.
  match goal with
  | |- context [challenge_scan ?d ?z 0] =>
      assert (length (challenge_scan d z 0) = Config.N) as Hc
        by (by rewrite challenge_scan_length, length_replicate);
      generalize dependent (challenge_scan d z 0)
  end.
  intros c Hc.
  cbn [rmap s1 s2 sk doubling_signer A].
  rewrite !(polymul_rq_zero c zero_poly)
    by (try apply length_replicate; by auto).
  rewrite doubling_commitment.
  vm_compute. reflexivity.
Qed.

Lemma phase2_rejects_only_on_low_bits_witness :
  exists ts c Ay Ce m,
    timestamp doubling_signer = Some ts /\
    _derive_challenge sample_digest [x68; x69]
      (high_bits_vec (2 * Config.GAMMA2) (replicate Config.K zero_poly)) ts
    = Ok c /\
    _matrix_vec_mul (A doubling_signer) loud_mask = Ok Ay /\
    rmap (fun e_poly => polymul_rq c e_poly) (s2 (sk doubling_signer))
    = Ok Ce /\
    max_low_norm_of (2 * Config.GAMMA2)
      (zip_with (fun p1 p2 => LatticeUtils.poly_sub p1 p2 Config.Q) Ay Ce)
    = Ok m /\
    Config.GAMMA2 - Config.BETA <= m.
Proof.
  apply (phase2_rejects_only_on_low_bits sample_digest doubling_signer
           (replicate Config.K zero_poly) [x68; x69] loud_mask).
  - reflexivity.
  - apply loud_mask_sampled.
  - cbn [s1 sk doubling_signer].
    assert (Forall (fun c => - Config.ETA <= c <= Config.ETA) zero_poly) as H0
      by (apply Forall_replicate; vm_compute; split; discriminate).
    apply Forall_cons_2; [done|]. apply Forall_cons_2; [done|]. constructor.
  - apply doubling_rejected.
Defined.

(** ** src/src/image_stego/utils.py: BitStreamUtils *)

(** The eight bits of a byte, highest first. *)
Definition byte_bits (b : byte) : list Z :=
  map (fun i => Z.land (Z.shiftr (byte_val b) i) 1) [7; 6; 5; 4; 3; 2; 1; 0].

Lemma bytes_to_bits_cons (b : byte) (data : list byte) :
  BitStreamUtils.bytes_to_bits (b :: data)
  = byte_bits b ++ BitStreamUtils.bytes_to_bits data.
Proof. reflexivity. Qed.

Lemma byte_bits_value (b : byte) :
  fold_left (fun val bit => Z.lor (Z.shiftl val 1) bit) (byte_bits b) 0
  = byte_val b.
Proof. destruct b; reflexivity. Qed.

Lemma byte_of_Z_val (b : byte) : byte_of_Z (byte_val b) = b.
Proof. destruct b; reflexivity. Qed.

Lemma byte_bits_binary (b : byte) :
  Forall (fun bit => bit = 0 \/ bit = 1) (byte_bits b).
Proof.
  unfold byte_bits. apply Forall_fmap, Forall_forall. intros i _.
  unfold compose. cbv beta.
  pose proof (Z.land_ones (Z.shiftr (byte_val b) i) 1 ltac:(lia)) as Hland.
  change (Z.ones 1) with 1 in Hland. rewrite Hland.
  pose proof (Z.mod_pos_bound (Z.shiftr (byte_val b) i) (2 ^ 1) ltac:(lia)).
  change (2 ^ 1) with 2 in *. lia.
Qed.

Lemma length_bytes_to_bits (data : list byte) :
  length (BitStreamUtils.bytes_to_bits data) = (8 * length data)%nat.
Proof.
  induction data as [|b data IH]; [done|].
  rewrite bytes_to_bits_cons, length_app, IH. cbn [length byte_bits map]. lia.
Qed.

Lemma drop_bytes_to_bits (k : nat) (data : list byte) :
  drop (8 * k) (BitStreamUtils.bytes_to_bits data)
  = BitStreamUtils.bytes_to_bits (drop k data).
Proof.
  revert data. induction k as [|k IH]; intros data; [done|].
  destruct data as [|b data].
  - by rewrite drop_nil.
  - rewrite bytes_to_bits_cons. replace (8 * S k)%nat with (8 + 8 * k)%nat by lia.
    rewrite <- drop_drop. rewrite (drop_app_length' (byte_bits b)) by done.
    cbn [drop]. apply IH.
Qed.

(** The loop from chunk [k] on, with the bytes before it collected. *)
Lemma bits_to_bytes_loop_spec (data : list byte) (extra : list Z) (m : nat) :
  (length extra < 8)%nat ->
  forall (k : nat) (byte_array : list byte),
    (length data <= k + m)%nat ->
    BitStreamUtils.bits_to_bytes_loop
      (map (fun j => (8 * j)%nat) (seq k m))
      (BitStreamUtils.bytes_to_bits data ++ extra) byte_array
    = Ok (byte_array ++ drop k data).
Proof.
  intros Hextra. induction m as [|m IH]; intros k acc Hk.
  - cbn [seq map BitStreamUtils.bits_to_bytes_loop].
    rewrite drop_ge by lia. by rewrite app_nil_r.
  - cbn [seq map BitStreamUtils.bits_to_bytes_loop].
    destruct (decide (k < length data)%nat) as [Hlt|Hge].
    + destruct (lookup_lt_is_Some_2 data k Hlt) as [b Hb].
      rewrite drop_app_le by (rewrite length_bytes_to_bits; lia).
      rewrite drop_bytes_to_bits, (drop_S _ _ _ Hb), bytes_to_bits_cons.
      rewrite <- app_assoc, (take_app_length' (byte_bits b)) by done.
      change (length (byte_bits b) <? 8)%nat with false. cbv iota.
      rewrite byte_bits_value.
      pose proof (byte_val_range b) as Hb8.
      destruct (Z.leb_spec 0 (byte_val b)); [|lia].
      destruct (Z.ltb_spec (byte_val b) 256); [|lia]. cbn [andb].
      rewrite byte_of_Z_val, IH by lia. by rewrite <- app_assoc.
    + rewrite drop_app_ge by (rewrite length_bytes_to_bits; lia).
      assert (length (take 8 (drop (8 * k - length (BitStreamUtils.bytes_to_bits
                                                      data)) extra)) < 8)%nat
        as Hshort by (rewrite length_take, length_drop; lia).
      apply Nat.ltb_lt in Hshort. rewrite Hshort.
      rewrite drop_ge by lia. by rewrite app_nil_r.
Qed.

Lemma bits_of_bytes_read_back (data : list byte)
    (extra : list Z) :
  (length extra < 8)%nat ->
  BitStreamUtils.bits_to_bytes (BitStreamUtils.bytes_to_bits data ++ extra)
  = Ok data.
Proof.
  intros Hextra. unfold BitStreamUtils.bits_to_bytes, BitStreamUtils.range8.
  rewrite (bits_to_bytes_loop_spec data extra _ Hextra 0 []).
  - done.
  - rewrite length_app, length_bytes_to_bits.
    replace (8 * length data + length extra + 7)%nat
      with (length extra + 7 + length data * 8)%nat by lia.
    rewrite Nat.div_add by lia. lia.
Qed.

(** X20. [bits_to_bytes] undoes [bytes_to_bits], and drops up to seven trailing
    bits: every byte gives eight bits, each 0 or 1, highest first, and the
    bytes come back from the bit list, whatever follows it short of a full
    byte. *)
Theorem bits_to_bytes_undoes_bytes_to_bits (data : list byte)
    (extra : list Z) :
  (length extra < 8)%nat ->
  length (BitStreamUtils.bytes_to_bits data) = (8 * length data)%nat /\
  Forall (fun bit => bit = 0 \/ bit = 1) (BitStreamUtils.bytes_to_bits data) /\
  BitStreamUtils.bits_to_bytes (BitStreamUtils.bytes_to_bits data ++ extra)
  = Ok data.
Proof.
  intros Hextra. split; [apply length_bytes_to_bits|]. split.
  - induction data as [|b data IH]; [constructor|].
    rewrite bytes_to_bits_cons. apply Forall_app. split; [|done].
    apply byte_bits_binary.
  - by apply bits_of_bytes_read_back.
Qed.

Lemma bits_to_bytes_undoes_bytes_to_bits_witness :
  length (BitStreamUtils.bytes_to_bits [x00; xa5; xff]) = (8 * 3)%nat /\
  Forall (fun bit => bit = 0 \/ bit = 1)
         (BitStreamUtils.bytes_to_bits [x00; xa5; xff]) /\
  BitStreamUtils.bits_to_bytes
    (BitStreamUtils.bytes_to_bits [x00; xa5; xff] ++ [1; 0; 1])
  = Ok [x00; xa5; xff].
Proof.
  apply (bits_to_bytes_undoes_bytes_to_bits [x00; xa5; xff] [1; 0; 1]).
  simpl. lia.
Defined.

Lemma byte_val_of_Z (v : Z) : 0 <= v < 256 -> byte_val (byte_of_Z v) = v.
Proof.
  intros Hv. unfold byte_val, byte_of_Z.
  destruct (Byte.of_N (Z.to_N v)) as [b|] eqn:Hb.
  - apply Byte.to_of_N in Hb. rewrite Hb. lia.
  - apply Byte.of_N_None_iff in Hb. lia.
Qed.

Lemma bytes_to_int_snoc (l : list byte) (b : byte) :
  BitStreamUtils.bytes_to_int (l ++ [b])
  = BitStreamUtils.bytes_to_int l * 256 + byte_val b.
Proof. unfold BitStreamUtils.bytes_to_int. by rewrite fold_left_app. Qed.

Lemma bytes_to_int_le_bytes (len : nat) (x : Z) :
  0 <= x ->
  BitStreamUtils.bytes_to_int (reverse (le_bytes len x))
  = x mod 2 ^ (8 * Z.of_nat len) /\
  length (le_bytes len x) = len.
Proof.
  revert x. induction len as [|len IH]; intros x Hx.
  - split; [|done]. cbn. by rewrite Z.mod_1_r.
  - cbn [le_bytes]. rewrite reverse_cons, bytes_to_int_snoc.
    destruct (IH (x / 256) ltac:(apply Z.div_pos; lia)) as [-> Hl].
    split; [|cbn [length]; by rewrite Hl].
    rewrite byte_val_of_Z by (apply Z.mod_pos_bound; lia).
    replace (8 * Z.of_nat (S len)) with (8 + 8 * Z.of_nat len) by lia.
    rewrite Z.pow_add_r by lia. change (2 ^ 8) with 256.
    rewrite (Z.rem_mul_r x 256) by (try apply Z.pow_pos_nonneg; lia). lia.
Qed.

Lemma big_endian_read_back (number : Z) (size : nat) :
  0 <= number < 2 ^ (8 * Z.of_nat size) ->
  exists bs, BitStreamUtils.int_to_bytes number size = Ok bs /\
             length bs = size /\
             BitStreamUtils.bytes_to_int bs = number.
Proof.
  intros Hn. unfold BitStreamUtils.int_to_bytes, to_bytes_le.
  destruct (Z.leb_spec 0 number); [|lia].
  destruct (Z.ltb_spec number (2 ^ (8 * Z.of_nat size))); [|lia].
  cbn [andb]. rsimpl.
  destruct (bytes_to_int_le_bytes size number ltac:(lia)) as [Hv Hl].
  eexists. split; [done|]. split; [by rewrite length_reverse|].
  rewrite Hv. apply Z.mod_small. lia.
Qed.

(** X21. [bytes_to_int] undoes [int_to_bytes] (big endian): a number in
    [[0, 256^size)] gives [size] bytes from which it is read back, and any
    other number raises [OverflowError]. *)
Theorem bytes_to_int_undoes_int_to_bytes (number : Z) (size : nat) :
  (0 <= number < 2 ^ (8 * Z.of_nat size) ->
   exists bs, BitStreamUtils.int_to_bytes number size = Ok bs /\
              length bs = size /\
              BitStreamUtils.bytes_to_int bs = number) /\
  (~ 0 <= number < 2 ^ (8 * Z.of_nat size) ->
   BitStreamUtils.int_to_bytes number size = Raise OverflowError).
Proof.
  split; [apply big_endian_read_back|].
  intros Hn. unfold BitStreamUtils.int_to_bytes, to_bytes_le.
  destruct (Z.leb_spec 0 number);
    destruct (Z.ltb_spec number (2 ^ (8 * Z.of_nat size)));
    cbn [andb]; rsimpl; try done. lia.
Qed.

(** X22. The framing of [DCTEmbedder.embed]: the payload behind a 4-byte length.
    For a payload of fewer than [2^32] bytes, the first 32 bits of the
    stream give the length back and the rest the payload. *)
Theorem length_header_frames_payload (payload : list byte) :
  Z.of_nat (length payload) < 2 ^ 32 ->
  exists header,
    BitStreamUtils.int_to_bytes (Z.of_nat (length payload)) 4 = Ok header /\
    let bits := BitStreamUtils.bytes_to_bits (header ++ payload) in
    length bits = (8 * (4 + length payload))%nat /\
    BitStreamUtils.bits_to_bytes (take 32 bits) = Ok header /\
    BitStreamUtils.bytes_to_int header = Z.of_nat (length payload) /\
    BitStreamUtils.bits_to_bytes (drop 32 bits) = Ok payload.
Proof.
  intros Hlen.
  destruct (big_endian_read_back (Z.of_nat (length payload)) 4)
    as (header & Hh & Hhl & Hhv); [change (8 * Z.of_nat 4) with 32; lia|].
  exists header. split; [done|]. cbv zeta.
  assert (BitStreamUtils.bytes_to_bits (header ++ payload)
          = BitStreamUtils.bytes_to_bits header
            ++ BitStreamUtils.bytes_to_bits payload) as Happ.
  { unfold BitStreamUtils.bytes_to_bits. apply bind_app. }
  assert (length (BitStreamUtils.bytes_to_bits header) = 32%nat) as H32
    by (rewrite length_bytes_to_bits, Hhl; done).
  rewrite Happ. split; [|split; [|split]].
  - rewrite length_app, !length_bytes_to_bits, Hhl. lia.
  - rewrite take_app_length' by done.
    rewrite <- (app_nil_r (BitStreamUtils.bytes_to_bits header)).
    apply bits_of_bytes_read_back. simpl. lia.
  - done.
  - rewrite drop_app_length' by done.
    rewrite <- (app_nil_r (BitStreamUtils.bytes_to_bits payload)).
    apply bits_of_bytes_read_back. simpl. lia.
Qed.

Lemma length_header_frames_payload_witness :
  exists header,
    BitStreamUtils.int_to_bytes (Z.of_nat (length [x51; x53; x50])) 4
    = Ok header /\
    let bits := BitStreamUtils.bytes_to_bits (header ++ [x51; x53; x50]) in
    length bits = (8 * (4 + length [x51; x53; x50]))%nat /\
    BitStreamUtils.bits_to_bytes (take 32 bits) = Ok header /\
    BitStreamUtils.bytes_to_int header = Z.of_nat (length [x51; x53; x50]) /\
    BitStreamUtils.bits_to_bytes (drop 32 bits) = Ok [x51; x53; x50].
Proof. apply (length_header_frames_payload [x51; x53; x50]). simpl. lia. Defined.

(** ** src/src/image_stego/utils.py: ZigZagUtils and ShareSerializer *)

(** The cells of a block, row by row. *)
Definition block_cells (block_size : nat) : list (nat * nat) :=
  y ← seq 0 block_size; x ← seq 0 block_size; [(y, x)].

Lemma elem_of_block_cells (block_size : nat) (cell : nat * nat) :
  cell ∈ block_cells block_size <->
  (fst cell < block_size)%nat /\ (snd cell < block_size)%nat.
Proof.
  unfold block_cells. destruct cell as [y x]. cbn [fst snd].
  rewrite list_elem_of_bind. split.
  - intros (y' & Hx & Hy%elem_of_seq).
    apply list_elem_of_bind in Hx as (x' & Hc & Hx%elem_of_seq).
    apply list_elem_of_singleton in Hc. injection Hc as -> ->. lia.
  - intros [Hy Hx]. exists y. split; [|apply elem_of_seq; lia].
    apply list_elem_of_bind. exists x.
    split; [by apply list_elem_of_singleton|apply elem_of_seq; lia].
Qed.

Lemma concat_alter_snoc {A} (lines : list (list A)) (i : nat) (c : A) :
  (i < length lines)%nat ->
  concat (alter (fun line => line ++ [c]) i lines) ≡ₚ c :: concat lines.
Proof.
  revert i. induction lines as [|line lines IH]; intros [|i] Hi;
    simpl in *; try lia.
  - rewrite <- app_assoc. cbn [app].
    by rewrite <- Permutation_middle.
  - rewrite (IH i) by lia. by rewrite Permutation_middle.
Qed.

Lemma diagonals_fold (cells : list (nat * nat)) :
  forall lines : list (list (nat * nat)),
    Forall (fun yx => (fst yx + snd yx < length lines)%nat) cells ->
    let lines' := fold_left (fun lines yx =>
                               alter (fun line => line ++ [yx])
                                     (fst yx + snd yx)%nat lines)
                            cells lines in
    length lines' = length lines /\ concat lines' ≡ₚ concat lines ++ cells.
Proof.
  induction cells as [|c cells IH]; intros lines Hcells; cbn [fold_left].
  - by rewrite app_nil_r.
  - apply Forall_cons in Hcells as [Hc Hcells].
    destruct (IH (alter (fun line => line ++ [c]) (fst c + snd c)%nat lines))
      as [Hlen Hperm]; [by rewrite length_alter|].
    cbv zeta in *. rewrite length_alter in Hlen. split; [done|].
    rewrite Hperm, concat_alter_snoc by done.
    by rewrite <- Permutation_middle.
Qed.

Lemma concat_imap_reverse {A} (lines : list (list A)) :
  forall f : nat -> bool,
    concat (imap (fun i line => if f i then reverse line else line) lines)
    ≡ₚ concat lines.
Proof.
  induction lines as [|line lines IH]; intros f; [done|].
  cbn [imap concat]. apply Permutation_app.
  - destruct (f 0%nat); [by rewrite reverse_Permutation|done].
  - apply (IH (f ∘ S)).
Qed.

Lemma zigzag_map_permutation (block_size : nat) :
  ZigZagUtils._generate_zigzag_map block_size ≡ₚ block_cells block_size.
Proof.
  assert (forall bs,
            concat (imap (fun i line => if Nat.even i then reverse line
                                        else line)
                         (ZigZagUtils.diagonals bs))
            ≡ₚ block_cells bs) as Hgeneral.
  { intros bs. rewrite (concat_imap_reverse _ Nat.even).
    unfold ZigZagUtils.diagonals.
    destruct (diagonals_fold (block_cells bs)
                (replicate (2 * bs - 1) [])) as [_ Hperm].
    - apply Forall_forall. intros cell [Hy Hx]%elem_of_block_cells.
      rewrite length_replicate. lia.
    - cbv zeta in Hperm. rewrite Hperm.
      assert (forall n, concat (replicate n (@nil (nat * nat))) = []) as ->
        by (intros n; induction n as [|n IHn]; [done|exact IHn]).
      done. }
  unfold ZigZagUtils._generate_zigzag_map.
  destruct (Nat.eqb_spec block_size 8) as [->|_]; [|apply Hgeneral].
  rewrite <- Hgeneral. by vm_compute.
Qed.

(** X23. The zigzag map visits every cell of the block exactly once, for every
    block size (the table for size 8 is the scan of the diagonals that the
    other sizes compute); [get_coordinates] returns the cell of an index in
    [[0, block_size^2)] and raises [ValueError] for any other index. *)
Theorem zigzag_visits_every_cell_once (block_size : nat) :
  ZigZagUtils._generate_zigzag_map block_size ≡ₚ block_cells block_size /\
  NoDup (ZigZagUtils._generate_zigzag_map block_size) /\
  forall index : Z,
    (0 <= index < Z.of_nat (block_size * block_size) ->
     exists cell,
       ZigZagUtils.get_coordinates block_size index = Ok cell /\
       (fst cell < block_size)%nat /\ (snd cell < block_size)%nat) /\
    (~ 0 <= index < Z.of_nat (block_size * block_size) ->
     ZigZagUtils.get_coordinates block_size index = Raise ValueError).
Proof.
  pose proof (zigzag_map_permutation block_size) as Hperm.
  assert (length (block_cells block_size) = (block_size * block_size)%nat)
    as Hcells.
  { unfold block_cells.
    assert (forall (l : list nat),
              length (y ← l; x ← seq 0 block_size; [(y, x)])
              = (length l * block_size)%nat) as Hl.
    { induction l as [|y l IH]; [done|].
      rewrite bind_cons, length_app, IH. cbn [length].
      assert (forall l' : list nat,
                length (x ← l'; [(y, x)]) = length l') as ->.
      { induction l' as [|x l' IH']; [done|].
        rewrite bind_cons, length_app, IH'. done. }
      rewrite length_seq. lia. }
    by rewrite Hl, length_seq. }
  assert (length (ZigZagUtils._generate_zigzag_map block_size)
          = (block_size * block_size)%nat) as Hlen
    by (by rewrite Hperm).
  split; [done|]. split.
  - rewrite Hperm. unfold block_cells.
    apply NoDup_bind; [| |apply NoDup_seq].
    + intros y1 y2 c _ _ Hc1 Hc2.
      apply list_elem_of_bind in Hc1 as (x1 & ->%list_elem_of_singleton & _).
      apply list_elem_of_bind in Hc2 as (x2 & Heq%list_elem_of_singleton & _).
      by injection Heq.
    + intros y _. apply NoDup_bind; [| |apply NoDup_seq].
      * intros x1 x2 c _ _ ->%list_elem_of_singleton Heq%list_elem_of_singleton.
        by injection Heq.
      * intros x _. apply NoDup_singleton.
  - intros index. unfold ZigZagUtils.get_coordinates. rewrite Hlen. split.
    + intros Hi. destruct (Z.leb_spec 0 index); [|lia].
      destruct (Z.ltb_spec index (Z.of_nat (block_size * block_size))); [|lia].
      cbn [andb].
      destruct (lookup_lt_is_Some_2
                  (ZigZagUtils._generate_zigzag_map block_size)
                  (Z.to_nat index)) as [cell Hcell]; [lia|].
      exists cell. split; [by apply getitem_lookup|].
      apply elem_of_block_cells. rewrite <- Hperm.
      by eapply list_elem_of_lookup_2.
    + intros Hi. destruct (Z.leb_spec 0 index);
        destruct (Z.ltb_spec index (Z.of_nat (block_size * block_size)));
        cbn [andb]; try done. lia.
Qed.

Section SerializerFacts.

Variable share : Type.
Variable pickle_dumps : share -> res (list byte).
Variable pickle_loads : list byte -> res share.
Variable zlib_compress : list byte -> res (list byte).
Variable zlib_decompress : list byte -> res (list byte).

(** X24. [deserialize] raises nothing but [ValueError], whatever the
    libraries raise. [serialize] turns a failure of [pickle.dumps] into
    [ValueError] and passes a failure of [zlib.compress] on unchanged. When
    [zlib.decompress] undoes [zlib.compress] and [pickle.loads] undoes
    [pickle.dumps], [deserialize] undoes [serialize]. *)
Theorem deserialize_undoes_serialize :
  (forall raw compressed,
     zlib_compress raw = Ok compressed ->
     zlib_decompress compressed = Ok raw) ->
  (forall d raw, pickle_dumps d = Ok raw -> pickle_loads raw = Ok d) ->
  (forall d compressed,
     ShareSerializer.serialize share pickle_dumps zlib_compress d
     = Ok compressed ->
     ShareSerializer.deserialize share pickle_loads zlib_decompress compressed
     = Ok d) /\
  (forall compressed e,
     ShareSerializer.deserialize share pickle_loads zlib_decompress compressed
     = Raise e ->
     e = ValueError) /\
  (forall d e,
     ShareSerializer.serialize share pickle_dumps zlib_compress d = Raise e ->
     (e = ValueError /\ exists e', pickle_dumps d = Raise e') \/
     (exists raw, pickle_dumps d = Ok raw /\ zlib_compress raw = Raise e)).
Proof.
  intros Hzlib Hpickle.
  unfold ShareSerializer.serialize, ShareSerializer.deserialize.
  split; [|split].
  - intros d compressed Hs.
    destruct (pickle_dumps d) as [raw|e] eqn:Hd; [|done].
    rewrite (Hzlib raw compressed Hs). rsimpl.
    by rewrite (Hpickle d raw Hd).
  - intros c e Hd.
    destruct (raw_bytes ← zlib_decompress c; pickle_loads raw_bytes);
      [done|congruence].
  - intros d e Hs. destruct (pickle_dumps d) as [raw|e'] eqn:Hd.
    + right. by exists raw.
    + left. split; [congruence|by exists e'].
Qed.

End SerializerFacts.

(** Stand-ins for the libraries: a compressor that puts one byte in front
    and refuses an empty input, and the decompressor that takes the byte
    off. *)
Definition sample_compress (raw : list byte) : res (list byte) :=
  match raw with
  | [] => Raise Exception
  | _ => Ok (x78 :: raw)
  end.

Definition sample_decompress (compressed : list byte) : res (list byte) :=
  match compressed with
  | [] => Raise Exception
  | _ :: raw => Ok raw
  end.

Lemma deserialize_undoes_serialize_witness :
  (forall d compressed,
     ShareSerializer.serialize (list byte) Ok sample_compress d
     = Ok compressed ->
     ShareSerializer.deserialize (list byte) Ok sample_decompress compressed
     = Ok d) /\
  (forall compressed e,
     ShareSerializer.deserialize (list byte) Ok sample_decompress compressed
     = Raise e ->
     e = ValueError) /\
  (forall d e,
     ShareSerializer.serialize (list byte) Ok sample_compress d = Raise e ->
     (e = ValueError /\ exists e', @Ok (list byte) d = Raise e') \/
     (exists raw, Ok d = Ok raw /\ sample_compress raw = Raise e)).
Proof.
  apply (deserialize_undoes_serialize (list byte) Ok Ok sample_compress
           sample_decompress).
  - intros [|x raw] compressed H; [discriminate H|].
    apply Ok_inj in H as <-. reflexivity.
  - intros d raw H. by apply Ok_inj in H as ->.
Defined.

(** ** src/src/image_stego/dct_embed.py: one bit in one block *)

(** [block[u, v]], when the position is inside the block. *)
Definition cell (block : list (list Qc)) (u v : nat) : option Qc :=
  row ← block !! u; row !! v.

Lemma getitem_None {A} (l : list A) (i : nat) :
  l !! i = None -> getitem l i = Raise IndexError.
Proof. unfold getitem. by intros ->. Qed.

Lemma cell_insert (block : list (list Qc)) (u v : nat) (row : list Qc)
    (c c' : Qc) (u' v' : nat) :
  block !! u = Some row -> row !! v = Some c ->
  cell (<[u := <[v := c']> row]> block) u' v'
  = if decide ((u', v') = (u, v)) then Some c' else cell block u' v'.
Proof.
  intros Hrow Hc. unfold cell.
  assert (u < length block)%nat by (by eapply lookup_lt_Some).
  assert (v < length row)%nat by (by eapply lookup_lt_Some).
  destruct (decide (u' = u)) as [->|Hu].
  - rewrite list_lookup_insert_eq by done. cbn [mbind option_bind].
    rewrite Hrow. cbn [mbind option_bind].
    destruct (decide (v' = v)) as [->|Hv].
    + rewrite list_lookup_insert_eq by done. by rewrite decide_True.
    + rewrite list_lookup_insert_ne by done.
      rewrite decide_False by congruence. done.
  - rewrite list_lookup_insert_ne by done.
    rewrite decide_False by congruence. done.
Qed.

Lemma modified_coeff_polarity (coeff : Qc) (bit : Z) :
  let k := DCTEmbedder.k in
  let coeff' := DCTEmbedder.modified_coeff coeff bit in
  (bit = 1 -> (0 < coeff')%Qc /\ (k <= coeff')%Qc /\
              ((k <= coeff)%Qc -> coeff' = coeff)) /\
  (bit = 0 -> (coeff' < 0)%Qc /\ (coeff' <= - k)%Qc /\
              ((coeff <= - k)%Qc -> coeff' = coeff)) /\
  (bit <> 0 -> bit <> 1 -> coeff' = coeff) /\
  DCTEmbedder.modified_coeff coeff' bit = coeff'.
Proof.
  cbv zeta. set (k := DCTEmbedder.k).
  assert (0 < k)%Qc as Hk by reflexivity.
  assert (- k < 0)%Qc as Hnk by reflexivity.
  assert (forall x y : Qc, ~ (x < y)%Qc -> (y <= x)%Qc) as Hnlt
    by (intros x y; apply Qcnot_lt_le).
  assert (forall x y : Qc, ~ (x <= y)%Qc -> (y < x)%Qc) as Hnle
    by (intros x y; apply Qcnot_le_lt).
  assert (forall x y : Qc, (x < y)%Qc -> ~ (y <= x)%Qc) as Hltn
    by (intros x y; apply Qclt_not_le).
  assert (forall x y : Qc, (x <= y)%Qc -> ~ (y < x)%Qc) as Hlen
    by (intros x y; apply Qcle_not_lt).
  unfold DCTEmbedder.modified_coeff. fold k. clearbody k.
  destruct (Z.eqb_spec bit 1) as [->|Hb1].
  - split; [intros _|split; [done|split; [done|]]].
    + destruct (decide (coeff <= 0)%Qc) as [Hc|Hc].
      { split; [done|]. split; [apply Qcle_refl|].
        intros Hkc. exfalso. apply (Hltn _ _ Hk).
        by apply Qcle_trans with coeff. }
      destruct (decide (coeff < k)%Qc) as [Hck|Hck].
      { split; [done|]. split; [apply Qcle_refl|].
        intros Hkc. by apply Hlen in Hkc. }
      split; [by apply Hnle|]. split; [by apply Hnlt|done].
    + destruct (decide (coeff <= 0)%Qc) as [Hc|Hc].
      { rewrite decide_False by (by apply Hltn).
        rewrite decide_False by (apply Hlen, Qcle_refl). done. }
      destruct (decide (coeff < k)%Qc) as [Hck|Hck].
      { rewrite decide_False by (by apply Hltn).
        rewrite decide_False by (apply Hlen, Qcle_refl). done. }
      rewrite decide_False by done. by rewrite decide_False.
  - destruct (Z.eqb_spec bit 0) as [->|Hb0].
    + split; [done|]. split; [intros _|split; [done|]].
      * destruct (decide (0 <= coeff)%Qc) as [Hc|Hc].
        { split; [done|]. split; [apply Qcle_refl|].
          intros Hkc. exfalso. apply (Hltn _ _ Hnk).
          by apply Qcle_trans with coeff. }
        destruct (decide (- k < coeff)%Qc) as [Hck|Hck].
        { split; [done|]. split; [apply Qcle_refl|].
          intros Hkc. by apply Hlen in Hkc. }
        split; [by apply Hnle|]. split; [by apply Hnlt|done].
      * destruct (decide (0 <= coeff)%Qc) as [Hc|Hc].
        { rewrite decide_False by (by apply Hltn).
          rewrite decide_False by (apply Hlen, Qcle_refl). done. }
        destruct (decide (- k < coeff)%Qc) as [Hck|Hck].
        { rewrite decide_False by (by apply Hltn).
          rewrite decide_False by (apply Hlen, Qcle_refl). done. }
        rewrite decide_False by done. by rewrite decide_False.
    + repeat split; try done.
Qed.

(** X25. Embedding a bit in a DCT block of finite coefficients, with the
    strength [k = 25] that the embedder always has, writes one coefficient
    only, the one at the target position: bit 1 leaves it at least [25],
    bit 0 leaves it at most [-25], a coefficient already beyond the
    threshold on the right side is kept, any other bit value changes
    nothing, and embedding the same bit a second time changes nothing. A
    target position outside the block raises [IndexError]. *)
Theorem embed_bit_sets_polarity (u v : nat) (dct_block : list (list Qc))
    (bit : Z) :
  let k := DCTEmbedder.k in
  (forall coeff, cell dct_block u v = Some coeff ->
     exists block' coeff',
       DCTEmbedder._embed_bit_in_block (u, v) dct_block bit = Ok block' /\
       cell block' u v = Some coeff' /\
       (forall u' v', (u', v') <> (u, v) ->
                      cell block' u' v' = cell dct_block u' v') /\
       (bit = 1 -> (0 < coeff')%Qc /\ (k <= coeff')%Qc /\
                   ((k <= coeff)%Qc -> coeff' = coeff)) /\
       (bit = 0 -> (coeff' < 0)%Qc /\ (coeff' <= - k)%Qc /\
                   ((coeff <= - k)%Qc -> coeff' = coeff)) /\
       (bit <> 0 -> bit <> 1 -> block' = dct_block) /\
       DCTEmbedder._embed_bit_in_block (u, v) block' bit = Ok block') /\
  (cell dct_block u v = None ->
   DCTEmbedder._embed_bit_in_block (u, v) dct_block bit = Raise IndexError).
Proof.
  cbv zeta. unfold DCTEmbedder._embed_bit_in_block, cell. split.
  - intros coeff Hcell.
    destruct (dct_block !! u) as [row|] eqn:Hrow; [|done].
    cbn [mbind option_bind] in Hcell.
    pose proof (modified_coeff_polarity coeff bit) as
      (H1 & H0 & Hother & Hidem). cbv zeta in H1, H0, Hother, Hidem.
    set (coeff' := DCTEmbedder.modified_coeff coeff bit) in *.
    exists (<[u := <[v := coeff']> row]> dct_block), coeff'.
    rewrite (getitem_lookup _ _ _ Hrow). rsimpl.
    rewrite (getitem_lookup _ _ _ Hcell). rsimpl.
    assert (u < length dct_block)%nat by (by eapply lookup_lt_Some).
    assert (v < length row)%nat by (by eapply lookup_lt_Some).
    split; [done|]. split.
    { fold (cell (<[u := <[v := coeff']> row]> dct_block) u v).
      rewrite (cell_insert _ _ _ _ coeff) by done. by rewrite decide_True. }
    split.
    { intros u' v' Hne.
      fold (cell (<[u := <[v := coeff']> row]> dct_block) u' v').
      rewrite (cell_insert _ _ _ _ coeff) by done.
      by rewrite decide_False. }
    split; [done|]. split; [done|]. split.
    { intros Hb0 Hb1. rewrite (Hother Hb0 Hb1).
      rewrite (list_insert_id row v coeff) by done.
      by rewrite list_insert_id. }
    rewrite (getitem_lookup _ u (<[v := coeff']> row))
      by (by rewrite list_lookup_insert_eq).
    rsimpl.
    rewrite (getitem_lookup _ v coeff') by (by rewrite list_lookup_insert_eq).
    rsimpl. rewrite Hidem.
    by rewrite !list_insert_insert_eq.
  - intros Hcell.
    destruct (dct_block !! u) as [row|] eqn:Hrow.
    + rewrite (getitem_lookup _ _ _ Hrow). rsimpl.
      cbn [mbind option_bind] in Hcell.
      by rewrite (getitem_None _ _ Hcell).
    + by rewrite (getitem_None _ _ Hrow).
Qed.

(** ** src/src/secret_sharing/scrambler.py: where the pixels go *)

Section ScramblePixels.

Import Scrambler.

Lemma cat_map_injective (self : ArnoldScrambler) (n : nat)
    (p q : nat * nat) :
  (0 < n)%nat -> p ∈ indices n -> q ∈ indices n ->
  cat_map self n p = cat_map self n q -> p = q.
Proof.
  intros Hn Hp Hq Heq.
  rewrite <- (inverse_forward self n Hn p Hp),
          <- (inverse_forward self n Hn q Hq). congruence.
Qed.

Lemma cat_map_inverse_injective (self : ArnoldScrambler) (n : nat)
    (p q : nat * nat) :
  (0 < n)%nat -> p ∈ indices n -> q ∈ indices n ->
  cat_map_inverse self n p = cat_map_inverse self n q -> p = q.
Proof.
  intros Hn Hp Hq Heq.
  rewrite <- (forward_inverse self n Hn p Hp),
          <- (forward_inverse self n Hn q Hq). congruence.
Qed.

Lemma iter_forward_indices (self : ArnoldScrambler) (n k : nat)
    (p : nat * nat) :
  (0 < n)%nat -> p ∈ indices n ->
  Nat.iter k (cat_map self n) p ∈ indices n.
Proof.
  intros Hn Hp. destruct k as [|k]; [done|]. cbn [Nat.iter nat_rect].
  by apply cat_map_indices.
Qed.

Lemma iter_forward_injective (self : ArnoldScrambler) (n k : nat)
    (p q : nat * nat) :
  (0 < n)%nat -> p ∈ indices n -> q ∈ indices n ->
  Nat.iter k (cat_map self n) p = Nat.iter k (cat_map self n) q ->
  p = q.
Proof.
  intros Hn Hp Hq. induction k as [|k IH]; [done|].
  cbn [Nat.iter nat_rect]. intros Heq. apply IH.
  apply (cat_map_injective self n); try done;
    by apply iter_forward_indices.
Qed.

(** After [k] rounds the pixel of position [p] is at the [k]-th image of
    [p] under the map. *)
Lemma iter_scatter_forward (self : ArnoldScrambler) (n c k : nat) (g : grid)
    (p : nat * nat) :
  (0 < n)%nat -> is_grid n n g -> p ∈ indices n ->
  get2 (Nat.iter k (scatter n n c (cat_map self n)) g)
       (Nat.iter k (cat_map self n) p).1
       (Nat.iter k (cat_map self n) p).2
  = get2 g p.1 p.2.
Proof.
  intros Hn Hg Hp. induction k as [|k IH]; [done|].
  cbn [Nat.iter nat_rect].
  destruct (scatter_spec n n c (cat_map self n)
              (Nat.iter k (scatter n n c (cat_map self n)) g))
    as [_ Hget].
  { intros; by apply cat_map_range. }
  { intros q q'. by apply cat_map_injective. }
  cbn [Nat.iter nat_rect] in Hget.
  rewrite Hget by (by apply iter_forward_indices). exact IH.
Qed.

Lemma get2_pad (h w n c : nat) (rows : grid) (y x : nat) :
  length rows = h -> Forall (fun row => length row = w) rows ->
  (y < n)%nat -> (x < n)%nat ->
  get2 (pad n c rows) y x
  = if (y <? h)%nat && (x <? w)%nat then get2 rows y x else replicate c 0.
Proof.
  intros Hh Hw Hy Hx. unfold get2, pad.
  destruct (Nat.ltb_spec y h) as [Hyh|Hyh].
  - rewrite lookup_app_l by (rewrite length_map; lia).
    rewrite list_lookup_fmap.
    destruct (lookup_lt_is_Some_2 rows y) as [row Hrow]; [lia|].
    rewrite Hrow. cbn [fmap option_fmap option_map mbind option_bind andb].
    assert (length row = w) as Hlen.
    { rewrite Forall_forall in Hw. apply Hw.
      by eapply list_elem_of_lookup_2. }
    destruct (Nat.ltb_spec x w) as [Hxw|Hxw].
    + rewrite lookup_app_l by lia. done.
    + rewrite lookup_app_r by lia.
      rewrite lookup_replicate_2 by lia. done.
  - cbn [andb]. rewrite lookup_app_r by (rewrite length_map; lia).
    rewrite length_map.
    rewrite lookup_replicate_2 by lia. cbn [mbind option_bind].
    rewrite lookup_replicate_2 by lia. done.
Qed.

Lemma iter_forward_target_exact (self : ArnoldScrambler) (n k : nat)
    (p : nat * nat) :
  (0 < n)%nat -> int64_safe self n -> p ∈ indices n ->
  Nat.iter k (forward_target self n) p = Nat.iter k (cat_map self n) p.
Proof.
  intros Hn Hsafe Hp. induction k as [|k IH]; [done|].
  cbn [Nat.iter nat_rect].
  fold (Nat.iter k (forward_target self n) p).
  fold (Nat.iter k (cat_map self n) p).
  rewrite IH. apply forward_target_exact; [done|].
  by apply iter_forward_indices.
Qed.

(** X26. For parameters small enough for the int64 index arithmetic
    ([int64_safe]), [scramble] returns a square image of side [max(h, w)]
    together with the original [(h, w)], and it only moves pixels: the pixel
    at [(y, x)] of the zero-padded input is found at the position that
    [iterations] rounds of the index map give, and no two positions are sent
    to the same place. *)
Theorem scramble_moves_pixels_along_cat_map (self : ArnoldScrambler)
    (img : ndarray3) (h w c : nat) :
  well_shaped img -> nd_shape img = (h, w, c) ->
  int64_safe self (Nat.max h w) ->
  let n := Nat.max h w in
  let rounds := Nat.iter (Z.to_nat (iterations self)) (forward_target self n) in
  (scramble self img).2 = (h, w) /\
  nd_shape (scramble self img).1 = (n, n, c) /\
  is_grid n n (nd_rows (scramble self img).1) /\
  (forall y x, (y < n)%nat -> (x < n)%nat ->
     ((rounds (y, x)).1 < n)%nat /\ ((rounds (y, x)).2 < n)%nat /\
     get2 (nd_rows (scramble self img).1) (rounds (y, x)).1 (rounds (y, x)).2
     = if (y <? h)%nat && (x <? w)%nat then get2 (nd_rows img) y x
       else replicate c 0) /\
  (forall y x y' x', (y < n)%nat -> (x < n)%nat -> (y' < n)%nat ->
     (x' < n)%nat -> rounds (y, x) = rounds (y', x') -> (y, x) = (y', x')).
Proof.
  destruct img as [shape rows]. intros Hws Hshape Hsafe.
  cbn [nd_shape] in Hshape.
  subst shape. destruct Hws as [Hh Hrows]. cbn [nd_rows] in Hh, Hrows.
  assert (Forall (fun row => length row = w) rows) as Hw
    by (eapply Forall_impl; [exact Hrows|]; by intros row [? _]).
  cbv zeta. unfold scramble. cbn [nd_shape nd_rows fst snd].
  split; [done|]. split; [done|].
  destruct (decide (Nat.max h w = 0)%nat) as [Hz|Hz].
  - rewrite Hz. split; [|split; intros; lia].
    assert (rows = []) as -> by (destruct rows; [done|simpl in Hh; lia]).
    destruct (Z.to_nat (iterations self)); [done|].
    cbn [Nat.iter nat_rect]. done.
  - assert (0 < Nat.max h w)%nat as Hn by lia.
    pose proof (is_grid_pad h w c rows Hh Hw) as Hg.
    rewrite (iter_ext (scatter (Nat.max h w) (Nat.max h w) c
                         (forward_target self (Nat.max h w)))
                      (scatter (Nat.max h w) (Nat.max h w) c
                         (cat_map self (Nat.max h w))))
      by (intros g; by apply scatter_forward_exact).
    split; [by apply is_grid_iter_forward|]. split.
    + intros y x Hy Hx.
      assert ((y, x) ∈ indices (Nat.max h w)) as Hp
        by (by apply elem_of_indices).
      rewrite (iter_forward_target_exact self _ _ _ Hn Hsafe Hp).
      pose proof (iter_forward_indices self _ (Z.to_nat (iterations self))
                    _ Hn Hp) as Hq.
      destruct (Nat.iter _ _ (y, x)) as [qy qx] eqn:Hrounds.
      apply elem_of_indices in Hq as [Hqy Hqx]. cbn [fst snd].
      split; [done|]. split; [done|].
      pose proof (iter_scatter_forward self _ c (Z.to_nat (iterations self))
                    _ (y, x) Hn Hg Hp) as Hget.
      rewrite Hrounds in Hget. cbn [fst snd] in Hget. rewrite Hget.
      by apply get2_pad.
    + intros y x y' x' Hy Hx Hy' Hx'.
      assert ((y, x) ∈ indices (Nat.max h w)) as Hp
        by (by apply elem_of_indices).
      assert ((y', x') ∈ indices (Nat.max h w)) as Hp'
        by (by apply elem_of_indices).
      rewrite (iter_forward_target_exact self _ _ _ Hn Hsafe Hp).
      rewrite (iter_forward_target_exact self _ _ _ Hn Hsafe Hp').
      by apply iter_forward_injective.
Qed.

Lemma scramble_moves_pixels_along_cat_map_witness :
  let self := {| a := 1; b := 1; iterations := 10 |} in
  let n := Nat.max 1 2 in
  let rounds := Nat.iter (Z.to_nat (iterations self)) (forward_target self n) in
  (scramble self sample_image).2 = (1, 2)%nat /\
  nd_shape (scramble self sample_image).1 = (n, n, 3%nat) /\
  is_grid n n (nd_rows (scramble self sample_image).1) /\
  (forall y x, (y < n)%nat -> (x < n)%nat ->
     ((rounds (y, x)).1 < n)%nat /\ ((rounds (y, x)).2 < n)%nat /\
     get2 (nd_rows (scramble self sample_image).1)
          (rounds (y, x)).1 (rounds (y, x)).2
     = if (y <? 1)%nat && (x <? 2)%nat then get2 (nd_rows sample_image) y x
       else replicate 3 0) /\
  (forall y x y' x', (y < n)%nat -> (x < n)%nat -> (y' < n)%nat ->
     (x' < n)%nat -> rounds (y, x) = rounds (y', x') -> (y, x) = (y', x')).
Proof.
  apply (scramble_moves_pixels_along_cat_map
           {| a := 1; b := 1; iterations := 10 |} sample_image 1 2 3).
  - split; [reflexivity|]. repeat constructor.
  - reflexivity.
  - reflexivity.
Defined.

Lemma scatter_forward_inverse (self : ArnoldScrambler) (n c : nat) (g : grid) :
  (0 < n)%nat -> is_grid n n g ->
  scatter n n c (cat_map self n)
    (scatter n n c (cat_map_inverse self n) g) = g.
Proof.
  intros Hn Hg.
  destruct (scatter_spec n n c (cat_map_inverse self n) g) as [Hg1 Hget1].
  { intros; by apply cat_map_inverse_range. }
  { intros p q. by apply cat_map_inverse_injective. }
  destruct (scatter_spec n n c (cat_map self n)
              (scatter n n c (cat_map_inverse self n) g)) as [Hg2 Hget2].
  { intros; by apply cat_map_range. }
  { intros p q. by apply cat_map_injective. }
  apply (grid_ext n n); [done|done|].
  intros y x Hy Hx.
  assert ((y, x) ∈ indices n) as Hin by (by apply elem_of_indices).
  specialize (Hget2 (cat_map_inverse self n (y, x))
                (cat_map_inverse_indices self n Hn (y, x))).
  rewrite (forward_inverse self n Hn _ Hin) in Hget2. cbn [fst snd] in Hget2.
  rewrite Hget2. by rewrite (Hget1 (y, x) Hin).
Qed.

Lemma is_grid_iter_inverse (self : ArnoldScrambler) (n c k : nat) (g : grid) :
  (0 < n)%nat -> is_grid n n g ->
  is_grid n n (Nat.iter k (scatter n n c (cat_map_inverse self n)) g).
Proof.
  intros Hn Hg. destruct k as [|k]; [done|]. cbn [Nat.iter nat_rect].
  apply scatter_spec.
  - intros; by apply cat_map_inverse_range.
  - intros p q. by apply cat_map_inverse_injective.
Qed.

Lemma iter_forward_inverse (self : ArnoldScrambler) (n c k : nat) (g : grid) :
  is_grid n n g ->
  Nat.iter k (scatter n n c (cat_map self n))
    (Nat.iter k (scatter n n c (cat_map_inverse self n)) g) = g.
Proof.
  intros Hg. destruct (decide (n = 0)%nat) as [->|Hn].
  - assert (g = []) as -> by (destruct Hg as [Hl _]; by destruct g).
    assert (forall t x, scatter 0 0 c t x = []) as Hs by done.
    destruct k as [|k]; simpl; [done|]. by rewrite Hs.
  - induction k as [|k IH]; [done|].
    rewrite Nat.iter_succ_r. simpl.
    rewrite scatter_forward_inverse; [done|lia|].
    apply is_grid_iter_inverse; [lia|done].
Qed.

Lemma pad_square (n c : nat) (g : grid) : is_grid n n g -> pad n c g = g.
Proof.
  intros [Hl Hrows]. unfold pad. rewrite Hl, Nat.sub_diag.
  cbn [replicate]. rewrite app_nil_r.
  rewrite <- (map_id g) at 2. apply map_ext_Forall.
  eapply Forall_impl; [exact Hrows|]. intros row Hrow. cbv beta in *.
  rewrite Hrow, Nat.sub_diag. cbn [replicate]. by rewrite app_nil_r.
Qed.

(** X27. On a square image, and for parameters small enough for the int64
    index arithmetic ([int64_safe]), the two maps are inverse in the other
    order too: [unscramble] (without a shape to crop to, or with the image's
    own) does not raise, and [scramble] applied to its result gives the
    image back. *)
Theorem scramble_undoes_unscramble (self : ArnoldScrambler) (img : ndarray3)
    (n c : nat) :
  well_shaped img -> nd_shape img = (n, n, c) ->
  int64_safe self n ->
  exists img',
    unscramble self img None = Ok img' /\
    unscramble self img (Some (n, n)) = Ok img' /\
    scramble self img' = (img, (n, n)).
Proof.
  destruct img as [shape rows]. intros Hws Hshape Hsafe.
  cbn [nd_shape] in Hshape.
  subst shape. destruct Hws as [Hh Hrows]. cbn [nd_rows] in Hh, Hrows.
  assert (is_grid n n rows) as Hg.
  { split; [done|]. eapply Forall_impl; [exact Hrows|]. by intros row [? _]. }
  set (k := Z.to_nat (iterations self)).
  pose (rows' := Nat.iter k (scatter n n c (cat_map_inverse self n)) rows).
  assert (is_grid n n rows') as Hg'.
  { destruct (decide (n = 0)%nat) as [->|Hn];
      [|apply is_grid_iter_inverse; [lia|done]].
    unfold rows'. destruct k; [done|]. cbn [Nat.iter nat_rect]. done. }
  exists {| nd_shape := (n, n, c); nd_rows := rows' |}.
  unfold unscramble, scramble. cbn [nd_shape nd_rows]. fold k.
  rewrite Nat.ltb_irrefl, andb_false_r.
  rewrite (iter_ext (scatter n n c (inverse_target self n))
                    (scatter n n c (cat_map_inverse self n)))
    by (intros g; by apply scatter_inverse_exact).
  fold rows'.
  split; [done|]. split.
  - rewrite !Nat.min_id. f_equal. f_equal.
    destruct Hg' as [Hl' Hrows']. by apply crop_id.
  - rewrite Nat.max_id. rewrite (pad_square n c rows' Hg').
    rewrite (iter_ext (scatter n n c (forward_target self n))
                      (scatter n n c (cat_map self n)))
      by (intros g; by apply scatter_forward_exact).
    unfold rows'. by rewrite iter_forward_inverse.
Qed.

Lemma scramble_undoes_unscramble_witness :
  exists img',
    unscramble {| a := 1; b := 1; iterations := 10 |}
      {| nd_shape := (2, 2, 1)%nat; nd_rows := [[[1]; [2]]; [[3]; [4]]] |} None
    = Ok img' /\
    unscramble {| a := 1; b := 1; iterations := 10 |}
      {| nd_shape := (2, 2, 1)%nat; nd_rows := [[[1]; [2]]; [[3]; [4]]] |}
      (Some (2, 2)%nat)
    = Ok img' /\
    scramble {| a := 1; b := 1; iterations := 10 |} img'
    = ({| nd_shape := (2, 2, 1)%nat; nd_rows := [[[1]; [2]]; [[3]; [4]]] |},
       (2, 2)%nat).
Proof.
  apply (scramble_undoes_unscramble {| a := 1; b := 1; iterations := 10 |}
           {| nd_shape := (2, 2, 1)%nat;
              nd_rows := [[[1]; [2]]; [[3]; [4]]] |} 2 1).
  - split; [reflexivity|]. repeat constructor.
  - reflexivity.
  - reflexivity.
Defined.

End ScramblePixels.

(** ** src/src/secret_sharing/math_utils.py: the CRT solver on residues *)

Lemma list_prod_ge_1 (l : list Z) :
  Forall (fun m => 1 < m) l -> 1 <= list_prod l.
Proof.
  induction 1 as [|m l Hm Hl IH]; simpl; [lia|]. nia.
Qed.

Section CrtSolve.

Variable ms : list Z.
Hypothesis ms_large : Forall (fun m => 1 < m) ms.
Hypothesis ms_coprime : pairwise_coprime ms.

Let M := list_prod ms.

Lemma modulus_cofactor (m : Z) :
  m ∈ ms ->
  exists rest, ms ≡ₚ m :: rest /\ M / m = list_prod rest /\
               Z.gcd (list_prod rest) m = 1 /\ 1 < m /\
               1 <= list_prod rest.
Proof.
  intros Hm. apply elem_of_Permutation in Hm as [rest Hperm].
  assert (1 < m /\ Forall (fun m => 1 < m) rest) as [Hm Hrest].
  { rewrite Hperm in ms_large. by apply Forall_cons in ms_large. }
  assert (pairwise_coprime (m :: rest)) as [Hc _].
  { eapply pairwise_coprime_submseteq; [|exact ms_coprime].
    by rewrite Hperm. }
  exists rest. unfold M. rewrite (list_prod_perm _ _ Hperm). simpl.
  repeat split; try done.
  - rewrite Z.mul_comm, Z.div_mul by lia. done.
  - rewrite Z.gcd_comm. by apply coprime_list_prod.
  - by apply list_prod_ge_1.
Qed.

Lemma solver_weight (m : Z) :
  m ∈ ms ->
  exists inv, MathUtils.mod_inverse (M / m) m = Ok inv /\
              (M / m) * inv = crt_weight M m /\
              (crt_weight M m) mod m = 1.
Proof.
  intros Hm. destruct (modulus_cofactor m Hm) as (rest & _ & Hdiv & Hg & ? & ?).
  destruct (modinv_spec (M / m) m) as (inv & _ & H2 & H3 & H4);
    [lia|lia|by rewrite Hdiv|].
  exists inv. unfold crt_weight. rewrite <- H3. done.
Qed.

Lemma solver_weight_other (m m' : Z) (rest : list Z) :
  ms ≡ₚ m :: rest -> m' ∈ rest -> (m | crt_weight M m').
Proof.
  intros Hperm Hm'.
  apply elem_of_Permutation in Hm' as [rest' Hperm'].
  assert (1 < m') as Hlarge.
  { rewrite Hperm, Hperm' in ms_large.
    apply Forall_cons in ms_large as [_ H]. by apply Forall_cons in H as [H _]. }
  unfold crt_weight. apply Z.divide_mul_l.
  unfold M. rewrite (list_prod_perm _ _ Hperm). simpl.
  rewrite (list_prod_perm _ _ Hperm'). simpl.
  replace (m * (m' * list_prod rest')) with (m * list_prod rest' * m') by lia.
  rewrite Z.div_mul by lia. by apply Z.divide_mul_l.
Qed.

(** The weighted sum of the residues of [x] is [x] modulo the product. *)
Lemma weighted_residues (x : Z) :
  0 <= x < M ->
  (list_sum (map (fun m => (x mod m) * crt_weight M m) ms)) mod M = x.
Proof.
  intros Hx.
  transitivity (x mod M); [|apply Z.mod_small; lia].
  apply Z.cong_iff_ex.
  destruct (divide_list_prod ms
              (list_sum (map (fun m => (x mod m) * crt_weight M m) ms) - x))
    as [k Hk]; [done| |exists k; exact Hk].
  apply Forall_forall. intros m Hm.
  destruct (elem_of_Permutation ms m) as [[rest Hperm] _]; [done|].
  rewrite (list_sum_perm _ _ (fmap_Permutation _ _ _ Hperm)).
  rewrite fmap_cons, list_sum_cons.
  assert (1 < m) as Hlarge.
  { rewrite Forall_forall in ms_large. by apply ms_large. }
  destruct (solver_weight m Hm) as (_ & _ & _ & Hself).
  assert (m | (x mod m) * crt_weight M m - x) as [k1 H1].
  { apply Z.mod_divide; [lia|].
    rewrite Zminus_mod, <- Z.mul_mod_idemp_r, Hself by lia.
    rewrite Z.mul_1_r, Z.mod_mod by lia.
    rewrite Z.sub_diag. apply Z.mod_0_l. lia. }
  assert (m | list_sum ((fun m' => (x mod m') * crt_weight M m') <$> rest))
    as [k2 H2].
  { assert (forall m', m' ∈ rest -> (m | crt_weight M m')) as Hrest
      by (intros; by eapply solver_weight_other).
    clear Hperm. induction rest as [|m' rest IH].
    - apply Z.divide_0_r.
    - rewrite fmap_cons, list_sum_cons.
      apply Z.divide_add_r;
        [apply Z.divide_mul_r, Hrest; by left|].
      apply IH. intros; apply Hrest; by right. }
  exists (k1 + k2). lia.
Qed.

End CrtSolve.

Lemma np_iadd_same_length (acc term : list Z) :
  length term = length acc -> np_iadd acc term = Ok (zip_with Z.add acc term).
Proof. intros Hlen. unfold np_iadd. by rewrite Hlen, Nat.eqb_refl. Qed.

(** The accumulation loop on the residues of the values [xs]. *)
Lemma residue_fold (xs : list Z) (w : Z -> Z) (l : list Z) :
  forall g : Z -> Z,
    rfold (fun sum_val m =>
             np_iadd sum_val
               (map (fun a => a * w m) (map (fun x => x mod m) xs)))
          l (map g xs)
    = Ok (map (fun x => g x + list_sum (map (fun m => (x mod m) * w m) l)) xs).
Proof.
  induction l as [|m l IH]; intros g; cbn [rfold].
  - f_equal. apply map_ext. intros x. cbn. lia.
  - rewrite np_iadd_same_length by (by rewrite !length_map). rsimpl.
    rewrite map_map, zip_with_add_map.
    rewrite (IH (fun x => g x + x mod m * w m)).
    f_equal. apply map_ext. intros x.
    rewrite fmap_cons, list_sum_cons. symmetry. apply Z.add_assoc.
Qed.

(** X28. [batch_crt_solve] inverts the residue map: for pairwise coprime
    moduli above 1, given the residues of the values [xs] (each below the
    product of the moduli) modulo each modulus, it returns every value
    reduced modulo [m0], whenever that fits a byte. *)
Theorem batch_crt_solve_recovers_from_residues (ms xs : list Z) (m0 : Z) :
  ms <> [] -> Forall (fun m => 1 < m) ms -> pairwise_coprime ms ->
  0 < m0 ->
  Forall (fun x => 0 <= x < list_prod ms /\ x mod m0 < 256) xs ->
  MathUtils.batch_crt_solve (map (fun m => map (fun x => x mod m) xs) ms)
    ms m0
  = Ok (map (fun x => x mod m0) xs).
Proof.
  intros Hne Hlarge Hcop Hm0 Hxs.
  unfold MathUtils.batch_crt_solve.
  rewrite get_product_prod. set (M := list_prod ms).
  assert (1 <= M) as HM by (by apply list_prod_ge_1).
  rewrite rmap_seq_getitem.
  rewrite (rmap_ok _ (crt_weight M)).
  2:{ intros m Hin.
      assert (1 < m) as Hl by (rewrite Forall_forall in Hlarge; by apply Hlarge).
      destruct (Z.eqb_spec m 0); [lia|].
      destruct (solver_weight ms Hlarge Hcop _ Hin) as (inv & Hinv & Hw & _).
      fold M in Hinv, Hw. rewrite Hinv. rsimpl. by rewrite Hw. }
  rsimpl.
  assert (exists m1 rest, ms = m1 :: rest) as (m1 & rest & Hms)
    by (destruct ms; [done|eauto]).
  assert (getitem (map (fun m => map (fun x => x mod m) xs) ms) 0
          = Ok (map (fun x => x mod m1) xs)) as ->
    by (by rewrite Hms).
  rsimpl.
  rewrite (rfold_seq_getitem2
             (fun sum_val share_i w_i =>
                np_iadd sum_val (map (fun a => a * w_i) share_i)))
    by (by rewrite !length_map).
  rewrite zip_map_same, rfold_fmap. cbn [fst snd].
  rewrite map_map.
  rewrite (residue_fold xs (crt_weight M) ms (fun _ => 0)). rsimpl.
  destruct (Z.eqb_spec M 0); [lia|].
  destruct (Z.eqb_spec m0 0); [lia|]. cbn [orb].
  f_equal. rewrite map_map.
  apply map_ext_Forall. eapply Forall_impl; [exact Hxs|].
  intros x [Hx Hbyte]. cbv beta. rewrite Z.add_0_l.
  unfold M. rewrite (weighted_residues ms Hlarge Hcop x Hx).
  unfold astype_uint8. apply Z.mod_small.
  pose proof (Z.mod_pos_bound x m0 Hm0). lia.
Qed.

Lemma batch_crt_solve_recovers_from_residues_witness :
  MathUtils.batch_crt_solve
    (map (fun m => map (fun x => x mod m) [100; 0; 104; 76]) [3; 5; 7])
    [3; 5; 7] 257
  = Ok (map (fun x => x mod 257) [100; 0; 104; 76]).
Proof.
  apply (batch_crt_solve_recovers_from_residues [3; 5; 7] [100; 0; 104; 76]
           257).
  - done.
  - repeat constructor.
  - repeat split; repeat constructor.
  - lia.
  - repeat constructor; cbn; lia.
Defined.

(** ** Moduli that are not pairwise coprime *)

Lemma modinv_raises (a m : Z) :
  Z.gcd a m <> 1 ->
  Reconstructor._modinv a m = Raise Exception /\
  MathUtils.mod_inverse a m = Raise Exception.
Proof.
  intros Hg. pose proof (extended_gcd_abs a m) as Habs.
  unfold Reconstructor._modinv, Reconstructor._egcd, MathUtils.mod_inverse.
  destruct (MathUtils.extended_gcd a m) as [[g x] y]. cbn [fst] in Habs.
  destruct (Z.eqb_spec g 1) as [->|_]; [|done].
  by rewrite <- Habs in Hg.
Qed.

Lemma rfold_raises_at {A S} (f : S -> A -> res S) (l : list A) (x : A) :
  x ∈ l -> (forall s, exists e, f s x = Raise e) ->
  forall s, exists e, rfold f l s = Raise e.
Proof.
  intros Hx Hf. induction l as [|y l IH]; intros s.
  - by apply elem_of_nil in Hx.
  - cbn [rfold]. apply elem_of_cons in Hx as [<-|Hx].
    + destruct (Hf s) as [e ->]. by exists e.
    + destruct (f s y) as [s'|e]; [|by exists e]. rsimpl. by apply IH.
Qed.

Lemma rmap_raises_at {A B} (P : exn -> Prop) (f : A -> res B) (l : list A)
    (x : A) :
  x ∈ l -> (forall y e, f y = Raise e -> P e) -> (exists e, f x = Raise e) ->
  exists e, rmap f l = Raise e /\ P e.
Proof.
  intros Hx HP Hf. induction l as [|y l IH].
  - by apply elem_of_nil in Hx.
  - cbn [rmap]. destruct (f y) as [b|e] eqn:Hy.
    + rsimpl. apply elem_of_cons in Hx as [->|Hx].
      { destruct Hf as [e He]. congruence. }
      destruct (IH Hx) as (e & -> & He). by exists e.
    + exists e. split; [done|]. by eapply HP.
Qed.

(** The cofactor of a modulus that shares a factor with another one has no
    inverse modulo it. *)
Lemma cofactor_not_coprime (ms : list Z) (i j : nat) (mi mj : Z) :
  ms !! i = Some mi -> ms !! j = Some mj -> i <> j -> mi <> 0 ->
  Z.gcd mi mj <> 1 -> Z.gcd (list_prod ms / mi) mi <> 1.
Proof.
  intros Hi Hj Hij Hmi Hg Hone.
  pose proof (delete_Permutation ms i mi Hi) as Hperm.
  assert (mj ∈ delete i ms) as Hin.
  { destruct (decide (j < i)%nat) as [Hlt|Hge].
    - apply (list_elem_of_lookup_2 _ j). by rewrite list_lookup_delete_lt.
    - apply (list_elem_of_lookup_2 _ (pred j)).
      rewrite list_lookup_delete_ge by lia.
      replace (S (pred j)) with j by lia. done. }
  rewrite (list_prod_perm _ _ Hperm) in Hone. cbn [list_prod foldr] in Hone.
  fold (list_prod (delete i ms)) in Hone.
  rewrite Z.mul_comm, Z.div_mul in Hone by done.
  assert (mj | list_prod (delete i ms)) as Hdiv.
  { clear -Hin. induction (delete i ms) as [|m l IH].
    - by apply elem_of_nil in Hin.
    - cbn [list_prod foldr]. apply elem_of_cons in Hin as [->|Hin].
      + apply Z.divide_mul_l, Z.divide_refl.
      + apply Z.divide_mul_r. by apply IH. }
  apply Hg.
  assert (Z.gcd mi mj | 1) as Hd.
  { rewrite <- Hone. apply Z.gcd_greatest.
    - etrans; [apply Z.gcd_divide_r|exact Hdiv].
    - apply Z.gcd_divide_l. }
  pose proof (Z.gcd_nonneg mi mj).
  apply Z.divide_1_r_nonneg in Hd; done.
Qed.

(** X29. Shares whose moduli are not pairwise coprime never give an image:
    when two of the shares have moduli with a common factor, [reconstruct]
    raises, and so does [batch_crt_solve] on these moduli, for any share
    data, with [Exception] (no modular inverse) or [ZeroDivisionError] (a
    zero modulus). *)
Theorem non_coprime_moduli_give_no_image
    (valid_shares : list Splitter.share_dict) (i j : nat)
    (si sj : Splitter.share_dict) :
  valid_shares !! i = Some si -> valid_shares !! j = Some sj -> i <> j ->
  Z.gcd (Splitter.d_mod si) (Splitter.d_mod sj) <> 1 ->
  (exists e, Reconstructor.reconstruct valid_shares = Raise e) /\
  (forall shares m0,
     exists e,
       MathUtils.batch_crt_solve shares (map Splitter.d_mod valid_shares) m0
       = Raise e /\ (e = Exception \/ e = ZeroDivisionError)).
Proof.
  intros Hi Hj Hij Hg.
  set (ms := map Splitter.d_mod valid_shares).
  assert (ms !! i = Some (Splitter.d_mod si)) as Hmi
    by (unfold ms; by rewrite list_lookup_fmap, Hi).
  assert (ms !! j = Some (Splitter.d_mod sj)) as Hmj
    by (unfold ms; by rewrite list_lookup_fmap, Hj).
  assert (ms <> []) as Hne by (intros Hnil; by rewrite Hnil in Hmi).
  split.
  - destruct valid_shares as [|share0 rest]; [done|].
    unfold Reconstructor.reconstruct.
    change (map Splitter.d_mod (share0 :: rest)) with ms.
    rewrite (reduce_mul_prod ms Hne). rsimpl.
    match goal with
    | |- exists e, (?run ≫= _) = _ =>
        assert (exists e, run = Raise e) as [e ->]; [|by exists e]
    end.
    apply (rfold_raises_at _ _ si); [by eapply list_elem_of_lookup_2|].
    intros acc. destruct (Z.eqb_spec (Splitter.d_mod si) 0) as [_|Hnz];
      [by eexists|].
    destruct (modinv_raises (list_prod ms / Splitter.d_mod si)
                (Splitter.d_mod si)) as [-> _]; [|by eexists].
    by apply (cofactor_not_coprime ms i j _ (Splitter.d_mod sj)).
  - intros shares m0. unfold MathUtils.batch_crt_solve. fold ms.
    rewrite get_product_prod, rmap_seq_getitem.
    match goal with
    | |- exists e, (?run ≫= _) = _ /\ _ =>
        assert (exists e, run = Raise e /\
                          (e = Exception \/ e = ZeroDivisionError))
          as (e & -> & He); [|by exists e]
    end.
    apply (rmap_raises_at _ _ _ (Splitter.d_mod si));
      [by eapply list_elem_of_lookup_2| |].
    + intros m e. destruct (Z.eqb_spec m 0); [intros [= <-]; by right|].
      unfold MathUtils.mod_inverse.
      destruct (MathUtils.extended_gcd (list_prod ms / m) m) as [[g x] y].
      destruct (g =? 1); [|intros [= <-]; by left].
      destruct (Z.eqb_spec m 0); [done|]. by rsimpl.
    + destruct (Z.eqb_spec (Splitter.d_mod si) 0) as [_|Hnz]; [by eexists|].
      destruct (modinv_raises (list_prod ms / Splitter.d_mod si)
                  (Splitter.d_mod si)) as [_ ->]; [|by eexists].
      by apply (cofactor_not_coprime ms i j _ (Splitter.d_mod sj)).
Qed.

Lemma non_coprime_moduli_give_no_image_witness :
  (exists e,
     Reconstructor.reconstruct [sample_share 0 6; sample_share 1 9]
     = Raise e) /\
  (forall shares m0,
     exists e,
       MathUtils.batch_crt_solve shares
         (map Splitter.d_mod [sample_share 0 6; sample_share 1 9]) m0
       = Raise e /\ (e = Exception \/ e = ZeroDivisionError)).
Proof.
  apply (non_coprime_moduli_give_no_image
           [sample_share 0 6; sample_share 1 9] 0 1
           (sample_share 0 6) (sample_share 1 9)).
  - reflexivity.
  - reflexivity.
  - lia.
  - vm_compute. discriminate.
Defined.
